(** * Reference-counted handles of [smart_pointers.h]

    A shallow embedding of [SharedPtr], [WeakPtr], the two control blocks and
    [EnableSharedFromThis], followed by the properties of the counting
    discipline.

    Handles are values (a pair of nullable pointers); every member function
    that touches a control block is a computation over the memory that holds
    the blocks.  A member function takes the value of [*this] and returns the
    new one.  The counters are [size_t]: 64-bit, wrapping. *)

From Stdlib Require Import NArith List Lia.
From stdpp Require Import base numbers option list gmap strings.

Local Open Scope N_scope.

(** ** Machine integers *)

Definition SIZE_MAX : N := 18446744073709551615.

(** [++n] and [--n] on a [size_t]. *)
Definition pre_incr (n : N) : N := (n + 1) mod (SIZE_MAX + 1).
Definition pre_decr (n : N) : N := (n + SIZE_MAX) mod (SIZE_MAX + 1).

(** ** Data model *)

(** Addresses of separately allocated objects and of control blocks.  A
    nullable pointer is an [option]. *)
Definition addr := N.
Definition blk := N.

(** The destruction strategy stored by a [RegularControlBlock]:
    [std::default_delete<T>] runs [delete], which destroys the object; any
    other callable is opaque and is taken not to touch handles. *)
Inductive Deleter := default_delete | custom_deleter.

(** The part of a control block that its dynamic type adds. *)
Inductive Derived :=
  | RegularControlBlock (object : option addr) (del : Deleter)
  | MakeSharedControlBlock.

Record BaseControlBlock := mkCb {
  shared_cnt : N;
  weak_cnt : N;
  derived : Derived
}.

Record SharedPtr := mkShared { object : option addr; cb : option blk }.
Record WeakPtr := mkWeak { wobject : option addr; wcb : option blk }.

(** Where an object of type [T] lives: behind a raw pointer, or inside the
    [MakeSharedControlBlock] at the given address. *)
Inductive ObjLoc := Separate (p : addr) | Embedded (b : blk).

Global Instance Deleter_eq_dec : EqDecision Deleter.
Proof. solve_decision. Defined.
Global Instance Derived_eq_dec : EqDecision Derived.
Proof. solve_decision. Defined.
Global Instance BaseControlBlock_eq_dec : EqDecision BaseControlBlock.
Proof. solve_decision. Defined.
Global Instance SharedPtr_eq_dec : EqDecision SharedPtr.
Proof. solve_decision. Defined.
Global Instance WeakPtr_eq_dec : EqDecision WeakPtr.
Proof. solve_decision. Defined.
Global Instance ObjLoc_eq_dec : EqDecision ObjLoc.
Proof. solve_decision. Defined.
Global Instance ObjLoc_countable : Countable ObjLoc.
Proof.
  refine (inj_countable'
    (λ l, match l with Separate p => inl p | Embedded b => inr b end)
    (λ s, match s with inl p => Separate p | inr b => Embedded b end) _).
  by intros [].
Defined.

(** Calls of the allocator and of the two virtual functions, in order. *)
Inductive Event :=
  | Allocate (b : blk)
  | DestroyObject (b : blk)
  | DeallocateCb (b : blk).

Global Instance Event_eq_dec : EqDecision Event.
Proof. solve_decision. Defined.

(** The memory the library works on.  [heap] holds every control block ever
    allocated: [deallocate_cb] releases storage without erasing it, so a
    block read after its release still shows its last contents; the release
    itself is recorded in [trace].  [wptrs] holds the [wptr] member of the
    [EnableSharedFromThis<T>] base of each object; an absent entry is a
    default-constructed (empty) [WeakPtr]. *)
Record Mem := mkMem {
  heap : gmap blk BaseControlBlock;
  wptrs : gmap ObjLoc WeakPtr;
  trace : list Event;
  next_cb : blk
}.

Definition empty_mem : Mem := mkMem ∅ ∅ [] 1.

(** ** Computations over the memory

    [None] is an access through a null or wild pointer. *)

Definition M (A : Type) : Type := Mem → option (A * Mem).

Definition ret {A} (a : A) : M A := λ m, Some (a, m).
Definition bind {A B} (c : M A) (k : A → M B) : M B :=
  λ m, match c m with Some (a, m') => k a m' | None => None end.
Definition fault {A} : M A := λ _, None.

Declare Scope mem_scope.
Delimit Scope mem_scope with mem.
Notation "'let*' x := c 'in' k" := (bind c (λ x, k))
  (at level 10, x pattern, c at level 100, k at level 200) : mem_scope.
Notation "c ;;; k" := (bind c (λ _, k))
  (at level 100, k at level 200, right associativity) : mem_scope.
Local Open Scope mem_scope.

Definition read_cb (b : blk) : M BaseControlBlock :=
  λ m, match heap m !! b with Some c => Some (c, m) | None => None end.

Definition write_cb (b : blk) (c : BaseControlBlock) : M unit :=
  λ m, Some (tt, mkMem (<[b:=c]> (heap m)) (wptrs m) (trace m) (next_cb m)).

Definition emit (e : Event) : M unit :=
  λ m, Some (tt, mkMem (heap m) (wptrs m) (trace m ++ [e]) (next_cb m)).

Definition read_wptr (l : ObjLoc) : M WeakPtr :=
  λ m, Some (default (mkWeak None None) (wptrs m !! l), m).

Definition write_wptr (l : ObjLoc) (w : WeakPtr) : M unit :=
  λ m, Some (tt, mkMem (heap m) (<[l:=w]> (wptrs m)) (trace m) (next_cb m)).

Definition remove_wptr (l : ObjLoc) : M unit :=
  λ m, Some (tt, mkMem (heap m) (delete l (wptrs m)) (trace m) (next_cb m)).

(** Allocation and construction of a control block at a fresh address. *)
Definition allocate (c : BaseControlBlock) : M blk :=
  λ m, let b := next_cb m in
       Some (b, mkMem (<[b:=c]> (heap m)) (wptrs m)
                      (trace m ++ [Allocate b]) (b + 1)).

(** [++cb->shared_cnt], [--cb->shared_cnt], [++cb->weak_cnt],
    [--cb->weak_cnt]. *)
Definition incr_shared_cnt (b : blk) : M unit :=
  let* c := read_cb b in
  write_cb b (mkCb (pre_incr (shared_cnt c)) (weak_cnt c) (derived c)).

Definition decr_shared_cnt (b : blk) : M unit :=
  let* c := read_cb b in
  write_cb b (mkCb (pre_decr (shared_cnt c)) (weak_cnt c) (derived c)).

Definition incr_weak_cnt (b : blk) : M unit :=
  let* c := read_cb b in
  write_cb b (mkCb (shared_cnt c) (pre_incr (weak_cnt c)) (derived c)).

Definition decr_weak_cnt (b : blk) : M unit :=
  let* c := read_cb b in
  write_cb b (mkCb (shared_cnt c) (pre_decr (weak_cnt c)) (derived c)).

(** [deallocate_cb]: both overrides hand the block back to the allocator
    stored in it. *)
Definition deallocate_cb (b : blk) : M unit :=
  let* _ := read_cb b in emit (DeallocateCb b).

(** ** WeakPtr *)

Definition WeakPtr_ctor_default : WeakPtr := mkWeak None None.

(** [WeakPtr(const SharedPtr<T>& sp)] *)
Definition WeakPtr_ctor_shared (sp : SharedPtr) : M WeakPtr :=
  let this := mkWeak (object sp) (cb sp) in
  match wcb this with
  | Some b => incr_weak_cnt b
  | None => ret tt
  end;;;
  ret this.

(** [WeakPtr(const WeakPtr& wptr)] *)
Definition WeakPtr_ctor_copy (wptr : WeakPtr) : M WeakPtr :=
  let this := mkWeak (wobject wptr) (wcb wptr) in
  match wcb this with
  | Some b => incr_weak_cnt b
  | None => ret tt
  end;;;
  ret this.

(** [WeakPtr(WeakPtr&& wptr)]: the new handle and what is left of [wptr]. *)
Definition WeakPtr_ctor_move (wptr : WeakPtr) : WeakPtr * WeakPtr :=
  (mkWeak (wobject wptr) (wcb wptr), mkWeak None None).

Definition WeakPtr_swap (this other : WeakPtr) : WeakPtr * WeakPtr :=
  (mkWeak (wobject other) (wcb other), mkWeak (wobject this) (wcb this)).

Definition WeakPtr_clear (this : WeakPtr) : M unit :=
  match wcb this with
  | None => ret tt
  | Some b =>
      decr_weak_cnt b;;;
      let* c := read_cb b in
      if (shared_cnt c =? 0) && (weak_cnt c =? 0)
      then deallocate_cb b
      else ret tt
  end.

Definition WeakPtr_dtor (this : WeakPtr) : M unit := WeakPtr_clear this.

(** [operator=(const WeakPtr&)]; [same] is the test [this == &wptr]. *)
Definition WeakPtr_assign_copy (same : bool) (this wptr : WeakPtr)
  : M WeakPtr :=
  if same then ret this else
  let* copy := WeakPtr_ctor_copy wptr in
  let '(this', copy') := WeakPtr_swap this copy in
  WeakPtr_dtor copy';;;
  ret this'.

(** [operator=(WeakPtr&&)]: returns the new [*this] and what is left of
    [wptr].  When both are one object ([same]), [*this] is what the move
    constructor left behind. *)
Definition WeakPtr_assign_move (same : bool) (this wptr : WeakPtr)
  : M (WeakPtr * WeakPtr) :=
  let '(copy, wptr') := WeakPtr_ctor_move wptr in
  let this := if same then wptr' else this in
  let '(this', copy') := WeakPtr_swap this copy in
  WeakPtr_dtor copy';;;
  ret (this', if same then this' else wptr').

Definition WeakPtr_use_count (this : WeakPtr) : M N :=
  match wcb this with
  | None => ret 0
  | Some b => let* c := read_cb b in ret (shared_cnt c)
  end.

Definition WeakPtr_expired (this : WeakPtr) : M bool :=
  let* n := WeakPtr_use_count this in ret (n =? 0).

(** ** SharedPtr *)

Definition SharedPtr_ctor_default : SharedPtr := mkShared None None.

(** The body of the private [SharedPtr(WeakPtr<T> wptr)]. *)
Definition SharedPtr_ctor_weak (wptr : WeakPtr) : M SharedPtr :=
  let this := mkShared (wobject wptr) (wcb wptr) in
  match cb this with
  | Some b => incr_shared_cnt b
  | None => ret tt
  end;;;
  ret this.

(** [WeakPtr::lock].  The constructor takes its argument by value: the
    argument is copy-constructed from [*this] and destroyed after the
    constructor returns. *)
Definition WeakPtr_lock (this : WeakPtr) : M SharedPtr :=
  let* e := WeakPtr_expired this in
  if e then ret SharedPtr_ctor_default else
  let* arg := WeakPtr_ctor_copy this in
  let* r := SharedPtr_ctor_weak arg in
  WeakPtr_dtor arg;;;
  ret r.

Definition SharedPtr_swap (this other : SharedPtr) : SharedPtr * SharedPtr :=
  (mkShared (object other) (cb other), mkShared (object this) (cb this)).

Definition SharedPtr_get (this : SharedPtr) : option addr := object this.

(** [use_count] reads through [cb] unconditionally. *)
Definition SharedPtr_use_count (this : SharedPtr) : M N :=
  match cb this with
  | None => fault
  | Some b => let* c := read_cb b in ret (shared_cnt c)
  end.

(** [operator*] and [operator->]: the object the handle designates.  Without
    a direct pointer the block is taken to be a [MakeSharedControlBlock]. *)
Definition SharedPtr_deref (this : SharedPtr) : M ObjLoc :=
  match object this with
  | Some p => ret (Separate p)
  | None =>
      match cb this with
      | None => fault
      | Some b =>
          let* c := read_cb b in
          match derived c with
          | MakeSharedControlBlock => ret (Embedded b)
          | RegularControlBlock _ _ => fault
          end
      end
  end.

Section ObjectType.

(** [std::is_base_of_v<EnableSharedFromThis<T>, T>] for the object type
    [T] of the handles. *)
Variable is_base_of : bool.

(** [~T()]: the destructor of the [EnableSharedFromThis<T>] base destroys
    its member [wptr]. *)
Definition destroy_T (l : ObjLoc) : M unit :=
  if is_base_of then
    let* w := read_wptr l in
    remove_wptr l;;;
    WeakPtr_dtor w
  else ret tt.

(** [destroy_object], dispatched on the dynamic type of the block:
    [del(object)] or [ObjAllocTraits::destroy(obj_alloc, &object)]. *)
Definition destroy_object (b : blk) : M unit :=
  let* c := read_cb b in
  emit (DestroyObject b);;;
  match derived c with
  | RegularControlBlock (Some p) default_delete => destroy_T (Separate p)
  | RegularControlBlock _ _ => ret tt
  | MakeSharedControlBlock => destroy_T (Embedded b)
  end.

Definition SharedPtr_clear (this : SharedPtr) : M unit :=
  match cb this with
  | None => ret tt
  | Some b =>
      decr_shared_cnt b;;;
      let* c := read_cb b in
      if shared_cnt c =? 0 then
        destroy_object b;;;
        let* c' := read_cb b in
        if weak_cnt c' =? 0 then deallocate_cb b else ret tt
      else ret tt
  end.

Definition SharedPtr_dtor (this : SharedPtr) : M unit :=
  SharedPtr_clear this.

(** [object->wptr = *this] builds a temporary [WeakPtr] from [*this],
    move-assigns it to the member and destroys what is left of it.  The
    source declares [wptr] private in [EnableSharedFromThis] and names no
    friend; the member written here is taken to be the one that
    [shared_from_this] reads, which is what the two functions are written
    for. *)
Definition update_enable_shared_from_this (this : SharedPtr) : M unit :=
  match cb this with
  | None => ret tt
  | Some b =>
      if is_base_of then
        let* l :=
          match object this with
          | Some p => ret (Separate p)
          | None =>
              let* c := read_cb b in
              match derived c with
              | MakeSharedControlBlock => ret (Embedded b)
              | RegularControlBlock _ _ => fault
              end
          end in
        let* tmp := WeakPtr_ctor_shared this in
        let* old := read_wptr l in
        let* (new, tmp') := WeakPtr_assign_move false old tmp in
        write_wptr l new;;;
        WeakPtr_dtor tmp'
      else ret tt
  end.

(** [SharedPtr(T* ptr, const Deleter& del, Alloc alloc)]: [cb] still has
    its default member initialiser when the constructor body starts. *)
Definition SharedPtr_ctor_ptr (ptr : option addr) (del : Deleter)
  : M SharedPtr :=
  let this := mkShared ptr None in
  update_enable_shared_from_this this;;;
  let* regular_cb := allocate (mkCb 1 0 (RegularControlBlock ptr del)) in
  ret (mkShared (object this) (Some regular_cb)).

(** [SharedPtr(const SharedPtr& shptr)] *)
Definition SharedPtr_ctor_copy (shptr : SharedPtr) : M SharedPtr :=
  let this := mkShared (object shptr) (cb shptr) in
  update_enable_shared_from_this this;;;
  match cb this with
  | Some b => incr_shared_cnt b
  | None => ret tt
  end;;;
  ret this.

(** The body of the constrained template [SharedPtr(SharedPtr<Y>&& shptr)]:
    the new handle and what is left of [shptr]. *)
Definition SharedPtr_ctor_move (shptr : SharedPtr)
  : M (SharedPtr * SharedPtr) :=
  let this := mkShared (object shptr) (cb shptr) in
  update_enable_shared_from_this this;;;
  ret (this, mkShared None None).

(** [std::is_convertible_v<T, T>] for the object type [T], the constraint of
    that template at [Y = T]. *)
Variable is_convertible : bool.

(** Construction of a [SharedPtr<T>] from an rvalue [SharedPtr<T>]: the new
    handle and what is left of [shptr].  The class declares no
    [SharedPtr(SharedPtr&&)]; overload resolution takes the constrained
    template when its constraint holds and the copy constructor, which
    leaves [shptr] as it is, when it does not. *)
Definition SharedPtr_ctor_rvalue (shptr : SharedPtr)
  : M (SharedPtr * SharedPtr) :=
  if is_convertible then SharedPtr_ctor_move shptr
  else
    let* this := SharedPtr_ctor_copy shptr in
    ret (this, shptr).

(** The private [SharedPtr(MakeSharedControlBlock<T, Alloc>* make_shared_cb)]. *)
Definition SharedPtr_ctor_make_shared_cb (make_shared_cb : blk)
  : M SharedPtr :=
  let this := mkShared None (Some make_shared_cb) in
  update_enable_shared_from_this this;;;
  ret this.

(** [operator=(const SharedPtr&)]; [same] is the test [this == &shptr]. *)
Definition SharedPtr_assign_copy (same : bool) (this shptr : SharedPtr)
  : M SharedPtr :=
  if same then ret this else
  let* copy := SharedPtr_ctor_copy shptr in
  let '(this', copy') := SharedPtr_swap this copy in
  SharedPtr_dtor copy';;;
  ret this'.

(** [operator=(SharedPtr&&)]: the new [*this] and what is left of
    [shptr]; [same] says that both are one object.  [copy] is constructed
    from the rvalue [std::move(shptr)]. *)
Definition SharedPtr_assign_move (same : bool) (this shptr : SharedPtr)
  : M (SharedPtr * SharedPtr) :=
  let* (copy, shptr') := SharedPtr_ctor_rvalue shptr in
  let this := if same then shptr' else this in
  let '(this', copy') := SharedPtr_swap this copy in
  SharedPtr_dtor copy';;;
  ret (this', if same then this' else shptr').

(** [reset()] *)
Definition SharedPtr_reset (this : SharedPtr) : M SharedPtr :=
  let '(tmp', this') := SharedPtr_swap SharedPtr_ctor_default this in
  SharedPtr_dtor tmp';;;
  ret this'.

(** [reset(Y* ptr, Deleter del, Alloc alloc)] *)
Definition SharedPtr_reset_ptr (this : SharedPtr) (ptr : option addr)
    (del : Deleter) : M SharedPtr :=
  let* tmp := SharedPtr_ctor_ptr ptr del in
  let '(tmp', this') := SharedPtr_swap tmp this in
  SharedPtr_dtor tmp';;;
  ret this'.

(** [makeShared<T>(args...)] *)
Definition makeShared : M SharedPtr :=
  let* cb := allocate (mkCb 1 0 MakeSharedControlBlock) in
  SharedPtr_ctor_make_shared_cb cb.

(** [EnableSharedFromThis<T>::shared_from_this] of the object at [l]. *)
Definition shared_from_this (l : ObjLoc) : M SharedPtr :=
  let* wptr := read_wptr l in
  WeakPtr_lock wptr.

End ObjectType.

(** ** Programs over named handles

    A program is a sequence of declarations, assignments and ends of
    lifetime of handle variables.  [shared] and [weak] hold the handles that
    are alive; a statement that names a variable that is not alive, or
    declares one that is, has no meaning ([None]). *)

Record State := mkState {
  mem : Mem;
  shared : gmap string SharedPtr;
  weak : gmap string WeakPtr
}.

Definition init : State := mkState empty_mem ∅ ∅.

Inductive Cmd :=
  | SharedDefault (x : string)
  | SharedFromPtr (x : string) (ptr : option addr) (del : Deleter)
  | MakeShared (x : string)
  | SharedCopy (x y : string)
  | SharedMove (x y : string)
  | SharedAssign (x y : string)
  | SharedMoveAssign (x y : string)
  | SharedReset (x : string)
  | SharedResetPtr (x : string) (ptr : option addr) (del : Deleter)
  | SharedSwap (x y : string)
  | SharedDestroy (x : string)
  | WeakDefault (w : string)
  | WeakFromShared (w x : string)
  | WeakCopy (w v : string)
  | WeakMove (w v : string)
  | WeakAssign (w v : string)
  | WeakMoveAssign (w v : string)
  | WeakDestroy (w : string)
  | Lock (x w : string)
  | SharedFromThis (x : string) (l : ObjLoc).

Section Programs.

Variable is_base_of : bool.
Variable is_convertible : bool.

Definition declare_shared (x : string) (c : M SharedPtr) (s : State)
  : option State :=
  match shared s !! x with
  | Some _ => None
  | None =>
      match c (mem s) with
      | Some (h, m) => Some (mkState m (<[x:=h]> (shared s)) (weak s))
      | None => None
      end
  end.

Definition declare_weak (w : string) (c : M WeakPtr) (s : State)
  : option State :=
  match weak s !! w with
  | Some _ => None
  | None =>
      match c (mem s) with
      | Some (h, m) => Some (mkState m (shared s) (<[w:=h]> (weak s)))
      | None => None
      end
  end.

Definition exec (c : Cmd) (s : State) : option State :=
  match c with
  | SharedDefault x => declare_shared x (ret SharedPtr_ctor_default) s
  | SharedFromPtr x ptr del =>
      declare_shared x (SharedPtr_ctor_ptr is_base_of ptr del) s
  | MakeShared x => declare_shared x (makeShared is_base_of) s
  | SharedCopy x y =>
      match shared s !! y with
      | Some hy => declare_shared x (SharedPtr_ctor_copy is_base_of hy) s
      | None => None
      end
  | SharedMove x y =>
      match shared s !! x, shared s !! y with
      | None, Some hy =>
          match SharedPtr_ctor_rvalue is_base_of is_convertible hy (mem s)
          with
          | Some ((hx, hy'), m) =>
              Some (mkState m (<[x:=hx]> (<[y:=hy']> (shared s))) (weak s))
          | None => None
          end
      | _, _ => None
      end
  | SharedAssign x y =>
      match shared s !! x, shared s !! y with
      | Some hx, Some hy =>
          match SharedPtr_assign_copy is_base_of (bool_decide (x = y))
                  hx hy (mem s) with
          | Some (hx', m) =>
              Some (mkState m (<[x:=hx']> (shared s)) (weak s))
          | None => None
          end
      | _, _ => None
      end
  | SharedMoveAssign x y =>
      match shared s !! x, shared s !! y with
      | Some hx, Some hy =>
          match SharedPtr_assign_move is_base_of is_convertible
                  (bool_decide (x = y)) hx hy (mem s) with
          | Some ((hx', hy'), m) =>
              Some (mkState m (<[x:=hx']> (<[y:=hy']> (shared s))) (weak s))
          | None => None
          end
      | _, _ => None
      end
  | SharedReset x =>
      match shared s !! x with
      | Some hx =>
          match SharedPtr_reset is_base_of hx (mem s) with
          | Some (hx', m) =>
              Some (mkState m (<[x:=hx']> (shared s)) (weak s))
          | None => None
          end
      | None => None
      end
  | SharedResetPtr x ptr del =>
      match shared s !! x with
      | Some hx =>
          match SharedPtr_reset_ptr is_base_of hx ptr del (mem s) with
          | Some (hx', m) =>
              Some (mkState m (<[x:=hx']> (shared s)) (weak s))
          | None => None
          end
      | None => None
      end
  | SharedSwap x y =>
      match shared s !! x, shared s !! y with
      | Some hx, Some hy =>
          let '(hx', hy') := SharedPtr_swap hx hy in
          Some (mkState (mem s) (<[x:=hx']> (<[y:=hy']> (shared s)))
                  (weak s))
      | _, _ => None
      end
  | SharedDestroy x =>
      match shared s !! x with
      | Some hx =>
          match SharedPtr_dtor is_base_of hx (mem s) with
          | Some (_, m) => Some (mkState m (delete x (shared s)) (weak s))
          | None => None
          end
      | None => None
      end
  | WeakDefault w => declare_weak w (ret WeakPtr_ctor_default) s
  | WeakFromShared w x =>
      match shared s !! x with
      | Some hx => declare_weak w (WeakPtr_ctor_shared hx) s
      | None => None
      end
  | WeakCopy w v =>
      match weak s !! v with
      | Some hv => declare_weak w (WeakPtr_ctor_copy hv) s
      | None => None
      end
  | WeakMove w v =>
      match weak s !! w, weak s !! v with
      | None, Some hv =>
          let '(hw, hv') := WeakPtr_ctor_move hv in
          Some (mkState (mem s) (shared s) (<[w:=hw]> (<[v:=hv']> (weak s))))
      | _, _ => None
      end
  | WeakAssign w v =>
      match weak s !! w, weak s !! v with
      | Some hw, Some hv =>
          match WeakPtr_assign_copy (bool_decide (w = v)) hw hv (mem s) with
          | Some (hw', m) =>
              Some (mkState m (shared s) (<[w:=hw']> (weak s)))
          | None => None
          end
      | _, _ => None
      end
  | WeakMoveAssign w v =>
      match weak s !! w, weak s !! v with
      | Some hw, Some hv =>
          match WeakPtr_assign_move (bool_decide (w = v)) hw hv (mem s) with
          | Some ((hw', hv'), m) =>
              Some (mkState m (shared s) (<[w:=hw']> (<[v:=hv']> (weak s))))
          | None => None
          end
      | _, _ => None
      end
  | WeakDestroy w =>
      match weak s !! w with
      | Some hw =>
          match WeakPtr_dtor hw (mem s) with
          | Some (_, m) => Some (mkState m (shared s) (delete w (weak s)))
          | None => None
          end
      | None => None
      end
  | Lock x w =>
      match weak s !! w with
      | Some hw => declare_shared x (WeakPtr_lock hw) s
      | None => None
      end
  | SharedFromThis x l => declare_shared x (shared_from_this l) s
  end.

Fixpoint run (cmds : list Cmd) (s : State) : option State :=
  match cmds with
  | [] => Some s
  | c :: cmds' =>
      match exec c s with
      | Some s' => run cmds' s'
      | None => None
      end
  end.

End Programs.

(** Queries on a live handle. *)
Definition use_count_of (s : State) (x : string) : option N :=
  match shared s !! x with
  | Some h => fst <$> SharedPtr_use_count h (mem s)
  | None => None
  end.

Definition weak_use_count_of (s : State) (w : string) : option N :=
  match weak s !! w with
  | Some h => fst <$> WeakPtr_use_count h (mem s)
  | None => None
  end.

Definition expired_of (s : State) (w : string) : option bool :=
  match weak s !! w with
  | Some h => fst <$> WeakPtr_expired h (mem s)
  | None => None
  end.

(** The counters of a block, as a pair (shared, weak). *)
Definition counts (m : Mem) (b : blk) : option (N * N) :=
  (λ c, (shared_cnt c, weak_cnt c)) <$> heap m !! b.

(** ** Counting the handles that reference a block *)

Definition one (ob : option blk) (b : blk) : nat :=
  if decide (ob = Some b) then 1%nat else 0%nat.

Definition refs {K A} `{Countable K} (get : A → option blk) (m : gmap K A)
    (b : blk) : nat :=
  sum_list_with (λ kv, one (get kv.2) b) (map_to_list m).

(** Live strong handles, and live weak handles (variables and [wptr]
    members), that reference block [b]. *)
Definition strong_refs (s : State) (b : blk) : nat := refs cb (shared s) b.
Definition weak_refs (s : State) (b : blk) : nat :=
  (refs wcb (weak s) b + refs wcb (wptrs (mem s)) b)%nat.

(** ** Traces *)

Definition event_block (e : Event) : blk :=
  match e with Allocate b | DestroyObject b | DeallocateCb b => b end.

Definition occ (e : Event) (t : list Event) : nat :=
  count_occ Event_eq_dec t e.

(** Every release of a block comes after the destruction of its object. *)
Definition ordered (t : list Event) : Prop :=
  ∀ pre post b, t = pre ++ DeallocateCb b :: post → In (DestroyObject b) pre.

(** ** Invariants

    [cs b] and [cw b] are the numbers of strong and weak handles in
    existence that reference [b]; [n] bounds them. *)

Record CountInv (n : nat) (cs cw : blk → nat) (m : Mem) : Prop := {
  ci_bound : N.of_nat n ≤ SIZE_MAX;
  ci_le : ∀ b, (cs b ≤ n)%nat ∧ (cw b ≤ n)%nat;
  ci_counts : ∀ b c, heap m !! b = Some c →
    shared_cnt c = N.of_nat (cs b) ∧ weak_cnt c = N.of_nat (cw b);
  ci_valid : ∀ b, heap m !! b = None → cs b = 0%nat ∧ cw b = 0%nat;
  ci_fresh : ∀ b, is_Some (heap m !! b) → b < next_cb m
}.

(** How often [destroy_object] and [deallocate_cb] are due on a block with
    the given counters: once when [shared_cnt] has come down to 0, and once
    when both counters have. *)
Definition destroy_due (c : BaseControlBlock) : nat :=
  if shared_cnt c =? 0 then 1%nat else 0%nat.
Definition dealloc_due (c : BaseControlBlock) : nat :=
  if (shared_cnt c =? 0) && (weak_cnt c =? 0) then 1%nat else 0%nat.

Record TraceInv (m : Mem) : Prop := {
  ti_destroy : ∀ b c, heap m !! b = Some c →
    occ (DestroyObject b) (trace m) = destroy_due c;
  ti_dealloc : ∀ b c, heap m !! b = Some c →
    occ (DeallocateCb b) (trace m) = dealloc_due c;
  ti_alloc : ∀ b c, heap m !! b = Some c →
    occ (Allocate b) (trace m) = 1%nat;
  ti_known : ∀ e, In e (trace m) → is_Some (heap m !! event_block e);
  ti_ordered : ordered (trace m)
}.

(** The part of [TraceInv] that every object type keeps: [destroy_object]
    has been called on a block once if its [shared_cnt] is 0 and never
    otherwise. *)
Record DestroyInv (m : Mem) : Prop := {
  di_destroy : ∀ b c, heap m !! b = Some c →
    occ (DestroyObject b) (trace m) = destroy_due c;
  di_known : ∀ b, In (DestroyObject b) (trace m) → is_Some (heap m !! b)
}.

Definition BaseInv (n : nat) (cs cw : blk → nat) (m : Mem) : Prop :=
  CountInv n cs cw m ∧ DestroyInv m.

(** The whole of [TraceInv] is claimed for object types without
    [EnableSharedFromThis] only. *)
Definition InvC (is_base_of : bool) (n : nat) (cs cw : blk → nat) (m : Mem)
  : Prop :=
  CountInv n cs cw m ∧ (is_base_of = false → TraceInv m) ∧ DestroyInv m.

Definition Inv (is_base_of : bool) (n : nat) (s : State) : Prop :=
  InvC is_base_of n (strong_refs s) (weak_refs s) (mem s).

(** ** What [SharedPtr::clear] records *)

(** The calls [SharedPtr::clear] makes on block [b] once it has written the
    decremented counter, leaving the block as [c']. *)
Definition clear_events (b : blk) (c' : BaseControlBlock) : list Event :=
  if shared_cnt c' =? 0 then
    DestroyObject b :: (if weak_cnt c' =? 0 then [DeallocateCb b] else [])
  else [].

(** ** Frame properties of computations *)

(** The computation leaves every [wptr] member alone. *)
Definition keeps_wptrs {A} (c : M A) : Prop :=
  ∀ m r m', c m = Some (r, m') → wptrs m' = wptrs m.

(** The computation never calls [destroy_object]. *)
Definition keeps_destroys {A} (c : M A) : Prop :=
  ∀ m r m' b, c m = Some (r, m') →
    occ (DestroyObject b) (trace m') = occ (DestroyObject b) (trace m).

(** Statements on weak handles. *)
Definition weak_statement (c : Cmd) : bool :=
  match c with
  | WeakDefault _ | WeakFromShared _ _ | WeakCopy _ _ | WeakMove _ _
  | WeakAssign _ _ | WeakMoveAssign _ _ | WeakDestroy _ | Lock _ _ => true
  | _ => false
  end.

(** The memory with block [b] rewritten to [c]. *)
Definition set_cb (m : Mem) (b : blk) (c : BaseControlBlock) : Mem :=
  mkMem (<[b:=c]> (heap m)) (wptrs m) (trace m) (next_cb m).

(** The address the allocator returns next is unused: no block lives there,
    the object that will live there has a default-constructed [wptr], and
    nothing was destroyed there. *)
Definition Fresh (m : Mem) : Prop :=
  heap m !! next_cb m = None ∧
  wptrs m !! Embedded (next_cb m) = None ∧
  ¬ In (DestroyObject (next_cb m)) (trace m).

(** Blocks, [wptr] members of embedded objects and recorded calls are all at
    addresses the allocator has handed out. *)
Definition WF (m : Mem) : Prop :=
  (∀ b, is_Some (heap m !! b) → b < next_cb m) ∧
  (∀ b, is_Some (wptrs m !! Embedded b) → b < next_cb m) ∧
  (∀ ev, In ev (trace m) → event_block ev < next_cb m).

(** The computation keeps the memory well formed and never takes an address
    back. *)
Definition keeps_wf {A} (c : M A) : Prop :=
  ∀ m r m', WF m → c m = Some (r, m') → WF m' ∧ next_cb m ≤ next_cb m'.

(** ** Example programs *)

(** A block shared by two strong handles and observed by a weak one. *)
Definition sharing_program : list Cmd :=
  [MakeShared "A"; SharedCopy "B" "A"; WeakFromShared "W" "B"].

Definition sharing_state : State :=
  default init (run false true sharing_program init).

(** The scenario of the specification, and what is observed of block 1
    after a program. *)
Definition scenario : list Cmd :=
  [MakeShared "A"; SharedCopy "B" "A"; SharedDestroy "A";
   WeakFromShared "W" "B"; SharedDestroy "B"; WeakDestroy "W"].

Definition observe (e cv : bool) (cmds : list Cmd)
  : option (option (N * N) * list Event) :=
  (λ s, (counts (mem s) 1, trace (mem s))) <$> run e cv cmds init.


(** A block with one strong handle and two weak ones. *)
Definition observing_program : list Cmd :=
  [MakeShared "A"; WeakFromShared "W" "A"; WeakCopy "V" "W"].

Definition observing_state : State :=
  default init (run false true observing_program init).

(** ** Statements that use their names properly

    A statement declares a name that is not alive and otherwise uses names
    that are. *)
Definition alive {A} (m : gmap string A) (x : string) : bool :=
  match m !! x with Some _ => true | None => false end.

Definition well_named (c : Cmd) (s : State) : bool :=
  match c with
  | SharedDefault x | SharedFromPtr x _ _ | MakeShared x
  | SharedFromThis x _ => negb (alive (shared s) x)
  | SharedCopy x y | SharedMove x y =>
      negb (alive (shared s) x) && alive (shared s) y
  | SharedAssign x y | SharedMoveAssign x y | SharedSwap x y =>
      alive (shared s) x && alive (shared s) y
  | SharedReset x | SharedResetPtr x _ _ | SharedDestroy x =>
      alive (shared s) x
  | WeakDefault w => negb (alive (weak s) w)
  | WeakFromShared w x => negb (alive (weak s) w) && alive (shared s) x
  | WeakCopy w v | WeakMove w v =>
      negb (alive (weak s) w) && alive (weak s) v
  | WeakAssign w v | WeakMoveAssign w v =>
      alive (weak s) w && alive (weak s) v
  | WeakDestroy w => alive (weak s) w
  | Lock x w => negb (alive (shared s) x) && alive (weak s) w
  end.

(** The computation only adds to the record of calls. *)
Definition grows_trace {A} (c : M A) : Prop :=
  ∀ m r m', c m = Some (r, m') → ∃ evs, trace m' = trace m ++ evs.

(** * Proofs *)

(** ** Arithmetic of the counters *)

Global Arguments pre_incr : simpl never.
Global Arguments pre_decr : simpl never.
Global Arguments SharedPtr_ctor_rvalue : simpl never.

Lemma pre_incr_small n : n < SIZE_MAX → pre_incr n = n + 1.
Proof. intros H. unfold pre_incr. apply N.mod_small. lia. Qed.

Lemma pre_decr_pos n : 0 < n → n ≤ SIZE_MAX → pre_decr n = n - 1.
Proof.
  intros H1 H2. unfold pre_decr.
  replace (n + SIZE_MAX) with ((n - 1) + 1 * (SIZE_MAX + 1)) by lia.
  rewrite N.Div0.mod_add. apply N.mod_small. lia.
Qed.

Lemma pre_incr_le n : pre_incr n ≤ SIZE_MAX.
Proof.
  unfold pre_incr.
  assert (H : (n + 1) mod (SIZE_MAX + 1) < SIZE_MAX + 1)
    by (apply N.mod_lt; unfold SIZE_MAX; lia).
  lia.
Qed.

Lemma pre_decr_le n : pre_decr n ≤ SIZE_MAX.
Proof.
  unfold pre_decr.
  assert (H : (n + SIZE_MAX) mod (SIZE_MAX + 1) < SIZE_MAX + 1)
    by (apply N.mod_lt; unfold SIZE_MAX; lia).
  lia.
Qed.

Lemma pre_decr_incr n : n ≤ SIZE_MAX → pre_decr (pre_incr n) = n.
Proof.
  intros H. destruct (N.eq_dec n SIZE_MAX) as [->|Hne].
  - reflexivity.
  - rewrite pre_incr_small by lia. rewrite pre_decr_pos by lia. lia.
Qed.

Lemma pre_decr_zero n : n ≤ SIZE_MAX → (pre_decr n = 0 ↔ n = 1).
Proof.
  intros H. destruct (N.eq_dec n 0) as [->|Hne].
  - split; [intros H0; vm_compute in H0; discriminate | intros H0; lia].
  - rewrite pre_decr_pos by lia. lia.
Qed.

(** ** Computations *)

Lemma bind_Some {A B} (c : M A) (k : A → M B) m r m'' :
  bind c k m = Some (r, m'') ↔
  ∃ a m', c m = Some (a, m') ∧ k a m' = Some (r, m'').
Proof.
  unfold bind. split.
  - destruct (c m) as [[a m']|]; [eauto | discriminate].
  - intros (a & m' & -> & H). exact H.
Qed.

Lemma ret_Some {A} (a r : A) m m' :
  ret a m = Some (r, m') ↔ r = a ∧ m' = m.
Proof. unfold ret. split; [intros [= <- <-] | intros [-> ->]]; done. Qed.

Lemma read_cb_Some b m c m' :
  read_cb b m = Some (c, m') ↔ heap m !! b = Some c ∧ m' = m.
Proof.
  unfold read_cb. destruct (heap m !! b) as [c0|]; split.
  - intros [= <- <-]. done.
  - intros [[= <-] ->]. done.
  - discriminate.
  - intros [[=] _].
Qed.

(** Decompose a successful computation into its steps. *)
Ltac minv H :=
  lazymatch type of H with
  | bind _ _ _ = Some _ =>
      let a := fresh "a" in let m := fresh "m" in
      let H1 := fresh "Hstep" in
      apply bind_Some in H as (a & m & H1 & H); minv H1; minv H
  | ret _ _ = Some _ => apply ret_Some in H as [? ?]; subst
  | read_cb _ _ = Some _ => apply read_cb_Some in H as [H ?]; subst
  | fault _ = Some _ => discriminate H
  | _ => idtac
  end.

(** ** Counting lemmas *)

Section Refs.
Context {K A : Type} `{Countable K} (get : A → option blk).

Lemma refs_empty b : refs get (∅ : gmap K A) b = 0%nat.
Proof. unfold refs. by rewrite map_to_list_empty. Qed.

Lemma refs_delete (m : gmap K A) k b :
  (refs get (delete k m) b + from_option (λ o, one (get o) b) 0 (m !! k)
   = refs get m b)%nat.
Proof.
  unfold refs. destruct (m !! k) as [o|] eqn:Hk; simpl.
  - rewrite <- (map_to_list_delete m k o Hk). simpl. lia.
  - rewrite delete_id by done. lia.
Qed.

Lemma refs_insert (m : gmap K A) k v b :
  (refs get (<[k:=v]> m) b + from_option (λ o, one (get o) b) 0 (m !! k)
   = refs get m b + one (get v) b)%nat.
Proof.
  rewrite <- (refs_delete m k b).
  rewrite <- (insert_delete_eq m k v).
  unfold refs at 1.
  rewrite map_to_list_insert by apply lookup_delete_eq.
  simpl. fold (refs get (delete k m) b). lia.
Qed.

Lemma refs_lookup (m : gmap K A) k v b :
  m !! k = Some v → get v = Some b → (0 < refs get m b)%nat.
Proof.
  intros Hk Hb. pose proof (refs_delete m k b) as Hd.
  rewrite Hk in Hd. simpl in Hd. unfold one in Hd.
  rewrite decide_True in Hd by done. lia.
Qed.
End Refs.

(** ** Invariants under the elementary steps *)

Lemma one_None b : one None b = 0%nat.
Proof. reflexivity. Qed.

Lemma one_Some_eq b : one (Some b) b = 1%nat.
Proof. unfold one. by rewrite decide_True. Qed.

Lemma one_Some_ne b b' : b ≠ b' → one (Some b) b' = 0%nat.
Proof. intros. unfold one. rewrite decide_False; congruence. Qed.

Lemma one_le ob b : (one ob b ≤ 1)%nat.
Proof. unfold one. case_decide; lia. Qed.

Global Arguments occ : simpl never.

Lemma occ_app e t1 t2 : occ e (t1 ++ t2) = (occ e t1 + occ e t2)%nat.
Proof. apply count_occ_app. Qed.

Lemma occ_pos e t : (0 < occ e t)%nat → In e t.
Proof. intros. by apply (count_occ_In Event_eq_dec). Qed.

Lemma occ_single e e' :
  occ e [e'] = if decide (e' = e) then 1%nat else 0%nat.
Proof.
  unfold occ. simpl. destruct (Event_eq_dec e' e); case_decide; congruence.
Qed.

Lemma ordered_snoc t e :
  ordered t →
  (∀ b, e = DeallocateCb b → In (DestroyObject b) t) →
  ordered (t ++ [e]).
Proof.
  intros Ht He pre post b Heq.
  destruct post as [|e' post'] using rev_ind.
  - apply app_inj_tail in Heq as [-> Heq]. by apply He.
  - clear IHpost'.
    rewrite app_comm_cons, app_assoc in Heq.
    apply app_inj_tail in Heq as [Heq _].
    by apply (Ht pre post' b).
Qed.

Lemma CountInv_ext n n' cs cw cs' cw' m m' :
  CountInv n cs cw m →
  (∀ b, cs' b = cs b) → (∀ b, cw' b = cw b) →
  (n ≤ n')%nat → N.of_nat n' ≤ SIZE_MAX →
  heap m' = heap m → next_cb m' = next_cb m →
  CountInv n' cs' cw' m'.
Proof.
  intros [Hb Hle Hc Hv Hf] Hs Hw Hn Hn' Hh Hx.
  split; [done | ..]; intros b; rewrite ?Hh, ?Hx, ?Hs, ?Hw; auto.
  specialize (Hle b). lia.
Qed.

Lemma TraceInv_ext m m' :
  TraceInv m → heap m' = heap m → trace m' = trace m → TraceInv m'.
Proof.
  intros [H1 H2 H3 H4 H5] Hh Ht.
  split; rewrite ?Hh, ?Ht; auto.
Qed.

Lemma DestroyInv_ext m m' :
  DestroyInv m → heap m' = heap m → trace m' = trace m → DestroyInv m'.
Proof.
  intros [H1 H2] Hh Ht.
  split; rewrite ?Hh, ?Ht; auto.
Qed.

Lemma InvC_ext e n n' cs cw cs' cw' m m' :
  InvC e n cs cw m →
  (∀ b, cs' b = cs b) → (∀ b, cw' b = cw b) →
  (n ≤ n')%nat → N.of_nat n' ≤ SIZE_MAX →
  heap m' = heap m → next_cb m' = next_cb m → trace m' = trace m →
  InvC e n' cs' cw' m'.
Proof.
  intros (HC & HT & HD) **. split; [|split].
  - eapply CountInv_ext; eauto.
  - intros He. eapply TraceInv_ext; eauto.
  - eapply DestroyInv_ext; eauto.
Qed.

(** A block is rewritten in place. *)
Lemma CountInv_update n n' cs cw cs' cw' m b c c' wp tr :
  CountInv n cs cw m →
  heap m !! b = Some c →
  (n ≤ n')%nat → N.of_nat n' ≤ SIZE_MAX →
  (∀ x, x ≠ b → cs' x = cs x ∧ cw' x = cw x) →
  (cs' b ≤ n')%nat → (cw' b ≤ n')%nat →
  shared_cnt c' = N.of_nat (cs' b) → weak_cnt c' = N.of_nat (cw' b) →
  CountInv n' cs' cw' (mkMem (<[b:=c']> (heap m)) wp tr (next_cb m)).
Proof.
  intros [Hb Hle Hc Hv Hf] Hlk Hn Hn' Hother Hsb Hwb Hs Hw.
  split; simpl; [done | ..].
  - intros x. destruct (decide (x = b)) as [->|Hne]; [done|].
    destruct (Hother x Hne) as [-> ->]. specialize (Hle x). lia.
  - intros x cx. destruct (decide (x = b)) as [->|Hne].
    + rewrite lookup_insert_eq. intros [= <-]. done.
    + rewrite lookup_insert_ne by done. intros Hx.
      destruct (Hother x Hne) as [-> ->]. by apply Hc.
  - intros x. destruct (decide (x = b)) as [->|Hne].
    + rewrite lookup_insert_eq. discriminate.
    + rewrite lookup_insert_ne by done. intros Hx.
      destruct (Hother x Hne) as [-> ->]. by apply Hv.
  - intros x. destruct (decide (x = b)) as [->|Hne].
    + intros _. apply Hf. eauto.
    + rewrite lookup_insert_ne by done. apply Hf.
Qed.

(** A block is rewritten in place and calls on it are recorded. *)
Lemma TraceInv_step m b c c' evs wp nx :
  TraceInv m →
  heap m !! b = Some c →
  (∀ e, In e evs → e = DestroyObject b ∨ e = DeallocateCb b) →
  (occ (DestroyObject b) evs + destroy_due c = destroy_due c')%nat →
  (occ (DeallocateCb b) evs + dealloc_due c = dealloc_due c')%nat →
  ordered (trace m ++ evs) →
  TraceInv (mkMem (<[b:=c']> (heap m)) wp (trace m ++ evs) nx).
Proof.
  intros [H1 H2 H3 H4 H5] Hlk Hevs Hd Hr Ho.
  assert (Hnone : ∀ e, event_block e ≠ b ∨ e = Allocate b → occ e evs = 0%nat).
  { intros e He. apply count_occ_not_In. intros Hin.
    destruct (Hevs e Hin) as [-> | ->]; destruct He; simpl in *; congruence. }
  split; simpl.
  - intros x cx. rewrite occ_app. destruct (decide (x = b)) as [->|Hne].
    + rewrite lookup_insert_eq. intros [= <-].
      rewrite (H1 b c Hlk). lia.
    + rewrite lookup_insert_ne by done. intros Hx.
      rewrite (H1 x cx Hx), Hnone; [lia | left; simpl; congruence].
  - intros x cx. rewrite occ_app. destruct (decide (x = b)) as [->|Hne].
    + rewrite lookup_insert_eq. intros [= <-].
      rewrite (H2 b c Hlk). lia.
    + rewrite lookup_insert_ne by done. intros Hx.
      rewrite (H2 x cx Hx), Hnone; [lia | left; simpl; congruence].
  - intros x cx. rewrite occ_app. destruct (decide (x = b)) as [->|Hne].
    + rewrite lookup_insert_eq. intros _.
      rewrite (H3 b c Hlk), Hnone; [lia | by right].
    + rewrite lookup_insert_ne by done. intros Hx.
      rewrite (H3 x cx Hx), Hnone; [lia | left; simpl; congruence].
  - intros e [Hin|Hin]%in_app_iff.
    + destruct (decide (event_block e = b)) as [->|Hne].
      * rewrite lookup_insert_eq. eauto.
      * rewrite lookup_insert_ne by done. by apply H4.
    + assert (event_block e = b) as ->
        by (destruct (Hevs e Hin) as [-> | ->]; done).
      rewrite lookup_insert_eq. eauto.
  - done.
Qed.

Lemma DestroyInv_step m b c c' evs wp nx :
  DestroyInv m →
  heap m !! b = Some c →
  (∀ x, In (DestroyObject x) evs → x = b) →
  (occ (DestroyObject b) evs + destroy_due c = destroy_due c')%nat →
  DestroyInv (mkMem (<[b:=c']> (heap m)) wp (trace m ++ evs) nx).
Proof.
  intros [H1 H2] Hlk Hevs Hd. split; simpl.
  - intros x cx. rewrite occ_app. destruct (decide (x = b)) as [->|Hne].
    + rewrite lookup_insert_eq. intros [= <-].
      rewrite (H1 b c Hlk). lia.
    + rewrite lookup_insert_ne by done. intros Hx.
      rewrite (H1 x cx Hx).
      assert (occ (DestroyObject x) evs = 0%nat) as ->; [|lia].
      apply count_occ_not_In. intros Hin. by apply Hevs in Hin.
  - intros x [Hin|Hin]%in_app_iff.
    + destruct (decide (x = b)) as [->|Hne].
      * rewrite lookup_insert_eq. eauto.
      * rewrite lookup_insert_ne by done. by apply H2.
    + apply Hevs in Hin as ->. rewrite lookup_insert_eq. eauto.
Qed.

(** Calls other than [destroy_object] are recorded. *)
Lemma DestroyInv_frame m wp evs nx :
  DestroyInv m →
  (∀ x, ¬ In (DestroyObject x) evs) →
  DestroyInv (mkMem (heap m) wp (trace m ++ evs) nx).
Proof.
  intros [H1 H2] Hevs. split; simpl.
  - intros x cx Hx. rewrite occ_app, (H1 x cx Hx).
    assert (occ (DestroyObject x) evs = 0%nat) as ->; [|lia].
    apply count_occ_not_In. apply Hevs.
  - intros x [Hin|Hin]%in_app_iff; [by apply H2 | by apply Hevs in Hin].
Qed.

Lemma occ_nil e : occ e [] = 0%nat.
Proof. reflexivity. Qed.

Ltac due :=
  rewrite ?occ_nil;
  unfold destroy_due, dealloc_due; cbn [shared_cnt weak_cnt andb];
  repeat match goal with
  | |- context [N.eqb ?a ?b] => destruct (N.eqb_spec a b)
  end; cbn [andb]; try lia.

Lemma write_cb_Some b c m u m' :
  write_cb b c m = Some (u, m') →
  m' = mkMem (<[b:=c]> (heap m)) (wptrs m) (trace m) (next_cb m).
Proof. unfold write_cb. by intros [= _ <-]. Qed.

Lemma emit_Some e m u m' :
  emit e m = Some (u, m') →
  m' = mkMem (heap m) (wptrs m) (trace m ++ [e]) (next_cb m).
Proof. unfold emit. by intros [= _ <-]. Qed.

Lemma incr_weak_cnt_inv e n cs cw cw' b m u m' :
  InvC e n cs cw m → N.of_nat n < SIZE_MAX →
  (0 < cs b ∨ 0 < cw b)%nat →
  (∀ x, cw' x = (cw x + one (Some b) x)%nat) →
  incr_weak_cnt b m = Some (u, m') →
  InvC e (S n) cs cw' m' ∧ wptrs m' = wptrs m.
Proof.
  intros (HC & HT & HD) Hn Hpos Hcw H.
  unfold incr_weak_cnt, bind, read_cb, write_cb in H.
  destruct (heap m !! b) as [c|] eqn:Hlk; [|discriminate].
  injection H as _ <-.
  destruct (ci_counts _ _ _ _ HC _ _ Hlk) as [Hs Hw].
  pose proof (ci_le _ _ _ _ HC b) as [Hls Hlw].
  assert (Hb : cw' b = S (cw b)) by (rewrite Hcw, one_Some_eq; lia).
  assert (Hnz : pre_incr (weak_cnt c) ≠ 0)
    by (rewrite Hw, pre_incr_small by lia; lia).
  split; [split; [|split] | done].
  - eapply CountInv_update; eauto; simpl; try lia.
    + intros x Hx. rewrite Hcw, one_Some_ne by done. lia.
    + rewrite Hw, pre_incr_small by lia. lia.
  - intros He. rewrite <- (app_nil_r (trace m)).
    eapply TraceInv_step; [by apply HT | eassumption | ..].
    + cbn. intros ? [].
    + due.
    + due.
    + rewrite app_nil_r. apply (ti_ordered _ (HT He)).
  - rewrite <- (app_nil_r (trace m)).
    eapply DestroyInv_step; [exact HD | eassumption | ..].
    + cbn. intros ? [].
    + due.
Qed.

Lemma incr_shared_cnt_inv e n cs cs' cw b m u m' :
  InvC e n cs cw m → N.of_nat n < SIZE_MAX →
  (0 < cs b)%nat →
  (∀ x, cs' x = (cs x + one (Some b) x)%nat) →
  incr_shared_cnt b m = Some (u, m') →
  InvC e (S n) cs' cw m' ∧ wptrs m' = wptrs m.
Proof.
  intros (HC & HT & HD) Hn Hpos Hcs H.
  unfold incr_shared_cnt, bind, read_cb, write_cb in H.
  destruct (heap m !! b) as [c|] eqn:Hlk; [|discriminate].
  injection H as _ <-.
  destruct (ci_counts _ _ _ _ HC _ _ Hlk) as [Hs Hw].
  pose proof (ci_le _ _ _ _ HC b) as [Hls Hlw].
  assert (Hb : cs' b = S (cs b)) by (rewrite Hcs, one_Some_eq; lia).
  assert (Hnz : pre_incr (shared_cnt c) ≠ 0)
    by (rewrite Hs, pre_incr_small by lia; lia).
  split; [split; [|split] | done].
  - eapply CountInv_update; eauto; simpl; try lia.
    + intros x Hx. rewrite Hcs, one_Some_ne by done. lia.
    + rewrite Hs, pre_incr_small by lia. lia.
  - intros He. rewrite <- (app_nil_r (trace m)).
    eapply TraceInv_step; [by apply HT | eassumption | ..].
    + cbn. intros ? [].
    + due.
    + due.
    + rewrite app_nil_r. apply (ti_ordered _ (HT He)).
  - rewrite <- (app_nil_r (trace m)).
    eapply DestroyInv_step; [exact HD | eassumption | ..].
    + cbn. intros ? [].
    + due.
Qed.

(** [WeakPtr::clear] gives up one weak reference. *)
Lemma WeakPtr_clear_inv e n cs cw cw' w m u m' :
  InvC e n cs cw m →
  (∀ x, cw x = (cw' x + one (wcb w) x)%nat) →
  WeakPtr_clear w m = Some (u, m') →
  InvC e n cs cw' m' ∧ wptrs m' = wptrs m.
Proof.
  intros (HC & HT & HD) Hcw H. unfold WeakPtr_clear in H.
  pose proof (ci_bound _ _ _ _ HC) as Hn.
  destruct (wcb w) as [b|] eqn:Hb.
  - unfold decr_weak_cnt, deallocate_cb, bind, read_cb, write_cb, emit, ret
      in H. simpl in H.
    destruct (heap m !! b) as [c|] eqn:Hlk; [|discriminate]. simpl in H.
    rewrite lookup_insert_eq in H. simpl in H.
    destruct (ci_counts _ _ _ _ HC _ _ Hlk) as [Hs Hw].
    pose proof (ci_le _ _ _ _ HC b) as [Hls Hlw].
    assert (Hcb : cw b = S (cw' b)) by (rewrite Hcw, one_Some_eq; lia).
    assert (Hdec : pre_decr (weak_cnt c) = N.of_nat (cw' b))
      by (rewrite Hw, pre_decr_pos by lia; lia).
    assert (Hwz : weak_cnt c ≠ 0) by lia.
    assert (HC' : ∀ wp tr, CountInv n cs cw'
      (mkMem (<[b:=mkCb (shared_cnt c) (pre_decr (weak_cnt c)) (derived c)]>
                (heap m)) wp tr (next_cb m))).
    { intros. eapply CountInv_update; eauto; simpl; try lia.
      intros x Hx. rewrite Hcw, one_Some_ne by done. lia. }
    destruct ((shared_cnt c =? 0) && (pre_decr (weak_cnt c) =? 0)) eqn:Hz.
    + simpl in H. rewrite lookup_insert_eq in H. injection H as _ <-. simpl.
      apply andb_true_iff in Hz as [Hz1%N.eqb_eq Hz2%N.eqb_eq].
      split; [split; [apply HC' | split] | done].
      * intros He.
        eapply TraceInv_step; [by apply HT | eassumption | ..].
        -- cbn. intros ? [<- | []]. by right.
        -- rewrite occ_single, decide_False by done. due.
        -- rewrite occ_single, decide_True by done. due.
        -- apply ordered_snoc; [apply (ti_ordered _ (HT He)) |].
           intros b' [= <-]. apply occ_pos.
           rewrite (ti_destroy _ (HT He) _ _ Hlk). due.
      * eapply DestroyInv_step; [exact HD | eassumption | ..].
        -- cbn. intros ? [[=] | []].
        -- rewrite occ_single, decide_False by done. due.
    + injection H as _ <-. simpl.
      apply andb_false_iff in Hz.
      split; [split; [apply HC' | split] | done].
      * intros He. rewrite <- (app_nil_r (trace m)).
        eapply TraceInv_step; [by apply HT | eassumption | ..].
        -- cbn. intros ? [].
        -- due.
        -- destruct Hz as [Hz%N.eqb_neq | Hz%N.eqb_neq]; due.
        -- rewrite app_nil_r. apply (ti_ordered _ (HT He)).
      * rewrite <- (app_nil_r (trace m)).
        eapply DestroyInv_step; [exact HD | eassumption | ..].
        -- cbn. intros ? [].
        -- due.
  - unfold ret in H. injection H as _ <-. split; [|done].
    eapply (InvC_ext e n n cs cw cs cw' m m);
      [exact (conj HC (conj HT HD)) | done | | lia | done ..].
    intros b. rewrite Hcw, one_None. lia.
Qed.

Lemma allocate_inv e n cs cs' cw c m b m' :
  InvC e n cs cw m → N.of_nat n < SIZE_MAX →
  shared_cnt c = 1 → weak_cnt c = 0 →
  (∀ x, cs' x = (cs x + one (Some (next_cb m)) x)%nat) →
  allocate c m = Some (b, m') →
  InvC e (S n) cs' cw m' ∧ wptrs m' = wptrs m ∧ b = next_cb m
  ∧ heap m' !! b = Some c.
Proof.
  intros (HC & HT & HD) Hn Hc1 Hc0 Hcs H. unfold allocate in H.
  injection H as <- <-.
  set (b := next_cb m) in *.
  assert (Hnew : heap m !! b = None).
  { destruct (heap m !! b) eqn:Hlk; [|done].
    assert (b < b) by (apply (ci_fresh _ _ _ _ HC); eauto). lia. }
  destruct (ci_valid _ _ _ _ HC _ Hnew) as [Hs0 Hw0].
  split; [split; [|split]|]; simpl.
  - destruct HC as [Hb Hle Hc Hv Hf]. split; simpl.
    + lia.
    + intros x. rewrite Hcs. specialize (Hle x).
      pose proof (one_le (Some b) x). lia.
    + intros x cx. destruct (decide (x = b)) as [->|Hne].
      * rewrite lookup_insert_eq. intros [= <-].
        rewrite Hcs, one_Some_eq, Hs0, Hw0, Hc1, Hc0. split; lia.
      * rewrite lookup_insert_ne by done. intros Hx.
        rewrite Hcs, one_Some_ne by done.
        destruct (Hc x cx Hx) as [-> ->]. split; lia.
    + intros x. destruct (decide (x = b)) as [->|Hne].
      * rewrite lookup_insert_eq. discriminate.
      * rewrite lookup_insert_ne by done. intros Hx.
        rewrite Hcs, one_Some_ne by done.
        destruct (Hv x Hx) as [-> ->]. split; lia.
    + intros x. destruct (decide (x = b)) as [->|Hne].
      * intros _. lia.
      * rewrite lookup_insert_ne by done. intros Hx.
        specialize (Hf x Hx). fold b in Hf. lia.
  - intros He. destruct (HT He) as [H1 H2 H3 H4 H5].
    assert (Hnone : ∀ ev, event_block ev = b → occ ev (trace m) = 0%nat).
    { intros ev Hev. apply count_occ_not_In. intros Hin.
      apply H4 in Hin. rewrite Hev, Hnew in Hin. by destruct Hin. }
    split; simpl.
    + intros x cx. rewrite occ_app, occ_single, decide_False by done.
      destruct (decide (x = b)) as [->|Hne].
      * rewrite lookup_insert_eq. intros [= <-].
        rewrite Hnone by done. unfold destroy_due. rewrite Hc1. done.
      * rewrite lookup_insert_ne by done. intros Hx.
        rewrite (H1 x cx Hx). lia.
    + intros x cx. rewrite occ_app, occ_single, decide_False by done.
      destruct (decide (x = b)) as [->|Hne].
      * rewrite lookup_insert_eq. intros [= <-].
        rewrite Hnone by done. unfold dealloc_due. rewrite Hc1. done.
      * rewrite lookup_insert_ne by done. intros Hx.
        rewrite (H2 x cx Hx). lia.
    + intros x cx. rewrite occ_app, occ_single.
      destruct (decide (x = b)) as [->|Hne].
      * rewrite decide_True by done. rewrite Hnone by done. done.
      * rewrite lookup_insert_ne by done. intros Hx.
        rewrite decide_False by congruence.
        rewrite (H3 x cx Hx). lia.
    + intros ev [Hin | [<- | []]]%in_app_iff.
      * destruct (decide (event_block ev = b)) as [->|Hne].
        -- rewrite lookup_insert_eq. eauto.
        -- rewrite lookup_insert_ne by done. by apply H4.
      * simpl. rewrite lookup_insert_eq. eauto.
    + apply ordered_snoc; [done | discriminate].
  - destruct HD as [H1 H2]. split; simpl.
    + intros x cx. rewrite occ_app, occ_single, decide_False by done.
      destruct (decide (x = b)) as [->|Hne].
      * rewrite lookup_insert_eq. intros [= <-].
        assert (occ (DestroyObject b) (trace m) = 0%nat) as ->.
        { apply count_occ_not_In. intros Hin.
          apply H2 in Hin. rewrite Hnew in Hin. by destruct Hin. }
        unfold destroy_due. rewrite Hc1. done.
      * rewrite lookup_insert_ne by done. intros Hx.
        rewrite (H1 x cx Hx). lia.
    + intros x [Hin | [[=] | []]]%in_app_iff.
      destruct (decide (x = b)) as [->|Hne].
      * rewrite lookup_insert_eq. eauto.
      * rewrite lookup_insert_ne by done. by apply H2.
  - split; [done|]. split; [done|]. apply lookup_insert_eq.
Qed.

(** Recording a call changes no counter. *)
Lemma CountInv_frame n cs cw m wp tr :
  CountInv n cs cw m →
  CountInv n cs cw (mkMem (heap m) wp tr (next_cb m)).
Proof.
  intros HC. eapply CountInv_ext; eauto. apply (ci_bound _ _ _ _ HC).
Qed.

Lemma InvC_true n cs cw m : InvC true n cs cw m ↔ BaseInv n cs cw m.
Proof.
  unfold InvC, BaseInv. split.
  - intros (HC & _ & HD). done.
  - intros [HC HD]. split; [done|]. split; [discriminate | done].
Qed.

Lemma decr_shared_cnt_count n cs cs' cw b m u m' :
  CountInv n cs cw m →
  (∀ x, cs x = (cs' x + one (Some b) x)%nat) →
  decr_shared_cnt b m = Some (u, m') →
  ∃ c, heap m !! b = Some c ∧
    m' = mkMem (<[b:=mkCb (pre_decr (shared_cnt c)) (weak_cnt c) (derived c)]>
                  (heap m)) (wptrs m) (trace m) (next_cb m) ∧
    pre_decr (shared_cnt c) = N.of_nat (cs' b) ∧
    shared_cnt c = N.of_nat (S (cs' b)) ∧
    CountInv n cs' cw m'.
Proof.
  intros HC Hcs H.
  unfold decr_shared_cnt, bind, read_cb, write_cb in H.
  destruct (heap m !! b) as [c|] eqn:Hlk; [|discriminate].
  injection H as _ <-. exists c.
  destruct (ci_counts _ _ _ _ HC _ _ Hlk) as [Hs Hw].
  pose proof (ci_le _ _ _ _ HC b) as [Hls Hlw].
  pose proof (ci_bound _ _ _ _ HC) as Hn.
  assert (Hcb : cs b = S (cs' b)) by (rewrite Hcs, one_Some_eq; lia).
  assert (Hdec : pre_decr (shared_cnt c) = N.of_nat (cs' b))
    by (rewrite Hs, pre_decr_pos by lia; lia).
  split; [done|]. split; [done|]. split; [done|].
  split; [by rewrite Hs, Hcb|].
  eapply CountInv_update; eauto; simpl; try lia.
  intros x Hx. rewrite Hcs, one_Some_ne by done. lia.
Qed.

Section Clear.
Variable e : bool.

(** [~T()] gives up the reference held by the [wptr] member. *)
Lemma destroy_T_base n cs rW l m u m' :
  BaseInv n cs (λ b, rW b + refs wcb (wptrs m) b)%nat m →
  destroy_T e l m = Some (u, m') →
  BaseInv n cs (λ b, rW b + refs wcb (wptrs m') b)%nat m'.
Proof.
  intros [HC HD] H. unfold destroy_T in H. destruct e.
  - unfold bind, read_wptr, remove_wptr, WeakPtr_dtor in H.
    set (w := default (mkWeak None None) (wptrs m !! l)) in *.
    set (m1 := mkMem (heap m) (delete l (wptrs m)) (trace m) (next_cb m))
      in *.
    assert (HC1 : InvC true n cs (λ b, rW b + refs wcb (wptrs m) b)%nat m1).
    { apply InvC_true. split; [by apply CountInv_frame|].
      eapply DestroyInv_ext; eauto. }
    eapply (WeakPtr_clear_inv true n cs _
              (λ b, rW b + refs wcb (wptrs m1) b)%nat) in H as [HI Hwp];
      [| exact HC1 |].
    + apply InvC_true in HI. rewrite Hwp. exact HI.
    + intros x. simpl. rewrite <- (refs_delete wcb (wptrs m) l x).
      subst w. destruct (wptrs m !! l); simpl; [lia|]. rewrite one_None. lia.
  - unfold ret in H. injection H as _ <-. done.
Qed.

Lemma SharedPtr_clear_base n cs cs' rW h m u m' :
  BaseInv n cs (λ b, rW b + refs wcb (wptrs m) b)%nat m →
  (∀ x, cs x = (cs' x + one (cb h) x)%nat) →
  SharedPtr_clear e h m = Some (u, m') →
  BaseInv n cs' (λ b, rW b + refs wcb (wptrs m') b)%nat m'.
Proof.
  intros [HC HD] Hcs H. unfold SharedPtr_clear in H.
  destruct (cb h) as [b|] eqn:Hb.
  - apply bind_Some in H as ([] & m1 & Hd & H).
    eapply decr_shared_cnt_count in Hd as (c & Hlk & -> & Hdec & Hsc & HC1);
      [| exact HC | exact Hcs].
    apply bind_Some in H as (c1 & m2 & Hc1 & H).
    apply read_cb_Some in Hc1 as [Hc1 ->]. simpl in Hc1.
    rewrite lookup_insert_eq in Hc1. injection Hc1 as <-.
    cbn [shared_cnt] in H.
    assert (Hnz : shared_cnt c ≠ 0) by lia.
    destruct (N.eqb_spec (pre_decr (shared_cnt c)) 0) as [Hz|Hz].
    + apply bind_Some in H as ([] & m3 & Hdo & H).
      unfold destroy_object in Hdo.
      apply bind_Some in Hdo as (c2 & m4 & Hc2 & Hdo).
      apply read_cb_Some in Hc2 as [Hc2 ->].
      apply bind_Some in Hdo as ([] & m5 & He & Hdo).
      apply emit_Some in He as ->. simpl in Hdo.
      set (c' := mkCb (pre_decr (shared_cnt c)) (weak_cnt c) (derived c)) in *.
      set (m2 := mkMem (<[b:=c']> (heap m)) (wptrs m)
                   (trace m ++ [DestroyObject b]) (next_cb m)) in *.
      assert (HB2 : BaseInv n cs'
                (λ x, rW x + refs wcb (wptrs m2) x)%nat m2).
      { split; [by apply (CountInv_frame _ _ _ _ _ _ HC1)|].
        eapply DestroyInv_step; [exact HD | exact Hlk | ..].
        - cbn. intros x [[= <-] | []]. done.
        - rewrite occ_single, decide_True by done. subst c'. due. }
      assert (HB3 : BaseInv n cs'
                (λ x, rW x + refs wcb (wptrs m3) x)%nat m3).
      { destruct (derived c2) as [[p|] [|]|];
          first [ exact (destroy_T_base n cs' rW _ _ _ _ HB2 Hdo)
                | apply ret_Some in Hdo as [_ ->]; exact HB2 ]. }
      apply bind_Some in H as (c3 & m6 & Hc3 & H).
      apply read_cb_Some in Hc3 as [Hc3 ->].
      destruct (weak_cnt c3 =? 0).
      * unfold deallocate_cb in H.
        apply bind_Some in H as (c4 & m7 & Hc4 & H).
        apply read_cb_Some in Hc4 as [Hc4 ->].
        apply emit_Some in H as ->. destruct HB3 as [HC3 HD3].
        split; [by apply CountInv_frame|].
        apply DestroyInv_frame; [done|].
        cbn. intros x [[=] | []].
      * apply ret_Some in H as [_ ->]. done.
    + apply ret_Some in H as [_ ->]. split; [done|].
      rewrite <- (app_nil_r (trace m)).
      eapply DestroyInv_step; [exact HD | exact Hlk | ..].
      * cbn. intros ? [].
      * due.
  - apply ret_Some in H as [_ ->]. split; [|done].
    eapply CountInv_ext; eauto; [| apply (ci_bound _ _ _ _ HC)].
    intros x. rewrite Hcs, one_None. lia.
Qed.
End Clear.

(** ** [SharedPtr::clear] on a plain object type *)

Lemma destroy_object_plain b m u m' :
  destroy_object false b m = Some (u, m') →
  m' = mkMem (heap m) (wptrs m) (trace m ++ [DestroyObject b]) (next_cb m).
Proof.
  intros H. unfold destroy_object in H.
  apply bind_Some in H as (c & m0 & Hc & H).
  apply read_cb_Some in Hc as [Hc ->].
  apply bind_Some in H as ([] & m1 & He & H).
  apply emit_Some in He as ->.
  destruct (derived c) as [[p|] [|]|]; apply ret_Some in H as [_ ->]; done.
Qed.

Lemma SharedPtr_clear_plain h b m u m' :
  cb h = Some b →
  SharedPtr_clear false h m = Some (u, m') →
  ∃ c, heap m !! b = Some c ∧
    m' = mkMem
           (<[b:=mkCb (pre_decr (shared_cnt c)) (weak_cnt c) (derived c)]>
              (heap m))
           (wptrs m)
           (trace m ++
              clear_events b
                (mkCb (pre_decr (shared_cnt c)) (weak_cnt c) (derived c)))
           (next_cb m).
Proof.
  intros Hb H. unfold SharedPtr_clear in H. rewrite Hb in H.
  apply bind_Some in H as ([] & m1 & Hd & H).
  unfold decr_shared_cnt in Hd.
  apply bind_Some in Hd as (c & m0 & Hc & Hd).
  apply read_cb_Some in Hc as [Hc ->].
  apply write_cb_Some in Hd as ->.
  exists c. split; [done|].
  apply bind_Some in H as (c1 & m2 & Hc1 & H).
  apply read_cb_Some in Hc1 as [Hc1 ->]. simpl in Hc1.
  rewrite lookup_insert_eq in Hc1. injection Hc1 as <-.
  unfold clear_events. cbn [shared_cnt weak_cnt] in *.
  destruct (pre_decr (shared_cnt c) =? 0).
  - apply bind_Some in H as ([] & m3 & Hdo & H).
    apply destroy_object_plain in Hdo as ->. simpl in H.
    apply bind_Some in H as (c3 & m4 & Hc3 & H).
    apply read_cb_Some in Hc3 as [Hc3 ->]. simpl in Hc3.
    rewrite lookup_insert_eq in Hc3. injection Hc3 as <-.
    cbn [weak_cnt] in H.
    destruct (weak_cnt c =? 0).
    + unfold deallocate_cb in H.
      apply bind_Some in H as (c4 & m5 & Hc4 & H).
      apply read_cb_Some in Hc4 as [Hc4 ->].
      apply emit_Some in H as ->. simpl.
      by rewrite <- app_assoc.
    + apply ret_Some in H as [_ ->]. done.
  - apply ret_Some in H as [_ ->]. by rewrite app_nil_r.
Qed.

Lemma occ_cons e a t :
  occ e (a :: t) = ((if decide (a = e) then 1 else 0) + occ e t)%nat.
Proof.
  unfold occ. simpl.
  destruct (Event_eq_dec a e); case_decide; simpl; congruence.
Qed.

Ltac occs :=
  rewrite ?occ_cons, ?occ_nil;
  repeat first [rewrite decide_True by done | rewrite decide_False by done].

Lemma SharedPtr_clear_inv e n cs cs' rW h m u m' :
  InvC e n cs (λ b, rW b + refs wcb (wptrs m) b)%nat m →
  (∀ x, cs x = (cs' x + one (cb h) x)%nat) →
  SharedPtr_clear e h m = Some (u, m') →
  InvC e n cs' (λ b, rW b + refs wcb (wptrs m') b)%nat m'.
Proof.
  intros (HC & HT & HD) Hcs H.
  destruct (SharedPtr_clear_base e n cs cs' rW h m u m' (conj HC HD) Hcs H)
    as [HC' HD'].
  split; [done|]. split; [|done].
  intros ->. specialize (HT eq_refl).
  destruct (cb h) as [b|] eqn:Hb.
  - destruct (SharedPtr_clear_plain h b m u m' Hb H) as (c & Hlk & ->).
    destruct (ci_counts _ _ _ _ HC _ _ Hlk) as [Hs Hw].
    pose proof (ci_le _ _ _ _ HC b) as [Hls Hlw].
    pose proof (ci_bound _ _ _ _ HC) as Hn.
    assert (Hcb : cs b = S (cs' b)) by (rewrite Hcs, one_Some_eq; lia).
    assert (Hc0 : shared_cnt c ≠ 0) by lia.
    eapply TraceInv_step; [done | eassumption | ..];
      unfold clear_events; cbn [shared_cnt weak_cnt].
    + intros ev.
      destruct (pre_decr (shared_cnt c) =? 0), (weak_cnt c =? 0); cbn;
        intuition congruence.
    + destruct (N.eqb_spec (pre_decr (shared_cnt c)) 0) as [Hz|Hz];
        [destruct (weak_cnt c =? 0)|]; occs; due.
    + destruct (N.eqb_spec (pre_decr (shared_cnt c)) 0) as [Hz|Hz];
        [destruct (N.eqb_spec (weak_cnt c) 0)|]; occs; due.
    + destruct (pre_decr (shared_cnt c) =? 0);
        [destruct (weak_cnt c =? 0)|].
      * change [DestroyObject b; DeallocateCb b]
          with ([DestroyObject b] ++ [DeallocateCb b]).
        rewrite app_assoc. apply ordered_snoc.
        -- apply ordered_snoc; [apply (ti_ordered _ HT) | discriminate].
        -- intros b' [= <-]. apply in_app_iff. right. by left.
      * apply ordered_snoc; [apply (ti_ordered _ HT) | discriminate].
      * rewrite app_nil_r. apply (ti_ordered _ HT).
  - unfold SharedPtr_clear in H. rewrite Hb in H.
    apply ret_Some in H as [_ ->]. done.
Qed.

(** ** Operations that leave every [wptr] member alone *)

Lemma keeps_bind {A B} (c : M A) (k : A → M B) :
  keeps_wptrs c → (∀ a, keeps_wptrs (k a)) → keeps_wptrs (bind c k).
Proof.
  intros Hc Hk m r m'' (a & m' & H1 & H2)%bind_Some.
  rewrite (Hk a _ _ _ H2). by apply (Hc _ _ _ H1).
Qed.

Lemma keeps_ret {A} (a : A) : keeps_wptrs (ret a).
Proof. by intros m r m' [_ ->]%ret_Some. Qed.

Lemma keeps_fault {A} : keeps_wptrs (@fault A).
Proof. intros m r m' [=]. Qed.

Lemma keeps_read_cb b : keeps_wptrs (read_cb b).
Proof. by intros m r m' [_ ->]%read_cb_Some. Qed.

Lemma keeps_write_cb b c : keeps_wptrs (write_cb b c).
Proof. by intros m r m' ->%write_cb_Some. Qed.

Lemma keeps_emit e : keeps_wptrs (emit e).
Proof. by intros m r m' ->%emit_Some. Qed.

Lemma keeps_allocate c : keeps_wptrs (allocate c).
Proof. unfold allocate. by intros m r m' [= _ <-]. Qed.

Ltac keeps :=
  repeat first
    [ apply keeps_ret | apply keeps_fault | apply keeps_read_cb
    | apply keeps_write_cb | apply keeps_emit | apply keeps_allocate
    | apply keeps_bind
    | match goal with
      | |- ∀ _, _ => intros ?
      | |- keeps_wptrs (match ?x with _ => _ end) => destruct x
      | |- keeps_wptrs (if ?x then _ else _) => destruct x
      end ].

Lemma keeps_incr_weak_cnt b : keeps_wptrs (incr_weak_cnt b).
Proof. unfold incr_weak_cnt. keeps. Qed.

Lemma keeps_incr_shared_cnt b : keeps_wptrs (incr_shared_cnt b).
Proof. unfold incr_shared_cnt. keeps. Qed.

Lemma keeps_WeakPtr_clear w : keeps_wptrs (WeakPtr_clear w).
Proof.
  unfold WeakPtr_clear, decr_weak_cnt, deallocate_cb. keeps.
Qed.

Lemma keeps_WeakPtr_ctor_shared sp : keeps_wptrs (WeakPtr_ctor_shared sp).
Proof. unfold WeakPtr_ctor_shared. simpl. keeps; apply keeps_incr_weak_cnt. Qed.

Lemma keeps_WeakPtr_ctor_copy w : keeps_wptrs (WeakPtr_ctor_copy w).
Proof. unfold WeakPtr_ctor_copy. simpl. keeps; apply keeps_incr_weak_cnt. Qed.

Lemma keeps_SharedPtr_ctor_weak w : keeps_wptrs (SharedPtr_ctor_weak w).
Proof.
  unfold SharedPtr_ctor_weak. simpl. keeps; apply keeps_incr_shared_cnt.
Qed.

Lemma keeps_WeakPtr_assign_copy same this w :
  keeps_wptrs (WeakPtr_assign_copy same this w).
Proof.
  unfold WeakPtr_assign_copy, WeakPtr_dtor. destruct same; [keeps|].
  apply keeps_bind; [apply keeps_WeakPtr_ctor_copy|]. intros copy. simpl.
  apply keeps_bind; [apply keeps_WeakPtr_clear | keeps].
Qed.

Lemma keeps_WeakPtr_assign_move same this w :
  keeps_wptrs (WeakPtr_assign_move same this w).
Proof.
  unfold WeakPtr_assign_move, WeakPtr_dtor. simpl.
  apply keeps_bind; [apply keeps_WeakPtr_clear | keeps].
Qed.

Lemma keeps_WeakPtr_lock w : keeps_wptrs (WeakPtr_lock w).
Proof.
  unfold WeakPtr_lock, WeakPtr_expired, WeakPtr_use_count, WeakPtr_dtor.
  apply keeps_bind; [keeps|]. intros [|]; [keeps|].
  apply keeps_bind; [apply keeps_WeakPtr_ctor_copy|]. intros arg.
  apply keeps_bind; [apply keeps_SharedPtr_ctor_weak|]. intros r.
  apply keeps_bind; [apply keeps_WeakPtr_clear | keeps].
Qed.

(** ** Values returned by the constructors *)

Lemma WeakPtr_ctor_shared_val sp m w m' :
  WeakPtr_ctor_shared sp m = Some (w, m') → w = mkWeak (object sp) (cb sp).
Proof.
  unfold WeakPtr_ctor_shared.
  intros (? & ? & _ & [-> _]%ret_Some)%bind_Some. done.
Qed.

Lemma WeakPtr_ctor_copy_val wptr m w m' :
  WeakPtr_ctor_copy wptr m = Some (w, m') →
  w = mkWeak (wobject wptr) (wcb wptr).
Proof.
  unfold WeakPtr_ctor_copy.
  intros (? & ? & _ & [-> _]%ret_Some)%bind_Some. done.
Qed.

Lemma SharedPtr_ctor_weak_val wptr m r m' :
  SharedPtr_ctor_weak wptr m = Some (r, m') →
  r = mkShared (wobject wptr) (wcb wptr).
Proof.
  unfold SharedPtr_ctor_weak.
  intros (? & ? & _ & [-> _]%ret_Some)%bind_Some. done.
Qed.

(** ** Invariants under the member functions of [WeakPtr] *)

Section WeakOps.
Variable e : bool.

Lemma InvC_mono n n' cs cw m :
  InvC e n cs cw m → (n ≤ n')%nat → N.of_nat n' ≤ SIZE_MAX →
  InvC e n' cs cw m.
Proof. intros. eapply InvC_ext; eauto. Qed.

Lemma WeakPtr_ctor_shared_inv n cs cw cw' sp m w m' :
  InvC e n cs cw m → N.of_nat n < SIZE_MAX →
  (∀ b, cb sp = Some b → (0 < cs b)%nat) →
  (∀ x, cw' x = (cw x + one (cb sp) x)%nat) →
  WeakPtr_ctor_shared sp m = Some (w, m') →
  w = mkWeak (object sp) (cb sp) ∧ InvC e (S n) cs cw' m'.
Proof.
  intros HI Hn Hpos Hcw H. unfold WeakPtr_ctor_shared in H. simpl in H.
  apply bind_Some in H as ([] & m1 & H1 & H).
  apply ret_Some in H as [-> ->]. split; [done|].
  destruct (cb sp) as [b|] eqn:Hb.
  - eapply incr_weak_cnt_inv in H1 as [HI' _]; eauto.
  - apply ret_Some in H1 as [_ ->].
    eapply InvC_ext; eauto; [| lia].
    intros x. rewrite Hcw, one_None. lia.
Qed.

Lemma WeakPtr_ctor_copy_inv n cs cw cw' wptr m w m' :
  InvC e n cs cw m → N.of_nat n < SIZE_MAX →
  (∀ b, wcb wptr = Some b → (0 < cw b)%nat) →
  (∀ x, cw' x = (cw x + one (wcb wptr) x)%nat) →
  WeakPtr_ctor_copy wptr m = Some (w, m') →
  w = mkWeak (wobject wptr) (wcb wptr) ∧ InvC e (S n) cs cw' m'.
Proof.
  intros HI Hn Hpos Hcw H. unfold WeakPtr_ctor_copy in H. simpl in H.
  apply bind_Some in H as ([] & m1 & H1 & H).
  apply ret_Some in H as [-> ->]. split; [done|].
  destruct (wcb wptr) as [b|] eqn:Hb.
  - eapply incr_weak_cnt_inv in H1 as [HI' _]; eauto.
  - apply ret_Some in H1 as [_ ->].
    eapply InvC_ext; eauto; [| lia].
    intros x. rewrite Hcw, one_None. lia.
Qed.

Lemma SharedPtr_ctor_weak_inv n cs cs' cw wptr m r m' :
  InvC e n cs cw m → N.of_nat n < SIZE_MAX →
  (∀ b, wcb wptr = Some b → (0 < cs b)%nat) →
  (∀ x, cs' x = (cs x + one (wcb wptr) x)%nat) →
  SharedPtr_ctor_weak wptr m = Some (r, m') →
  r = mkShared (wobject wptr) (wcb wptr) ∧ InvC e (S n) cs' cw m'.
Proof.
  intros HI Hn Hpos Hcs H. unfold SharedPtr_ctor_weak in H. simpl in H.
  apply bind_Some in H as ([] & m1 & H1 & H).
  apply ret_Some in H as [-> ->]. split; [done|].
  destruct (wcb wptr) as [b|] eqn:Hb.
  - eapply incr_shared_cnt_inv in H1 as [HI' _]; eauto.
  - apply ret_Some in H1 as [_ ->].
    eapply InvC_ext; eauto; [| lia].
    intros x. rewrite Hcs, one_None. lia.
Qed.

(** [cw0] counts the weak handles other than [*this]. *)
Lemma WeakPtr_assign_copy_inv n cs cw0 same this wptr m r m' :
  InvC e n cs (λ x, cw0 x + one (wcb this) x)%nat m →
  N.of_nat n < SIZE_MAX →
  (∀ b, wcb wptr = Some b → (0 < cw0 b + one (wcb this) b)%nat) →
  WeakPtr_assign_copy same this wptr m = Some (r, m') →
  InvC e (S n) cs (λ x, cw0 x + one (wcb r) x)%nat m'.
Proof.
  intros HI Hn Hpos H. unfold WeakPtr_assign_copy in H.
  destruct same.
  - apply ret_Some in H as [-> ->]. eapply InvC_mono; eauto. lia.
  - apply bind_Some in H as (copy & m1 & H1 & H).
    eapply (WeakPtr_ctor_copy_inv _ _ _
              (λ x, cw0 x + one (wcb this) x + one (wcb wptr) x)%nat)
      in H1 as [-> HI1]; [| exact HI | done | done | done].
    simpl in H. apply bind_Some in H as ([] & m2 & H2 & H).
    apply ret_Some in H as [-> ->]. simpl.
    eapply (WeakPtr_clear_inv _ _ _ _
              (λ x, cw0 x + one (wcb wptr) x)%nat) in H2 as [HI2 _];
      [exact HI2 | exact HI1 |].
    intros x. simpl. lia.
Qed.

(** Move assignment between two distinct handles. *)
Lemma WeakPtr_assign_move_inv n cs cw0 this wptr m r r' m' :
  InvC e n cs (λ x, cw0 x + one (wcb this) x + one (wcb wptr) x)%nat m →
  WeakPtr_assign_move false this wptr m = Some ((r, r'), m') →
  r = mkWeak (wobject wptr) (wcb wptr) ∧ r' = mkWeak None None ∧
  InvC e n cs (λ x, cw0 x + one (wcb wptr) x)%nat m'.
Proof.
  intros HI H. unfold WeakPtr_assign_move in H. simpl in H.
  apply bind_Some in H as ([] & m2 & H2 & H).
  apply ret_Some in H as [[= -> ->] ->].
  split; [done|]. split; [done|].
  eapply WeakPtr_clear_inv in H2 as [HI2 _]; [exact HI2 | exact HI |].
  intros x. simpl. lia.
Qed.

(** Move assignment of a handle to itself changes nothing. *)
Lemma WeakPtr_assign_move_self this m r r' m' :
  WeakPtr_assign_move true this this m = Some ((r, r'), m') →
  r = mkWeak (wobject this) (wcb this) ∧ r' = r ∧ m' = m.
Proof.
  intros H. unfold WeakPtr_assign_move in H. simpl in H.
  apply bind_Some in H as ([] & m2 & H2 & H).
  apply ret_Some in H as [[= -> ->] ->].
  unfold WeakPtr_dtor, WeakPtr_clear in H2. simpl in H2.
  apply ret_Some in H2 as [_ ->]. done.
Qed.

Lemma WeakPtr_lock_inv n cs cs' cw this m r m' :
  InvC e n cs cw m → N.of_nat (S n) < SIZE_MAX →
  (∀ b, wcb this = Some b → (0 < cw b)%nat) →
  (∀ x, cs' x = (cs x + one (cb r) x)%nat) →
  WeakPtr_lock this m = Some (r, m') →
  InvC e (S (S n)) cs' cw m'.
Proof.
  intros HI Hn Hpos Hcs H. unfold WeakPtr_lock in H.
  apply bind_Some in H as (ex & m1 & H1 & H).
  unfold WeakPtr_expired in H1.
  apply bind_Some in H1 as (uc & m0 & H0 & H1).
  apply ret_Some in H1 as [-> ->].
  assert (m0 = m ∧ (uc ≠ 0 → ∀ b, wcb this = Some b → (0 < cs b)%nat))
    as [-> Hlive].
  { unfold WeakPtr_use_count in H0. destruct (wcb this) as [b|].
    - apply bind_Some in H0 as (c & m2 & Hc & H0).
      apply read_cb_Some in Hc as [Hc ->].
      apply ret_Some in H0 as [-> ->]. split; [done|].
      intros Hnz b' [= <-].
      destruct HI as [HC _].
      destruct (ci_counts _ _ _ _ HC _ _ Hc) as [Hs _]. lia.
    - apply ret_Some in H0 as [-> ->]. split; [done|]. done. }
  destruct (N.eqb_spec uc 0) as [Hz|Hnz].
  - apply ret_Some in H as [-> ->].
    eapply (InvC_ext e n (S (S n)) cs cw cs' cw m m);
      [exact HI | | done | lia | lia | done ..].
    intros x. rewrite Hcs. unfold SharedPtr_ctor_default. simpl.
    rewrite one_None. lia.
  - apply bind_Some in H as (arg & m2 & H2 & H).
    eapply (WeakPtr_ctor_copy_inv _ _ _
              (λ x, cw x + one (wcb this) x)%nat)
      in H2 as [-> HI2]; [| exact HI | lia | done | done].
    apply bind_Some in H as (r0 & m3 & H3 & H).
    apply bind_Some in H as ([] & m4 & H4 & H).
    apply ret_Some in H as [-> ->].
    pose proof (SharedPtr_ctor_weak_val _ _ _ _ H3) as ->.
    eapply (SharedPtr_ctor_weak_inv _ _ cs') in H3 as [_ HI3];
      [| exact HI2 | lia | by apply Hlive | exact Hcs].
    eapply WeakPtr_clear_inv in H4 as [HI4 _];
      [exact HI4 | exact HI3 |].
    intros x. simpl. lia.
Qed.
End WeakOps.

(** ** Invariants under the member functions of [SharedPtr]

    [rW b] counts the weak handles outside the objects that reference [b];
    the [wptr] members are counted from the memory. *)

Lemma read_wptr_Some l m w m' :
  read_wptr l m = Some (w, m') →
  w = default (mkWeak None None) (wptrs m !! l) ∧ m' = m.
Proof. unfold read_wptr. by intros [= <- <-]. Qed.

Lemma write_wptr_Some l w m u m' :
  write_wptr l w m = Some (u, m') →
  m' = mkMem (heap m) (<[l:=w]> (wptrs m)) (trace m) (next_cb m).
Proof. unfold write_wptr. by intros [= _ <-]. Qed.

Lemma one_default (o : option WeakPtr) x :
  one (wcb (default (mkWeak None None) o)) x
  = from_option (λ w, one (wcb w) x) 0%nat o.
Proof. by destruct o. Qed.

Lemma InvC_eq e n cs cw cs' cw' m :
  InvC e n cs cw m →
  (∀ x, cs' x = cs x) → (∀ x, cw' x = cw x) →
  InvC e n cs' cw' m.
Proof.
  intros HI Hs Hw. eapply InvC_ext; eauto.
  destruct HI as [HC _]. apply (ci_bound _ _ _ _ HC).
Qed.

Section SharedOps.
Variable e : bool.

Abbreviation slots m := (refs wcb (wptrs m)).

Lemma update_enable_shared_from_this_inv n cs rW this m u m' :
  InvC e n cs (λ x, rW x + slots m x)%nat m →
  N.of_nat n < SIZE_MAX →
  (∀ b, cb this = Some b → (0 < cs b)%nat) →
  update_enable_shared_from_this e this m = Some (u, m') →
  InvC e (S n) cs (λ x, rW x + slots m' x)%nat m'.
Proof.
  intros HI Hn Hpos H. unfold update_enable_shared_from_this in H.
  destruct (cb this) as [b|] eqn:Hb; [destruct e eqn:He|].
  - apply bind_Some in H as (l & m0 & Hl & H).
    assert (m0 = m) as ->.
    { destruct (object this).
      - by apply ret_Some in Hl as [_ ->].
      - apply bind_Some in Hl as (c & m1 & Hc & Hl).
        apply read_cb_Some in Hc as [_ ->].
        destruct (derived c); [discriminate|].
        by apply ret_Some in Hl as [_ ->]. }
    apply bind_Some in H as (tmp & m1 & H1 & H).
    pose proof (keeps_WeakPtr_ctor_shared _ _ _ _ H1) as Hw1.
    eapply (WeakPtr_ctor_shared_inv _ _ _ _
              (λ x, rW x + slots m x + one (cb this) x)%nat)
      in H1 as [-> HI1]; [| exact HI | done | by rewrite Hb | done].
    apply bind_Some in H as (old & m2 & H2 & H).
    apply read_wptr_Some in H2 as [-> ->].
    apply bind_Some in H as ([new tmp'] & m3 & H3 & H).
    pose proof (keeps_WeakPtr_assign_move _ _ _ _ _ _ H3) as Hw3.
    eapply (WeakPtr_assign_move_inv true _ _
              (λ x, rW x + refs wcb (delete l (wptrs m)) x)%nat)
      in H3 as (-> & -> & HI3).
    + apply bind_Some in H as ([] & m4 & H4 & H).
      apply write_wptr_Some in H4 as ->.
      unfold WeakPtr_dtor, WeakPtr_clear in H. simpl in H.
      apply ret_Some in H as [_ ->].
      eapply (InvC_ext true (S n) (S n) cs _ cs _ m3 _ HI3);
        [done | | lia | | done ..].
      * intros x. simpl. rewrite Hw3, Hw1.
        pose proof (refs_insert wcb (wptrs m) l
                      (mkWeak (object this) (cb this)) x) as Hins.
        pose proof (refs_delete wcb (wptrs m) l x) as Hdel.
        simpl in Hins. lia.
      * destruct HI3 as [HC _]. apply (ci_bound _ _ _ _ HC).
    + eapply InvC_eq; [exact HI1 | done |].
      intros x. simpl. rewrite one_default, Hw1.
      pose proof (refs_delete wcb (wptrs m) l x) as Hdel. lia.
  - apply ret_Some in H as [_ ->]. eapply InvC_mono; eauto. lia.
  - apply ret_Some in H as [_ ->]. eapply InvC_mono; eauto. lia.
Qed.

Lemma SharedPtr_ctor_copy_val shptr m r m' :
  SharedPtr_ctor_copy e shptr m = Some (r, m') →
  r = mkShared (object shptr) (cb shptr).
Proof.
  unfold SharedPtr_ctor_copy.
  intros (? & ? & _ & (? & ? & _ & [-> _]%ret_Some)%bind_Some)%bind_Some.
  done.
Qed.

Lemma SharedPtr_ctor_copy_inv n cs cs' rW shptr m r m' :
  InvC e n cs (λ x, rW x + slots m x)%nat m →
  N.of_nat (S n) < SIZE_MAX →
  (∀ b, cb shptr = Some b → (0 < cs b)%nat) →
  (∀ x, cs' x = (cs x + one (cb shptr) x)%nat) →
  SharedPtr_ctor_copy e shptr m = Some (r, m') →
  InvC e (S (S n)) cs' (λ x, rW x + slots m' x)%nat m'.
Proof.
  intros HI Hn Hpos Hcs H. unfold SharedPtr_ctor_copy in H.
  apply bind_Some in H as ([] & m1 & H1 & H).
  eapply update_enable_shared_from_this_inv in H1;
    [| exact HI | lia | done].
  apply bind_Some in H as ([] & m2 & H2 & H).
  apply ret_Some in H as [_ ->]. simpl in H2.
  destruct (cb shptr) as [b|] eqn:Hb.
  - pose proof (keeps_incr_shared_cnt _ _ _ _ H2) as Hw2.
    eapply incr_shared_cnt_inv in H2 as [HI2 _];
      [| exact H1 | lia | by apply Hpos | exact Hcs].
    rewrite Hw2. exact HI2.
  - apply ret_Some in H2 as [_ ->].
    eapply (InvC_ext e (S n) (S (S n)) cs _ cs' _ m1 _ H1);
      [| done | lia | lia | done ..].
    intros x. rewrite Hcs, one_None. lia.
Qed.

Lemma SharedPtr_ctor_move_inv n cs rW shptr m r r' m' :
  InvC e n cs (λ x, rW x + slots m x)%nat m →
  N.of_nat n < SIZE_MAX →
  (∀ b, cb shptr = Some b → (0 < cs b)%nat) →
  SharedPtr_ctor_move e shptr m = Some ((r, r'), m') →
  r = mkShared (object shptr) (cb shptr) ∧ r' = mkShared None None ∧
  InvC e (S n) cs (λ x, rW x + slots m' x)%nat m'.
Proof.
  intros HI Hn Hpos H. unfold SharedPtr_ctor_move in H.
  apply bind_Some in H as ([] & m1 & H1 & H).
  apply ret_Some in H as [[= -> ->] ->].
  split; [done|]. split; [done|].
  eapply update_enable_shared_from_this_inv in H1; eauto.
Qed.

Lemma makeShared_val m r m' :
  makeShared e m = Some (r, m') → r = mkShared None (Some (next_cb m)).
Proof.
  unfold makeShared, SharedPtr_ctor_make_shared_cb.
  intros (b & m1 & [= <- _] & (? & ? & _ & [-> _]%ret_Some)%bind_Some)
    %bind_Some.
  done.
Qed.

Lemma makeShared_inv n cs cs' rW m r m' :
  InvC e n cs (λ x, rW x + slots m x)%nat m →
  N.of_nat (S n) < SIZE_MAX →
  (∀ x, cs' x = (cs x + one (cb r) x)%nat) →
  makeShared e m = Some (r, m') →
  InvC e (S (S n)) cs' (λ x, rW x + slots m' x)%nat m'.
Proof.
  intros HI Hn Hcs H. pose proof (makeShared_val _ _ _ H) as ->.
  unfold makeShared in H.
  apply bind_Some in H as (b & m1 & H1 & H).
  pose proof (keeps_allocate _ _ _ _ H1) as Hw1.
  eapply (allocate_inv _ _ _ cs') in H1 as (HI1 & _ & -> & _);
    [| exact HI | lia | done | done | exact Hcs].
  unfold SharedPtr_ctor_make_shared_cb in H.
  apply bind_Some in H as ([] & m2 & H2 & H).
  apply ret_Some in H as [_ ->].
  rewrite <- Hw1 in HI1.
  eapply update_enable_shared_from_this_inv in H2;
    [exact H2 | exact HI1 | lia |].
  intros b [= <-]. rewrite Hcs. simpl. rewrite one_Some_eq. lia.
Qed.

Lemma SharedPtr_ctor_ptr_val ptr del m r m' :
  SharedPtr_ctor_ptr e ptr del m = Some (r, m') →
  r = mkShared ptr (Some (next_cb m)).
Proof.
  unfold SharedPtr_ctor_ptr, update_enable_shared_from_this. simpl.
  intros ([] & m1 & [_ ->]%ret_Some
          & (b & m2 & [= <- _] & [-> _]%ret_Some)%bind_Some)%bind_Some.
  done.
Qed.

Lemma SharedPtr_ctor_ptr_inv n cs cs' rW ptr del m r m' :
  InvC e n cs (λ x, rW x + slots m x)%nat m →
  N.of_nat n < SIZE_MAX →
  (∀ x, cs' x = (cs x + one (cb r) x)%nat) →
  SharedPtr_ctor_ptr e ptr del m = Some (r, m') →
  InvC e (S n) cs' (λ x, rW x + slots m' x)%nat m'.
Proof.
  intros HI Hn Hcs H. pose proof (SharedPtr_ctor_ptr_val _ _ _ _ _ H) as ->.
  unfold SharedPtr_ctor_ptr, update_enable_shared_from_this in H.
  simpl in H.
  apply bind_Some in H as ([] & m1 & [_ ->]%ret_Some & H).
  apply bind_Some in H as (b & m2 & H2 & H).
  apply ret_Some in H as [_ ->].
  pose proof (keeps_allocate _ _ _ _ H2) as Hw2.
  eapply (allocate_inv _ _ _ cs') in H2 as (HI2 & _ & -> & _);
    [| exact HI | lia | done | done | exact Hcs].
  by rewrite Hw2.
Qed.

(** [cs0] counts the strong handles other than [*this]. *)
Lemma SharedPtr_assign_copy_inv n cs0 rW same this shptr m r m' :
  InvC e n (λ x, cs0 x + one (cb this) x)%nat
    (λ x, rW x + slots m x)%nat m →
  N.of_nat (S n) < SIZE_MAX →
  (∀ b, cb shptr = Some b → (0 < cs0 b + one (cb this) b)%nat) →
  SharedPtr_assign_copy e same this shptr m = Some (r, m') →
  InvC e (S (S n)) (λ x, cs0 x + one (cb r) x)%nat
    (λ x, rW x + slots m' x)%nat m'.
Proof.
  intros HI Hn Hpos H. unfold SharedPtr_assign_copy in H.
  destruct same.
  - apply ret_Some in H as [-> ->]. eapply InvC_mono; eauto; lia.
  - apply bind_Some in H as (copy & m1 & H1 & H).
    pose proof (SharedPtr_ctor_copy_val _ _ _ _ H1) as ->.
    eapply (SharedPtr_ctor_copy_inv _ _
              (λ x, cs0 x + one (cb this) x + one (cb shptr) x)%nat)
      in H1; [| exact HI | done | done | done].
    simpl in H. apply bind_Some in H as ([] & m2 & H2 & H).
    apply ret_Some in H as [-> ->]. simpl.
    eapply SharedPtr_clear_inv in H2; [exact H2 | exact H1 |].
    intros x. simpl. lia.
Qed.

(** Move assignment between two distinct handles. *)
Lemma SharedPtr_assign_move_inv n cs0 rW this shptr m r r' m' :
  InvC e n (λ x, cs0 x + one (cb this) x + one (cb shptr) x)%nat
    (λ x, rW x + slots m x)%nat m →
  N.of_nat n < SIZE_MAX →
  SharedPtr_assign_move e true false this shptr m = Some ((r, r'), m') →
  r = mkShared (object shptr) (cb shptr) ∧ r' = mkShared None None ∧
  InvC e (S n) (λ x, cs0 x + one (cb shptr) x)%nat
    (λ x, rW x + slots m' x)%nat m'.
Proof.
  intros HI Hn H. unfold SharedPtr_assign_move, SharedPtr_ctor_rvalue in H.
  apply bind_Some in H as ([copy shptr'] & m1 & H1 & H).
  eapply SharedPtr_ctor_move_inv in H1 as (-> & -> & HI1);
    [| exact HI | done |].
  - simpl in H. apply bind_Some in H as ([] & m2 & H2 & H).
    apply ret_Some in H as [[= <- <-] ->].
    split; [done|]. split; [done|].
    eapply SharedPtr_clear_inv in H2; [exact H2 | exact HI1 |].
    intros x. simpl. lia.
  - intros b Hb. simpl. rewrite Hb, one_Some_eq. lia.
Qed.

(** Move assignment of a handle to itself keeps the handle. *)
Lemma SharedPtr_assign_move_self n cs rW this m r r' m' :
  InvC e n cs (λ x, rW x + slots m x)%nat m →
  N.of_nat n < SIZE_MAX →
  (∀ b, cb this = Some b → (0 < cs b)%nat) →
  SharedPtr_assign_move e true true this this m = Some ((r, r'), m') →
  r = mkShared (object this) (cb this) ∧ r' = r ∧
  InvC e (S n) cs (λ x, rW x + slots m' x)%nat m'.
Proof.
  intros HI Hn Hpos H. unfold SharedPtr_assign_move, SharedPtr_ctor_rvalue in H.
  apply bind_Some in H as ([copy shptr'] & m1 & H1 & H).
  eapply SharedPtr_ctor_move_inv in H1 as (-> & -> & HI1);
    [| exact HI | done | done].
  simpl in H. apply bind_Some in H as ([] & m2 & H2 & H).
  apply ret_Some in H as [[= <- <-] ->].
  unfold SharedPtr_dtor, SharedPtr_clear in H2. simpl in H2.
  apply ret_Some in H2 as [_ ->]. done.
Qed.

(** Without the template, construction from an rvalue is a copy, and move
    assignment is copy assignment without the test for self-assignment. *)
Lemma SharedPtr_ctor_rvalue_copy shptr m :
  SharedPtr_ctor_rvalue e false shptr m
  = match SharedPtr_ctor_copy e shptr m with
    | Some (r, m') => Some ((r, shptr), m')
    | None => None
    end.
Proof.
  unfold SharedPtr_ctor_rvalue, bind.
  by destruct (SharedPtr_ctor_copy e shptr m) as [[r m']|].
Qed.

Lemma SharedPtr_assign_move_copy same this shptr m :
  SharedPtr_assign_move e false same this shptr m
  = match SharedPtr_assign_copy e false (if same then shptr else this)
            shptr m with
    | Some (r, m') => Some ((r, if same then r else shptr), m')
    | None => None
    end.
Proof.
  unfold SharedPtr_assign_move, SharedPtr_assign_copy, bind.
  rewrite SharedPtr_ctor_rvalue_copy.
  destruct (SharedPtr_ctor_copy e shptr m) as [[copy m1]|]; [|done].
  simpl.
  destruct (SharedPtr_dtor e _ m1) as [[[] m2]|]; done.
Qed.

Lemma SharedPtr_reset_inv n cs0 rW this m r m' :
  InvC e n (λ x, cs0 x + one (cb this) x)%nat
    (λ x, rW x + slots m x)%nat m →
  SharedPtr_reset e this m = Some (r, m') →
  r = mkShared None None ∧
  InvC e n cs0 (λ x, rW x + slots m' x)%nat m'.
Proof.
  intros HI H. unfold SharedPtr_reset in H. simpl in H.
  apply bind_Some in H as ([] & m2 & H2 & H).
  apply ret_Some in H as [-> ->]. split; [done|].
  eapply SharedPtr_clear_inv in H2; [exact H2 | exact HI |].
  intros x. simpl. lia.
Qed.

Lemma SharedPtr_reset_ptr_inv n cs0 rW this ptr del m r m' :
  InvC e n (λ x, cs0 x + one (cb this) x)%nat
    (λ x, rW x + slots m x)%nat m →
  N.of_nat n < SIZE_MAX →
  SharedPtr_reset_ptr e this ptr del m = Some (r, m') →
  InvC e (S n) (λ x, cs0 x + one (cb r) x)%nat
    (λ x, rW x + slots m' x)%nat m'.
Proof.
  intros HI Hn H. unfold SharedPtr_reset_ptr in H.
  apply bind_Some in H as (tmp & m1 & H1 & H).
  eapply (SharedPtr_ctor_ptr_inv _ _
            (λ x, cs0 x + one (cb this) x + one (cb tmp) x)%nat)
    in H1; [| exact HI | done | done].
  simpl in H. apply bind_Some in H as ([] & m2 & H2 & H).
  apply ret_Some in H as [-> ->]. simpl.
  eapply SharedPtr_clear_inv in H2; [exact H2 | exact H1 |].
  intros x. simpl. lia.
Qed.

Lemma shared_from_this_inv n cs cs' rW l m r m' :
  InvC e n cs (λ x, rW x + slots m x)%nat m →
  N.of_nat (S n) < SIZE_MAX →
  (∀ x, cs' x = (cs x + one (cb r) x)%nat) →
  shared_from_this l m = Some (r, m') →
  InvC e (S (S n)) cs' (λ x, rW x + slots m' x)%nat m'.
Proof.
  intros HI Hn Hcs H. unfold shared_from_this in H.
  apply bind_Some in H as (w & m1 & H1 & H).
  apply read_wptr_Some in H1 as [-> ->].
  pose proof (keeps_WeakPtr_lock _ _ _ _ H) as Hw.
  eapply WeakPtr_lock_inv in H; [| exact HI | done | | exact Hcs].
  - rewrite Hw. exact H.
  - intros b Hb. simpl.
    destruct (wptrs m !! l) as [w|] eqn:Hl; [|discriminate].
    pose proof (refs_lookup wcb _ _ _ _ Hl Hb). lia.
Qed.
End SharedOps.

(** ** Invariants under the statements of a program *)

Section RefsUpdate.
Context {K A : Type} `{Countable K} (get : A → option blk).

Lemma refs_insert_new (m : gmap K A) k v b :
  m !! k = None →
  refs get (<[k:=v]> m) b = (refs get m b + one (get v) b)%nat.
Proof.
  intros Hk. pose proof (refs_insert get m k v b) as Hi.
  rewrite Hk in Hi. simpl in Hi. lia.
Qed.

Lemma refs_insert_old (m : gmap K A) k v o b :
  m !! k = Some o →
  (refs get (<[k:=v]> m) b + one (get o) b
   = refs get m b + one (get v) b)%nat.
Proof.
  intros Hk. pose proof (refs_insert get m k v b) as Hi.
  rewrite Hk in Hi. simpl in Hi. lia.
Qed.

Lemma refs_delete_old (m : gmap K A) k o b :
  m !! k = Some o →
  (refs get (delete k m) b + one (get o) b = refs get m b)%nat.
Proof.
  intros Hk. pose proof (refs_delete get m k b) as Hi.
  rewrite Hk in Hi. simpl in Hi. lia.
Qed.
End RefsUpdate.

Section Statements.
Variable e : bool.
Variable cv : bool.

Lemma declare_shared_inv n k x c s s' :
  Inv e n s →
  declare_shared x c s = Some s' →
  (∀ r m', c (mem s) = Some (r, m') →
     InvC e k (λ b, strong_refs s b + one (cb r) b)%nat
       (λ b, refs wcb (weak s) b + refs wcb (wptrs m') b)%nat m') →
  Inv e k s'.
Proof.
  intros HI H Hc. unfold declare_shared in H.
  destruct (shared s !! x) eqn:Hx; [discriminate|].
  destruct (c (mem s)) as [[h m]|] eqn:Hr; [|discriminate].
  injection H as <-. specialize (Hc h m eq_refl).
  unfold Inv. simpl. eapply InvC_eq; [exact Hc | | done].
  intros b. unfold strong_refs. simpl. by apply refs_insert_new.
Qed.

Lemma declare_weak_inv n k w c s s' :
  Inv e n s →
  keeps_wptrs c →
  declare_weak w c s = Some s' →
  (∀ r m', c (mem s) = Some (r, m') →
     InvC e k (strong_refs s)
       (λ b, weak_refs s b + one (wcb r) b)%nat m') →
  Inv e k s'.
Proof.
  intros HI Hk H Hc. unfold declare_weak in H.
  destruct (weak s !! w) eqn:Hw; [discriminate|].
  destruct (c (mem s)) as [[h m]|] eqn:Hr; [|discriminate].
  injection H as <-. specialize (Hc h m eq_refl).
  unfold Inv. simpl. eapply InvC_eq; [exact Hc | done |].
  intros b. unfold weak_refs. simpl.
  rewrite (Hk _ _ _ Hr), (refs_insert_new wcb _ _ _ _ Hw). lia.
Qed.

Lemma shared_live n s x h b :
  Inv e n s → shared s !! x = Some h → cb h = Some b →
  (0 < strong_refs s b)%nat.
Proof. intros _ Hx Hb. by eapply refs_lookup. Qed.

Lemma weak_live n s w h b :
  Inv e n s → weak s !! w = Some h → wcb h = Some b →
  (0 < weak_refs s b)%nat.
Proof.
  intros _ Hw Hb. unfold weak_refs.
  pose proof (refs_lookup wcb _ _ _ _ Hw Hb). lia.
Qed.

Lemma exec_declare_inv n c s s' :
  Inv e n s → N.of_nat (S n) < SIZE_MAX →
  match c with
  | SharedDefault _ | SharedFromPtr _ _ _ | MakeShared _ | SharedCopy _ _
  | Lock _ _ | SharedFromThis _ _
  | WeakDefault _ | WeakFromShared _ _ | WeakCopy _ _ => True
  | _ => False
  end →
  exec e cv c s = Some s' →
  Inv e (S (S n)) s'.
Proof.
  intros HI Hn Hc H. destruct c; try done; simpl in H.
  - (* SharedDefault *)
    eapply declare_shared_inv; [exact HI | exact H |].
    intros r m' [-> ->]%ret_Some.
    eapply InvC_ext; [exact HI | | done | lia | lia | done ..].
    intros b. simpl. rewrite one_None. lia.
  - (* SharedFromPtr *)
    eapply declare_shared_inv; [exact HI | exact H |].
    intros r m' Hr.
    eapply InvC_mono; [| | lia].
    + eapply SharedPtr_ctor_ptr_inv; [exact HI | lia | done | exact Hr].
    + lia.
  - (* MakeShared *)
    eapply declare_shared_inv; [exact HI | exact H |].
    intros r m' Hr.
    eapply makeShared_inv; [exact HI | lia | done | exact Hr].
  - (* SharedCopy *)
    destruct (shared s !! y) as [hy|] eqn:Hy; [|discriminate].
    eapply declare_shared_inv; [exact HI | exact H |].
    intros r m' Hr.
    pose proof (SharedPtr_ctor_copy_val _ _ _ _ _ Hr) as ->.
    eapply SharedPtr_ctor_copy_inv; [exact HI | lia | | done | exact Hr].
    intros b Hb. by eapply shared_live.
  - (* WeakDefault *)
    eapply declare_weak_inv; [exact HI | apply keeps_ret | exact H |].
    intros r m' [-> ->]%ret_Some.
    eapply InvC_ext; [exact HI | done | | lia | lia | done ..].
    intros b. simpl. rewrite one_None. lia.
  - (* WeakFromShared *)
    destruct (shared s !! x) as [hx|] eqn:Hx; [|discriminate].
    eapply declare_weak_inv;
      [exact HI | apply keeps_WeakPtr_ctor_shared | exact H |].
    intros r m' Hr.
    pose proof (WeakPtr_ctor_shared_val _ _ _ _ Hr) as ->.
    eapply InvC_mono; [| | lia].
    + eapply WeakPtr_ctor_shared_inv; [exact HI | lia | | done | exact Hr].
      intros b Hb. by eapply shared_live.
    + lia.
  - (* WeakCopy *)
    destruct (weak s !! v) as [hv|] eqn:Hv; [|discriminate].
    eapply declare_weak_inv;
      [exact HI | apply keeps_WeakPtr_ctor_copy | exact H |].
    intros r m' Hr.
    pose proof (WeakPtr_ctor_copy_val _ _ _ _ Hr) as ->.
    eapply InvC_mono; [| | lia].
    + eapply WeakPtr_ctor_copy_inv; [exact HI | lia | | done | exact Hr].
      intros b Hb. by eapply weak_live.
    + lia.
  - (* Lock *)
    destruct (weak s !! w) as [hw|] eqn:Hw; [|discriminate].
    eapply declare_shared_inv; [exact HI | exact H |].
    intros r m' Hr.
    rewrite (keeps_WeakPtr_lock _ _ _ _ Hr).
    eapply WeakPtr_lock_inv; [exact HI | lia | | done | exact Hr].
    intros b Hb. by eapply weak_live.
  - (* SharedFromThis *)
    eapply declare_shared_inv; [exact HI | exact H |].
    intros r m' Hr.
    eapply shared_from_this_inv; [exact HI | lia | done | exact Hr].
Qed.
End Statements.

Section Statements2.
Variable e : bool.
Variable cv : bool.

Lemma eta_shared h : mkShared (object h) (cb h) = h.
Proof. by destruct h. Qed.

Lemma eta_weak h : mkWeak (wobject h) (wcb h) = h.
Proof. by destruct h. Qed.

Lemma exec_shared_update_inv n c s s' :
  Inv e n s → N.of_nat (S n) < SIZE_MAX →
  match c with
  | SharedMove _ _ | SharedAssign _ _ | SharedMoveAssign _ _
  | SharedReset _ | SharedResetPtr _ _ _ | SharedSwap _ _
  | SharedDestroy _ => True
  | _ => False
  end →
  exec e cv c s = Some s' →
  Inv e (S (S n)) s'.
Proof.
  intros HI Hn Hc H. destruct c; try done; simpl in H.
  - (* SharedMove *)
    destruct (shared s !! x) eqn:Hx; [discriminate|].
    destruct (shared s !! y) as [hy|] eqn:Hy; [|discriminate].
    destruct (SharedPtr_ctor_rvalue e cv hy (mem s)) as [[[hx hy'] m]|]
      eqn:Hr; [|discriminate].
    injection H as <-. destruct cv.
    + (* the template *)
      unfold SharedPtr_ctor_rvalue in Hr.
      eapply SharedPtr_ctor_move_inv in Hr as (-> & -> & HI1);
        [| exact HI | lia |].
      * unfold Inv. simpl. eapply InvC_ext;
          [exact HI1 | | done | lia | lia | done ..].
        intros b. unfold strong_refs. simpl.
        assert (x ≠ y) by congruence.
        pose proof (refs_insert cb (<[y:=mkShared None None]> (shared s)) x
                      (mkShared (object hy) (cb hy)) b) as F1.
        pose proof (refs_insert cb (shared s) y (mkShared None None) b)
          as F2.
        rewrite lookup_insert_ne, Hx in F1 by done. rewrite Hy in F2.
        simpl in F1, F2. rewrite one_None in F2. lia.
      * intros b Hb. by eapply shared_live.
    + (* the copy constructor *)
      rewrite SharedPtr_ctor_rvalue_copy in Hr.
      destruct (SharedPtr_ctor_copy e hy (mem s)) as [[r m1]|] eqn:Hcp;
        [|discriminate].
      injection Hr as <- <- <-.
      pose proof (SharedPtr_ctor_copy_val e _ _ _ _ Hcp) as Hval.
      eapply (SharedPtr_ctor_copy_inv e n (strong_refs s)
                (λ b, strong_refs s b + one (cb hy) b)%nat
                (refs wcb (weak s))) in Hcp;
        [| exact HI | lia | | done].
      * unfold Inv. simpl. eapply InvC_eq; [exact Hcp | | done].
        intros b. unfold strong_refs. simpl.
        rewrite (insert_id (shared s) y hy) by done.
        pose proof (refs_insert cb (shared s) x r b) as F1.
        rewrite Hx in F1. simpl in F1. rewrite Hval in F1 |- *.
        simpl in F1. lia.
      * intros b Hb. by eapply shared_live.
  - (* SharedAssign *)
    destruct (shared s !! x) as [hx|] eqn:Hx; [|discriminate].
    destruct (shared s !! y) as [hy|] eqn:Hy; [|discriminate].
    destruct (SharedPtr_assign_copy e (bool_decide (x = y)) hx hy (mem s))
      as [[hx' m]|] eqn:Hr; [|discriminate].
    injection H as <-.
    eapply (SharedPtr_assign_copy_inv e n (refs cb (delete x (shared s)))
              (refs wcb (weak s))) in Hr.
    + unfold Inv. simpl. eapply InvC_eq; [exact Hr | | done].
      intros b. unfold strong_refs. simpl.
      pose proof (refs_insert_old cb _ _ hx' _ b Hx).
      pose proof (refs_delete_old cb _ _ _ b Hx). lia.
    + eapply InvC_eq; [exact HI | | done].
      intros b. pose proof (refs_delete_old cb _ _ _ b Hx).
      unfold strong_refs. lia.
    + lia.
    + intros b Hb. pose proof (shared_live e _ _ _ _ _ HI Hy Hb).
      pose proof (refs_delete_old cb _ _ _ b Hx).
      unfold strong_refs in *. lia.
  - (* SharedMoveAssign *)
    destruct (shared s !! x) as [hx|] eqn:Hx; [|discriminate].
    destruct (shared s !! y) as [hy|] eqn:Hy; [|discriminate].
    destruct (SharedPtr_assign_move e cv (bool_decide (x = y)) hx hy
                (mem s))
      as [[[hx' hy'] m]|] eqn:Hr; [|discriminate].
    injection H as <-.
    destruct cv.
    + (* the template *)
      destruct (decide (x = y)) as [<-|Hne].
      * rewrite bool_decide_eq_true_2 in Hr by done.
        assert (hy = hx) as -> by congruence.
        eapply SharedPtr_assign_move_self in Hr as (-> & -> & HI1);
          [| exact HI | lia |].
        -- unfold Inv. simpl. eapply InvC_ext;
             [exact HI1 | | done | lia | lia | done ..].
           intros b. unfold strong_refs. simpl.
           rewrite insert_insert_eq, eta_shared, insert_id; done.
        -- intros b Hb. by eapply shared_live.
      * rewrite bool_decide_eq_false_2 in Hr by done.
        eapply (SharedPtr_assign_move_inv e n
                  (refs cb (delete x (delete y (shared s))))
                  (refs wcb (weak s))) in Hr as (-> & -> & HI1).
        -- unfold Inv. simpl. eapply InvC_ext;
             [exact HI1 | | done | lia | lia | done ..].
           intros b. unfold strong_refs. simpl.
           pose proof (refs_insert cb (<[y:=mkShared None None]> (shared s)) x
                         (mkShared (object hy) (cb hy)) b) as F1.
           pose proof (refs_insert cb (shared s) y (mkShared None None) b)
             as F2.
           pose proof (refs_delete cb (delete y (shared s)) x b) as F3.
           pose proof (refs_delete cb (shared s) y b) as F4.
           rewrite lookup_insert_ne, Hx in F1 by done. rewrite Hy in F2, F4.
           rewrite lookup_delete_ne, Hx in F3 by done.
           simpl in F1, F2, F3, F4. rewrite one_None in F2. lia.
        -- eapply InvC_eq; [exact HI | | done].
           intros b. unfold strong_refs.
           pose proof (refs_delete cb (delete y (shared s)) x b) as F3.
           pose proof (refs_delete cb (shared s) y b) as F4.
           rewrite Hy in F4. rewrite lookup_delete_ne, Hx in F3 by done.
           simpl in F3, F4. lia.
        -- lia.
    + (* the copy constructor *)
      rewrite SharedPtr_assign_move_copy in Hr.
      assert (Hthis : (if bool_decide (x = y) then hy else hx) = hx).
      { case_bool_decide as Hxy; [|done]. subst y. congruence. }
      rewrite Hthis in Hr.
      destruct (SharedPtr_assign_copy e false hx hy (mem s)) as [[r m1]|]
        eqn:Hcp; [|discriminate].
      injection Hr as <- <- <-.
      assert (Hst : <[x:=r]>
                      (<[y:=if bool_decide (x = y) then r else hy]> (shared s))
                    = <[x:=r]> (shared s)).
      { case_bool_decide as Hxy.
        - subst y. by rewrite insert_insert_eq.
        - by rewrite (insert_id (shared s) y hy). }
      rewrite Hst.
      eapply (SharedPtr_assign_copy_inv e n (refs cb (delete x (shared s)))
                (refs wcb (weak s))) in Hcp.
      * unfold Inv. simpl. eapply InvC_eq; [exact Hcp | | done].
        intros b. unfold strong_refs. simpl.
        pose proof (refs_insert_old cb _ _ r _ b Hx).
        pose proof (refs_delete_old cb _ _ _ b Hx). lia.
      * eapply InvC_eq; [exact HI | | done].
        intros b. pose proof (refs_delete_old cb _ _ _ b Hx).
        unfold strong_refs. lia.
      * lia.
      * intros b Hb. pose proof (shared_live e _ _ _ _ _ HI Hy Hb).
        pose proof (refs_delete_old cb _ _ _ b Hx).
        unfold strong_refs in *. lia.
  - (* SharedReset *)
    destruct (shared s !! x) as [hx|] eqn:Hx; [|discriminate].
    destruct (SharedPtr_reset e hx (mem s)) as [[hx' m]|] eqn:Hr;
      [|discriminate].
    injection H as <-.
    eapply (SharedPtr_reset_inv e n (refs cb (delete x (shared s)))
              (refs wcb (weak s))) in Hr as [-> HI1].
    + unfold Inv. simpl. eapply InvC_ext;
        [exact HI1 | | done | lia | lia | done ..].
      intros b. unfold strong_refs. simpl.
      pose proof (refs_insert_old cb _ _ (mkShared None None) _ b Hx) as F1.
      pose proof (refs_delete_old cb _ _ _ b Hx).
      simpl in F1. rewrite one_None in F1. lia.
    + eapply InvC_eq; [exact HI | | done].
      intros b. pose proof (refs_delete_old cb _ _ _ b Hx).
      unfold strong_refs. lia.
  - (* SharedResetPtr *)
    destruct (shared s !! x) as [hx|] eqn:Hx; [|discriminate].
    destruct (SharedPtr_reset_ptr e hx ptr del (mem s)) as [[hx' m]|]
      eqn:Hr; [|discriminate].
    injection H as <-.
    eapply (SharedPtr_reset_ptr_inv e n (refs cb (delete x (shared s)))
              (refs wcb (weak s))) in Hr.
    + unfold Inv. simpl. eapply InvC_ext;
        [exact Hr | | done | lia | lia | done ..].
      intros b. unfold strong_refs. simpl.
      pose proof (refs_insert_old cb _ _ hx' _ b Hx).
      pose proof (refs_delete_old cb _ _ _ b Hx). lia.
    + eapply InvC_eq; [exact HI | | done].
      intros b. pose proof (refs_delete_old cb _ _ _ b Hx).
      unfold strong_refs. lia.
    + lia.
  - (* SharedSwap *)
    destruct (shared s !! x) as [hx|] eqn:Hx; [|discriminate].
    destruct (shared s !! y) as [hy|] eqn:Hy; [|discriminate].
    simpl in H. injection H as <-.
    unfold Inv. simpl. eapply InvC_ext;
      [exact HI | | done | lia | lia | done ..].
    intros b. unfold strong_refs. simpl.
    pose proof (refs_insert cb
                  (<[y:=mkShared (object hx) (cb hx)]> (shared s)) x
                  (mkShared (object hy) (cb hy)) b) as F1.
    pose proof (refs_insert cb (shared s) y
                  (mkShared (object hx) (cb hx)) b) as F2.
    rewrite Hy in F2. simpl in F2.
    destruct (decide (x = y)) as [<-|Hne].
    + rewrite lookup_insert_eq in F1. simpl in F1.
      assert (hy = hx) as -> by congruence. lia.
    + rewrite lookup_insert_ne, Hx in F1 by done. simpl in F1. lia.
  - (* SharedDestroy *)
    destruct (shared s !! x) as [hx|] eqn:Hx; [|discriminate].
    destruct (SharedPtr_dtor e hx (mem s)) as [[[] m]|] eqn:Hr;
      [|discriminate].
    injection H as <-.
    eapply (SharedPtr_clear_inv e n _ (refs cb (delete x (shared s)))
              (refs wcb (weak s))) in Hr; [| exact HI |].
    + unfold Inv. simpl. eapply InvC_mono; [exact Hr | lia | lia].
    + intros b. pose proof (refs_delete_old cb _ _ _ b Hx).
      unfold strong_refs. lia.
Qed.
End Statements2.

Section Statements3.
Variable e : bool.
Variable cv : bool.

Lemma exec_weak_update_inv n c s s' :
  Inv e n s → N.of_nat (S n) < SIZE_MAX →
  match c with
  | WeakMove _ _ | WeakAssign _ _ | WeakMoveAssign _ _ | WeakDestroy _ =>
      True
  | _ => False
  end →
  exec e cv c s = Some s' →
  Inv e (S (S n)) s'.
Proof.
  intros HI Hn Hc H. destruct c; try done; simpl in H.
  - (* WeakMove *)
    destruct (weak s !! w) eqn:Hw; [discriminate|].
    destruct (weak s !! v) as [hv|] eqn:Hv; [|discriminate].
    simpl in H. injection H as <-.
    unfold Inv. simpl. eapply InvC_ext;
      [exact HI | done | | lia | lia | done ..].
    intros b. unfold weak_refs. simpl.
    assert (w ≠ v) by congruence.
    pose proof (refs_insert wcb (<[v:=mkWeak None None]> (weak s)) w
                  (mkWeak (wobject hv) (wcb hv)) b) as F1.
    pose proof (refs_insert wcb (weak s) v (mkWeak None None) b) as F2.
    rewrite lookup_insert_ne, Hw in F1 by done. rewrite Hv in F2.
    simpl in F1, F2. rewrite one_None in F2. lia.
  - (* WeakAssign *)
    destruct (weak s !! w) as [hw|] eqn:Hw; [|discriminate].
    destruct (weak s !! v) as [hv|] eqn:Hv; [|discriminate].
    destruct (WeakPtr_assign_copy (bool_decide (w = v)) hw hv (mem s))
      as [[hw' m]|] eqn:Hr; [|discriminate].
    injection H as <-.
    pose proof (keeps_WeakPtr_assign_copy _ _ _ _ _ _ Hr) as Hk.
    eapply (WeakPtr_assign_copy_inv e n (strong_refs s)
              (λ b, refs wcb (delete w (weak s)) b
                    + refs wcb (wptrs (mem s)) b)%nat) in Hr.
    + unfold Inv. simpl. eapply InvC_ext;
        [exact Hr | done | | lia | lia | done ..].
      intros b. unfold weak_refs. simpl. rewrite Hk.
      pose proof (refs_insert_old wcb _ _ hw' _ b Hw).
      pose proof (refs_delete_old wcb _ _ _ b Hw). lia.
    + eapply InvC_eq; [exact HI | done |].
      intros b. pose proof (refs_delete_old wcb _ _ _ b Hw).
      unfold weak_refs. lia.
    + lia.
    + intros b Hb. pose proof (weak_live e _ _ _ _ _ HI Hv Hb).
      pose proof (refs_delete_old wcb _ _ _ b Hw).
      unfold weak_refs in *. lia.
  - (* WeakMoveAssign *)
    destruct (weak s !! w) as [hw|] eqn:Hw; [|discriminate].
    destruct (weak s !! v) as [hv|] eqn:Hv; [|discriminate].
    destruct (WeakPtr_assign_move (bool_decide (w = v)) hw hv (mem s))
      as [[[hw' hv'] m]|] eqn:Hr; [|discriminate].
    injection H as <-.
    destruct (decide (w = v)) as [<-|Hne].
    + rewrite bool_decide_eq_true_2 in Hr by done.
      assert (hv = hw) as -> by congruence.
      apply WeakPtr_assign_move_self in Hr as (-> & -> & ->).
      unfold Inv. simpl. eapply InvC_ext;
        [exact HI | done | | lia | lia | done ..].
      intros b. unfold weak_refs. simpl.
      rewrite insert_insert_eq, eta_weak, insert_id; done.
    + rewrite bool_decide_eq_false_2 in Hr by done.
      pose proof (keeps_WeakPtr_assign_move _ _ _ _ _ _ Hr) as Hk.
      eapply (WeakPtr_assign_move_inv e n (strong_refs s)
                (λ b, refs wcb (delete w (delete v (weak s))) b
                      + refs wcb (wptrs (mem s)) b)%nat)
        in Hr as (-> & -> & HI1).
      * unfold Inv. simpl. eapply InvC_ext;
          [exact HI1 | done | | lia | lia | done ..].
        intros b. unfold weak_refs. simpl. rewrite Hk.
        pose proof (refs_insert wcb (<[v:=mkWeak None None]> (weak s)) w
                      (mkWeak (wobject hv) (wcb hv)) b) as F1.
        pose proof (refs_insert wcb (weak s) v (mkWeak None None) b) as F2.
        pose proof (refs_delete wcb (delete v (weak s)) w b) as F3.
        pose proof (refs_delete wcb (weak s) v b) as F4.
        rewrite lookup_insert_ne, Hw in F1 by done. rewrite Hv in F2, F4.
        rewrite lookup_delete_ne, Hw in F3 by done.
        simpl in F1, F2, F3, F4. rewrite one_None in F2. lia.
      * eapply InvC_eq; [exact HI | done |].
        intros b. unfold weak_refs.
        pose proof (refs_delete wcb (delete v (weak s)) w b) as F3.
        pose proof (refs_delete wcb (weak s) v b) as F4.
        rewrite Hv in F4. rewrite lookup_delete_ne, Hw in F3 by done.
        simpl in F3, F4. lia.
  - (* WeakDestroy *)
    destruct (weak s !! w) as [hw|] eqn:Hw; [|discriminate].
    destruct (WeakPtr_dtor hw (mem s)) as [[[] m]|] eqn:Hr;
      [|discriminate].
    injection H as <-.
    eapply (WeakPtr_clear_inv e n _ _
              (λ b, refs wcb (delete w (weak s)) b
                    + refs wcb (wptrs (mem s)) b)%nat)
      in Hr as [HI1 Hk]; [| exact HI |].
    + unfold Inv. simpl. eapply InvC_ext;
        [exact HI1 | done | | lia | lia | done ..].
      intros b. unfold weak_refs. simpl. by rewrite Hk.
    + intros b. pose proof (refs_delete_old wcb _ _ _ b Hw).
      unfold weak_refs. lia.
Qed.

(** Every statement keeps the invariant. *)
Lemma exec_inv n c s s' :
  Inv e n s → N.of_nat (S n) < SIZE_MAX →
  exec e cv c s = Some s' →
  Inv e (S (S n)) s'.
Proof.
  intros HI Hn H.
  destruct c;
    first [ by eapply exec_declare_inv; eauto
          | by eapply exec_shared_update_inv; eauto
          | by eapply exec_weak_update_inv; eauto ].
Qed.

Lemma Inv_init : Inv e 0 init.
Proof.
  split.
  - split; simpl.
    + unfold SIZE_MAX. lia.
    + intros b. unfold strong_refs, weak_refs. simpl.
      rewrite !refs_empty. lia.
    + intros b c. rewrite lookup_empty. discriminate.
    + intros b _. unfold strong_refs, weak_refs. simpl.
      rewrite !refs_empty. lia.
    + intros b [c Hc]. rewrite lookup_empty in Hc. discriminate.
  - split.
    + intros _. split; simpl.
      * intros b c. rewrite lookup_empty. discriminate.
      * intros b c. rewrite lookup_empty. discriminate.
      * intros b c. rewrite lookup_empty. discriminate.
      * intros ev [].
      * intros [|? ?] ? ? ?; discriminate.
    + split; simpl.
      * intros b c. rewrite lookup_empty. discriminate.
      * intros b [].
Qed.

Lemma run_inv cmds : ∀ n s s',
  Inv e n s →
  N.of_nat (n + 2 * length cmds) < SIZE_MAX →
  run e cv cmds s = Some s' →
  Inv e (n + 2 * length cmds) s'.
Proof.
  induction cmds as [|c cmds IH]; intros n s s' HI Hn H; simpl in *.
  - injection H as <-. by rewrite Nat.add_0_r.
  - destruct (exec e cv c s) as [s1|] eqn:Hc; [|discriminate].
    apply (exec_inv n) in Hc; [| done | lia].
    replace (n + S (length cmds + S (length cmds + 0)))%nat
      with (S (S n) + 2 * length cmds)%nat by lia.
    apply (IH _ s1); [done | | done].
    simpl. replace (S (S (n + (length cmds + (length cmds + 0)))))%nat
      with (n + S (length cmds + S (length cmds + 0)))%nat by lia.
    exact Hn.
Qed.
End Statements3.

(** ** Operations that never call [destroy_object] *)

Lemma kd_bind {A B} (c : M A) (k : A → M B) :
  keeps_destroys c → (∀ a, keeps_destroys (k a)) → keeps_destroys (bind c k).
Proof.
  intros Hc Hk m r m'' b (a & m' & H1 & H2)%bind_Some.
  rewrite (Hk a _ _ _ b H2). by apply (Hc _ _ _ b H1).
Qed.

Lemma kd_ret {A} (a : A) : keeps_destroys (ret a).
Proof. by intros m r m' b [_ ->]%ret_Some. Qed.

Lemma kd_fault {A} : keeps_destroys (@fault A).
Proof. intros m r m' b [=]. Qed.

Lemma kd_read_cb b : keeps_destroys (read_cb b).
Proof. by intros m r m' x [_ ->]%read_cb_Some. Qed.

Lemma kd_write_cb b c : keeps_destroys (write_cb b c).
Proof. by intros m r m' x ->%write_cb_Some. Qed.

Lemma kd_read_wptr l : keeps_destroys (read_wptr l).
Proof. by intros m r m' x [_ ->]%read_wptr_Some. Qed.

Lemma kd_write_wptr l w : keeps_destroys (write_wptr l w).
Proof. by intros m r m' x ->%write_wptr_Some. Qed.

Lemma kd_remove_wptr l : keeps_destroys (remove_wptr l).
Proof. unfold remove_wptr. by intros m r m' x [= _ <-]. Qed.

Lemma kd_emit_dealloc b : keeps_destroys (emit (DeallocateCb b)).
Proof.
  intros m r m' x ->%emit_Some. simpl.
  rewrite occ_app, occ_single, decide_False by done. lia.
Qed.

Lemma kd_allocate c : keeps_destroys (allocate c).
Proof.
  unfold allocate. intros m r m' x [= _ <-]. simpl.
  rewrite occ_app, occ_single, decide_False by done. lia.
Qed.

Ltac kd :=
  repeat first
    [ apply kd_ret | apply kd_fault | apply kd_read_cb | apply kd_write_cb
    | apply kd_read_wptr | apply kd_write_wptr | apply kd_remove_wptr
    | apply kd_emit_dealloc | apply kd_allocate | apply kd_bind
    | match goal with
      | |- ∀ _, _ => intros ?
      | |- keeps_destroys (match ?x with _ => _ end) => destruct x
      | |- keeps_destroys (if ?x then _ else _) => destruct x
      | |- keeps_destroys (let '(_, _) := ?x in _) => destruct x
      end ].

Lemma kd_WeakPtr_clear w : keeps_destroys (WeakPtr_clear w).
Proof.
  unfold WeakPtr_clear, decr_weak_cnt, deallocate_cb. kd.
Qed.

Lemma kd_WeakPtr_ctor_shared sp : keeps_destroys (WeakPtr_ctor_shared sp).
Proof. unfold WeakPtr_ctor_shared, incr_weak_cnt. simpl. kd. Qed.

Lemma kd_WeakPtr_ctor_copy w : keeps_destroys (WeakPtr_ctor_copy w).
Proof. unfold WeakPtr_ctor_copy, incr_weak_cnt. simpl. kd. Qed.

Lemma kd_WeakPtr_assign_copy same this w :
  keeps_destroys (WeakPtr_assign_copy same this w).
Proof.
  unfold WeakPtr_assign_copy, WeakPtr_dtor. destruct same; [kd|].
  apply kd_bind; [apply kd_WeakPtr_ctor_copy|]. intros copy. simpl.
  apply kd_bind; [apply kd_WeakPtr_clear | kd].
Qed.

Lemma kd_WeakPtr_assign_move same this w :
  keeps_destroys (WeakPtr_assign_move same this w).
Proof.
  unfold WeakPtr_assign_move, WeakPtr_dtor. simpl.
  apply kd_bind; [apply kd_WeakPtr_clear | kd].
Qed.

Lemma kd_WeakPtr_lock w : keeps_destroys (WeakPtr_lock w).
Proof.
  unfold WeakPtr_lock, WeakPtr_expired, WeakPtr_use_count, WeakPtr_dtor.
  apply kd_bind; [kd|]. intros [|]; [kd|].
  apply kd_bind; [apply kd_WeakPtr_ctor_copy|]. intros arg.
  apply kd_bind;
    [unfold SharedPtr_ctor_weak, incr_shared_cnt; simpl; kd|].
  intros r. apply kd_bind; [apply kd_WeakPtr_clear | kd].
Qed.

Lemma kd_destroy_T e l : keeps_destroys (destroy_T e l).
Proof.
  unfold destroy_T, WeakPtr_dtor. destruct e; [|kd].
  apply kd_bind; [kd|]. intros w.
  apply kd_bind; [kd|]. intros _. apply kd_WeakPtr_clear.
Qed.

Lemma weak_statement_keeps_destroys e cv c s s' b :
  weak_statement c = true →
  exec e cv c s = Some s' →
  occ (DestroyObject b) (trace (mem s'))
  = occ (DestroyObject b) (trace (mem s)).
Proof.
  intros Hc H. destruct c; try discriminate; simpl in H;
    unfold declare_weak, declare_shared in H;
    repeat match type of H with
    | match ?x with _ => _ end = Some _ =>
        let E := fresh "E" in destruct x eqn:E; try discriminate
    end;
    try (injection H as <-; simpl).
  - by apply ret_Some in E0 as [_ ->].
  - by apply (kd_WeakPtr_ctor_shared _ _ _ _ b) in E1.
  - by apply (kd_WeakPtr_ctor_copy _ _ _ _ b) in E1.
  - done.
  - by apply (kd_WeakPtr_assign_copy _ _ _ _ _ _ b) in E1.
  - by apply (kd_WeakPtr_assign_move _ _ _ _ _ _ b) in E1.
  - by apply (kd_WeakPtr_clear _ _ _ _ b) in E0.
  - by apply (kd_WeakPtr_lock _ _ _ _ b) in E1.
Qed.

(** [SharedPtr::clear] calls [destroy_object] exactly when the decrement
    leaves [shared_cnt] at 0; [weak_cnt] is not consulted. *)
Lemma SharedPtr_clear_destroys e h b c m u m' :
  cb h = Some b → heap m !! b = Some c →
  SharedPtr_clear e h m = Some (u, m') →
  occ (DestroyObject b) (trace m')
  = (occ (DestroyObject b) (trace m)
     + if (pre_decr (shared_cnt c) =? 0)%N then 1 else 0)%nat.
Proof.
  intros Hb Hc H. unfold SharedPtr_clear in H. rewrite Hb in H.
  apply bind_Some in H as ([] & m1 & Hd & H).
  unfold decr_shared_cnt in Hd.
  apply bind_Some in Hd as (c0 & m0 & Hc0 & Hd).
  apply read_cb_Some in Hc0 as [Hc0 ->].
  assert (c0 = c) as -> by congruence.
  apply write_cb_Some in Hd as ->.
  apply bind_Some in H as (c1 & m2 & Hc1 & H).
  apply read_cb_Some in Hc1 as [Hc1 ->]. simpl in Hc1.
  rewrite lookup_insert_eq in Hc1. injection Hc1 as <-.
  cbn [shared_cnt] in H.
  destruct (pre_decr (shared_cnt c) =? 0).
  - apply bind_Some in H as ([] & m3 & Hdo & H).
    assert (Hk : keeps_destroys
      (let* c' := read_cb b in
       if weak_cnt c' =? 0 then deallocate_cb b else ret tt))
      by (unfold deallocate_cb; kd).
    rewrite (Hk _ _ _ b H). clear Hk H.
    unfold destroy_object in Hdo.
    apply bind_Some in Hdo as (c2 & m4 & Hc2 & Hdo).
    apply read_cb_Some in Hc2 as [Hc2 ->].
    apply bind_Some in Hdo as ([] & m5 & He & Hdo).
    apply emit_Some in He as ->.
    assert (Hk : occ (DestroyObject b) (trace m3)
                 = occ (DestroyObject b) (trace m ++ [DestroyObject b])).
    { destruct (derived c2) as [[p|] [|]|];
        first [ by apply (kd_destroy_T e _ _ _ _ b) in Hdo
              | by apply ret_Some in Hdo as [_ ->] ]. }
    rewrite Hk, occ_app, occ_single, decide_True by done. done.
  - apply ret_Some in H as [_ ->]. simpl. lia.
Qed.

(** * The counting discipline *)

(** C2.  Whatever a program has done with strong and weak handles
    (declarations by copy, move, factory or [lock], assignments, resets,
    swaps, ends of lifetime), the [shared_cnt] of every block is the number
    of live strong handles that reference it and its [weak_cnt] is the number
    of live weak handles that reference it (weak variables and [wptr]
    members); no handle references a block that was never allocated.  The
    weak side has no say in the destruction of the object: the object of a
    block has been destroyed, once, exactly if no live strong handle
    references the block, whatever its [weak_cnt]; no statement on a weak
    handle calls [destroy_object]; and the end of a strong handle calls it
    exactly when that handle was the only strong one on the block. *)
Theorem counts_equal_live_handles (e cv : bool) (cmds : list Cmd)
    (s : State) :
  N.of_nat (2 * length cmds) < SIZE_MAX →
  run e cv cmds init = Some s →
  (∀ b c, heap (mem s) !! b = Some c →
     shared_cnt c = N.of_nat (strong_refs s b) ∧
     weak_cnt c = N.of_nat (weak_refs s b)) ∧
  (∀ b, heap (mem s) !! b = None →
     strong_refs s b = 0%nat ∧ weak_refs s b = 0%nat) ∧
  (∀ b c, heap (mem s) !! b = Some c →
     occ (DestroyObject b) (trace (mem s))
     = if decide (strong_refs s b = 0%nat) then 1%nat else 0%nat) ∧
  (∀ st s' b, weak_statement st = true → exec e cv st s = Some s' →
     occ (DestroyObject b) (trace (mem s'))
     = occ (DestroyObject b) (trace (mem s))) ∧
  (∀ x h b s', shared s !! x = Some h → cb h = Some b →
     exec e cv (SharedDestroy x) s = Some s' →
     occ (DestroyObject b) (trace (mem s'))
     = (occ (DestroyObject b) (trace (mem s))
        + if decide (strong_refs s b = 1%nat) then 1 else 0)%nat).
Proof.
  intros Hn Hrun.
  pose proof (run_inv e cv cmds 0 init s (Inv_init e) Hn Hrun)
    as (HC & _ & HD).
  simpl in HC.
  split; [apply (ci_counts _ _ _ _ HC)|].
  split; [apply (ci_valid _ _ _ _ HC)|].
  split.
  { intros b c Hc. rewrite (di_destroy _ HD _ _ Hc).
    destruct (ci_counts _ _ _ _ HC _ _ Hc) as [Hs _].
    unfold destroy_due. rewrite Hs.
    destruct (N.eqb_spec (N.of_nat (strong_refs s b)) 0);
      case_decide; try done; lia. }
  split; [intros st s' b; apply weak_statement_keeps_destroys|].
  intros x h b s' Hx Hb H. simpl in H. rewrite Hx in H.
  destruct (SharedPtr_dtor e h (mem s)) as [[[] m']|] eqn:Hd; [|discriminate].
  injection H as <-. simpl.
  destruct (heap (mem s) !! b) as [c|] eqn:Hc.
  - rewrite (SharedPtr_clear_destroys e h b c _ _ _ Hb Hc Hd).
    destruct (ci_counts _ _ _ _ HC _ _ Hc) as [Hs _].
    pose proof (ci_le _ _ _ _ HC b) as [Hle _].
    pose proof (ci_bound _ _ _ _ HC) as Hb'.
    assert (Hz : pre_decr (shared_cnt c) = 0 ↔ shared_cnt c = 1)
      by (apply pre_decr_zero; lia).
    destruct (N.eqb_spec (pre_decr (shared_cnt c)) 0) as [H0|H0];
      case_decide; try done; lia.
  - pose proof (refs_lookup cb _ _ _ _ Hx Hb) as Hl.
    destruct (ci_valid _ _ _ _ HC _ Hc) as [Hz _].
    unfold strong_refs in Hz. lia.
Qed.

Lemma counts_equal_live_handles_witness :
  N.of_nat (2 * length sharing_program) < SIZE_MAX ∧
  run false true sharing_program init = Some sharing_state ∧
  ∀ b c, heap (mem sharing_state) !! b = Some c →
    shared_cnt c = N.of_nat (strong_refs sharing_state b) ∧
    weak_cnt c = N.of_nat (weak_refs sharing_state b).
Proof.
  split; [vm_compute; reflexivity|].
  split; [vm_compute; reflexivity|].
  apply (counts_equal_live_handles false true sharing_program sharing_state);
    vm_compute; reflexivity.
Defined.

(** * Destruction and release *)


(** C1, at an object type that derives from [EnableSharedFromThis]: the
    factory registers the object's own [wptr], so the block has counters
    (1,1); when the only strong handle ends, [SharedPtr::clear] writes
    [shared_cnt = 0] and calls [destroy_object]; the destructor of the
    object destroys [wptr], whose [clear] writes [weak_cnt = 0], finds both
    counters 0 and calls [deallocate_cb]; back in [SharedPtr::clear],
    [weak_cnt == 0] holds and [deallocate_cb] is called a second time.  The
    same happens to a block made from a raw pointer once a copy of the handle
    has registered [wptr]. *)
Theorem self_observing_block_released_twice :
  (trace ∘ mem) <$> run true true [MakeShared "a"] init
    = Some [Allocate 1] ∧
  (λ s, counts (mem s) 1) <$> run true true [MakeShared "a"] init
    = Some (Some (1, 1)) ∧
  (trace ∘ mem) <$> run true true [MakeShared "a"; SharedDestroy "a"] init
    = Some [Allocate 1; DestroyObject 1; DeallocateCb 1; DeallocateCb 1] ∧
  (trace ∘ mem) <$>
    run true true
      [SharedFromPtr "a" (Some 7) default_delete; SharedCopy "b" "a";
       SharedDestroy "b"; SharedDestroy "a"] init
    = Some [Allocate 1; DestroyObject 1; DeallocateCb 1; DeallocateCb 1].
Proof. vm_compute. repeat split; reflexivity. Qed.

(** C7.  The scenario, for an object type without [EnableSharedFromThis]:
    the counters of the block after each step, with the calls made so far;
    [W.expired()] after [B] has ended. *)
Theorem scenario_counts (cv : bool) :
  observe false cv (take 1 scenario) = Some (Some (1, 0), [Allocate 1]) ∧
  observe false cv (take 2 scenario) = Some (Some (2, 0), [Allocate 1]) ∧
  observe false cv (take 3 scenario) = Some (Some (1, 0), [Allocate 1]) ∧
  observe false cv (take 4 scenario) = Some (Some (1, 1), [Allocate 1]) ∧
  observe false cv (take 5 scenario)
    = Some (Some (0, 1), [Allocate 1; DestroyObject 1]) ∧
  (run false cv (take 5 scenario) init ≫= λ s, expired_of s "W")
  = Some true ∧
  observe false cv scenario
    = Some (Some (0, 0), [Allocate 1; DestroyObject 1; DeallocateCb 1]).
Proof. destruct cv; vm_compute; repeat split; reflexivity. Qed.

(** The same scenario for an object type that derives from
    [EnableSharedFromThis]: the object's own [wptr] is one more weak
    reference for as long as the object lives. *)
Lemma self_observing_scenario_counts (cv : bool) :
  observe true cv (take 1 scenario) = Some (Some (1, 1), [Allocate 1]) ∧
  observe true cv (take 2 scenario) = Some (Some (2, 1), [Allocate 1]) ∧
  observe true cv (take 3 scenario) = Some (Some (1, 1), [Allocate 1]) ∧
  observe true cv (take 4 scenario) = Some (Some (1, 2), [Allocate 1]) ∧
  observe true cv (take 5 scenario)
    = Some (Some (0, 1), [Allocate 1; DestroyObject 1]) ∧
  (run true cv (take 5 scenario) init ≫= λ s, expired_of s "W")
  = Some true ∧
  observe true cv scenario
    = Some (Some (0, 0), [Allocate 1; DestroyObject 1; DeallocateCb 1]).
Proof. destruct cv; vm_compute; repeat split; reflexivity. Qed.

(** * [use_count] *)

(** C5, at an empty strong handle: [SharedPtr::use_count] reads through the
    null block pointer, in every memory, where [WeakPtr::use_count] answers
    0; on a handle with a block it returns the block's [shared_cnt]. *)
Theorem SharedPtr_use_count_empty_faults :
  (∀ m, SharedPtr_use_count SharedPtr_ctor_default m = None) ∧
  (∀ m, WeakPtr_use_count WeakPtr_ctor_default m = Some (0, m)) ∧
  (run false true [SharedDefault "a"] init ≫= λ s, use_count_of s "a")
  = None ∧
  (∀ this b c m, cb this = Some b → heap m !! b = Some c →
     SharedPtr_use_count this m = Some (shared_cnt c, m)).
Proof.
  split; [done|]. split; [done|]. split; [vm_compute; reflexivity|].
  intros this b c m Hb Hc. unfold SharedPtr_use_count, bind, read_cb.
  by rewrite Hb, Hc.
Qed.

(** * [EnableSharedFromThis] *)

(** C4, on the raw-pointer path: the constructor calls
    [update_enable_shared_from_this] while [cb] is still null, so the
    object's [wptr] stays empty and [shared_from_this] returns an empty
    handle although a strong handle owns the object; [shared_cnt] stays 1.
    Only a later copy or move of the handle registers [wptr]. *)
Theorem raw_pointer_path_leaves_wptr_empty :
  let s1 := run true true [SharedFromPtr "a" (Some 7) default_delete] init in
  let s2 := run true true [SharedFromPtr "a" (Some 7) default_delete;
                      SharedFromThis "r" (Separate 7)] init in
  (λ s, wptrs (mem s) !! Separate 7) <$> s1 = Some None ∧
  (λ s, shared s !! "a") <$> s1 = Some (Some (mkShared (Some 7) (Some 1))) ∧
  (λ s, shared s !! "r") <$> s2 = Some (Some (mkShared None None)) ∧
  (λ s, counts (mem s) 1) <$> s2 = Some (Some (1, 0)).
Proof. vm_compute. repeat split; reflexivity. Qed.

(** The parts of C4 that hold: on the factory path [wptr] is registered and
    [shared_from_this] returns a handle on the same block, with [shared_cnt]
    one higher; an object whose [wptr] was never registered yields an empty
    handle. *)
Lemma fused_path_registers_wptr :
  let s1 := run true true [MakeShared "a"] init in
  let s2 := run true true
              [MakeShared "a"; SharedFromThis "r" (Embedded 1)] init in
  (λ s, wptrs (mem s) !! Embedded 1) <$> s1
    = Some (Some (mkWeak None (Some 1))) ∧
  (λ s, counts (mem s) 1) <$> s1 = Some (Some (1, 1)) ∧
  (λ s, shared s !! "r") <$> s2 = Some (Some (mkShared None (Some 1))) ∧
  (λ s, counts (mem s) 1) <$> s2 = Some (Some (2, 1)).
Proof. vm_compute. repeat split; reflexivity. Qed.

Lemma shared_from_this_unregistered l m :
  wptrs m !! l = None →
  shared_from_this l m = Some (mkShared None None, m).
Proof.
  intros Hl. unfold shared_from_this, bind, read_wptr. rewrite Hl. done.
Qed.

(** * [WeakPtr::lock], [use_count] and [expired] *)

Lemma WeakPtr_lock_expired this m :
  WeakPtr_expired this m = Some (true, m) →
  WeakPtr_lock this m = Some (mkShared None None, m).
Proof. intros H. unfold WeakPtr_lock, bind. rewrite H. done. Qed.

Lemma bind_ok {A B} (c : M A) (k : A → M B) m a m' :
  c m = Some (a, m') → bind c k m = k a m'.
Proof. intros H. unfold bind. by rewrite H. Qed.

Lemma incr_weak_cnt_eq b c m :
  heap m !! b = Some c →
  incr_weak_cnt b m
  = Some (tt, set_cb m b
                (mkCb (shared_cnt c) (pre_incr (weak_cnt c)) (derived c))).
Proof. intros H. unfold incr_weak_cnt, bind, read_cb. by rewrite H. Qed.

Lemma decr_weak_cnt_eq b c m :
  heap m !! b = Some c →
  decr_weak_cnt b m
  = Some (tt, set_cb m b
                (mkCb (shared_cnt c) (pre_decr (weak_cnt c)) (derived c))).
Proof. intros H. unfold decr_weak_cnt, bind, read_cb. by rewrite H. Qed.

Lemma incr_shared_cnt_eq b c m :
  heap m !! b = Some c →
  incr_shared_cnt b m
  = Some (tt, set_cb m b
                (mkCb (pre_incr (shared_cnt c)) (weak_cnt c) (derived c))).
Proof. intros H. unfold incr_shared_cnt, bind, read_cb. by rewrite H. Qed.

Lemma read_cb_eq b c m : heap m !! b = Some c → read_cb b m = Some (c, m).
Proof. intros H. unfold read_cb. by rewrite H. Qed.

Lemma set_cb_lookup m b c : heap (set_cb m b c) !! b = Some c.
Proof. apply lookup_insert_eq. Qed.

Lemma set_cb_set_cb m b c c' : set_cb (set_cb m b c) b c' = set_cb m b c'.
Proof. unfold set_cb. simpl. by rewrite insert_insert_eq. Qed.

Lemma WeakPtr_lock_alive this b c m :
  wcb this = Some b → heap m !! b = Some c →
  shared_cnt c ≠ 0 → shared_cnt c < SIZE_MAX → weak_cnt c ≤ SIZE_MAX →
  WeakPtr_lock this m
  = Some (mkShared (wobject this) (Some b),
          set_cb m b (mkCb (shared_cnt c + 1) (weak_cnt c) (derived c))).
Proof.
  intros Hb Hc Hnz Hs Hw. unfold WeakPtr_lock.
  rewrite (bind_ok _ _ m (shared_cnt c =? 0) m); cycle 1.
  { unfold WeakPtr_expired, WeakPtr_use_count, bind, read_cb.
    rewrite Hb, Hc. done. }
  destruct (N.eqb_spec (shared_cnt c) 0) as [|_]; [done|].
  erewrite bind_ok; cycle 1.
  { unfold WeakPtr_ctor_copy. simpl. rewrite Hb.
    erewrite bind_ok by (apply incr_weak_cnt_eq; exact Hc). done. }
  erewrite bind_ok; cycle 1.
  { unfold SharedPtr_ctor_weak. simpl.
    erewrite bind_ok by (apply incr_shared_cnt_eq; apply set_cb_lookup).
    done. }
  erewrite bind_ok; cycle 1.
  { unfold WeakPtr_dtor, WeakPtr_clear. simpl.
    erewrite bind_ok by (apply decr_weak_cnt_eq; apply set_cb_lookup).
    erewrite bind_ok by (apply read_cb_eq; apply set_cb_lookup).
    simpl. rewrite (pre_incr_small (shared_cnt c)) by done.
    destruct (N.eqb_spec (shared_cnt c + 1) 0) as [|_]; [lia|]. done. }
  simpl. rewrite !set_cb_set_cb, pre_decr_incr by done. done.
Qed.

(** C3.  In every state a program can reach, for every live weak handle
    [w]: [expired] answers; if it answers true, [lock] declares an empty
    strong handle and leaves the memory, hence every counter, as it was; if
    it answers false, [lock] declares a strong handle with the pointer pair
    of [w], the block's [shared_cnt] is one higher, its [weak_cnt] and all
    other blocks are as before. *)
Theorem lock_expired_or_shares (e cv : bool) (cmds : list Cmd)
    (s : State)
    (w x : string) (hw : WeakPtr) :
  N.of_nat (2 * length cmds) < SIZE_MAX →
  run e cv cmds init = Some s →
  weak s !! w = Some hw →
  shared s !! x = None →
  (expired_of s w = Some true ∧
   exec e cv (Lock x w) s
   = Some (mkState (mem s) (<[x:=mkShared None None]> (shared s)) (weak s)))
  ∨
  (expired_of s w = Some false ∧
   ∃ b c, wcb hw = Some b ∧ heap (mem s) !! b = Some c ∧
     exec e cv (Lock x w) s
     = Some (mkState
               (set_cb (mem s) b
                  (mkCb (shared_cnt c + 1) (weak_cnt c) (derived c)))
               (<[x:=mkShared (wobject hw) (Some b)]> (shared s))
               (weak s))).
Proof.
  intros Hn Hrun Hw Hx.
  pose proof (run_inv e cv cmds 0 init s (Inv_init e) Hn Hrun) as [HC _].
  simpl in HC. pose proof (ci_bound _ _ _ _ HC) as Hbound.
  unfold expired_of. rewrite Hw. simpl. unfold declare_shared.
  rewrite Hw, Hx.
  destruct (wcb hw) as [b|] eqn:Hb.
  - destruct (heap (mem s) !! b) as [c|] eqn:Hc.
    + destruct (ci_counts _ _ _ _ HC _ _ Hc) as [Hsc Hwc].
      pose proof (ci_le _ _ _ _ HC b) as [Hls Hlw].
      assert (Hex : WeakPtr_expired hw (mem s)
                    = Some (shared_cnt c =? 0, mem s)).
      { unfold WeakPtr_expired, WeakPtr_use_count, bind, read_cb.
        rewrite Hb, Hc. done. }
      rewrite Hex. simpl.
      destruct (N.eqb_spec (shared_cnt c) 0) as [Hz|Hnz].
      * left. split; [done|].
        rewrite WeakPtr_lock_expired; [done|].
        rewrite Hex. first [done | by rewrite Hz].
      * right. split; [done|]. exists b, c. split; [done|]. split; [done|].
        rewrite (WeakPtr_lock_alive hw b c) by (done || lia). done.
    + destruct (ci_valid _ _ _ _ HC _ Hc) as [_ Hz].
      pose proof (refs_lookup wcb _ _ _ _ Hw Hb) as Hpos.
      unfold weak_refs in Hz. lia.
  - left.
    assert (Hex : WeakPtr_expired hw (mem s) = Some (true, mem s)).
    { unfold WeakPtr_expired, WeakPtr_use_count, bind. rewrite Hb. done. }
    rewrite Hex. split; [done|].
    by rewrite WeakPtr_lock_expired.
Qed.

Lemma lock_expired_or_shares_witness :
  N.of_nat (2 * length sharing_program) < SIZE_MAX ∧
  run false true sharing_program init = Some sharing_state ∧
  weak sharing_state !! "W" = Some (mkWeak None (Some 1)) ∧
  shared sharing_state !! "L" = None ∧
  ((expired_of sharing_state "W" = Some true ∧
    exec false true (Lock "L" "W") sharing_state
    = Some (mkState (mem sharing_state)
              (<["L":=mkShared None None]> (shared sharing_state))
              (weak sharing_state)))
   ∨
   (expired_of sharing_state "W" = Some false ∧
    ∃ b c, wcb (mkWeak None (Some 1)) = Some b ∧
      heap (mem sharing_state) !! b = Some c ∧
      exec false true (Lock "L" "W") sharing_state
      = Some (mkState
                (set_cb (mem sharing_state) b
                   (mkCb (shared_cnt c + 1) (weak_cnt c) (derived c)))
                (<["L":=mkShared (wobject (mkWeak None (Some 1))) (Some b)]>
                   (shared sharing_state))
                (weak sharing_state)))).
Proof.
  assert (H1 : N.of_nat (2 * length sharing_program) < SIZE_MAX)
    by (vm_compute; reflexivity).
  assert (H2 : run false true sharing_program init = Some sharing_state)
    by (vm_compute; reflexivity).
  assert (H3 : weak sharing_state !! "W" = Some (mkWeak None (Some 1)))
    by (vm_compute; reflexivity).
  assert (H4 : shared sharing_state !! "L" = None)
    by (vm_compute; reflexivity).
  split; [exact H1|]. split; [exact H2|]. split; [exact H3|].
  split; [exact H4|].
  exact (lock_expired_or_shares false true sharing_program sharing_state
           "W" "L" (mkWeak None (Some 1)) H1 H2 H3 H4).
Defined.

(** What [lock] does on the two kinds of weak handle, in the scenario of a
    block shared by two strong handles and in that of a block whose last
    strong handle has ended. *)
Example lock_examples :
  (run false true (sharing_program ++ [Lock "L" "W"]) init
     ≫= λ s, pair (shared s !! "L") <$> counts (mem s) 1)
  = Some (Some (mkShared None (Some 1)), (3, 1)) ∧
  (run false true [MakeShared "A"; WeakFromShared "W" "A"; SharedDestroy "A";
              Lock "L" "W"] init
     ≫= λ s, pair (shared s !! "L") <$> counts (mem s) 1)
  = Some (Some (mkShared None None), (0, 1)).
Proof. vm_compute. split; reflexivity. Qed.

(** C8.  In every state a program can reach, for every live weak handle:
    [use_count] answers 0 when the block pointer is null and the block's
    [shared_cnt], which is the number of live strong handles on the block,
    otherwise; [expired] answers whether [use_count] is 0. *)
Theorem weak_use_count_and_expired (e cv : bool) (cmds : list Cmd)
    (s : State)
    (w : string) (hw : WeakPtr) :
  N.of_nat (2 * length cmds) < SIZE_MAX →
  run e cv cmds init = Some s →
  weak s !! w = Some hw →
  ∃ n,
    weak_use_count_of s w = Some n ∧
    expired_of s w = Some (n =? 0) ∧
    match wcb hw with
    | None => n = 0
    | Some b => ∃ c, heap (mem s) !! b = Some c ∧ n = shared_cnt c
                     ∧ n = N.of_nat (strong_refs s b)
    end.
Proof.
  intros Hn Hrun Hw.
  pose proof (run_inv e cv cmds 0 init s (Inv_init e) Hn Hrun) as [HC _].
  simpl in HC.
  unfold weak_use_count_of, expired_of, WeakPtr_expired, WeakPtr_use_count.
  rewrite Hw.
  destruct (wcb hw) as [b|] eqn:Hb.
  - destruct (heap (mem s) !! b) as [c|] eqn:Hc.
    + exists (shared_cnt c). unfold bind, read_cb. rewrite Hc. simpl.
      split; [done|]. split; [done|]. exists c.
      split; [done|]. split; [done|].
      apply (ci_counts _ _ _ _ HC _ _ Hc).
    + destruct (ci_valid _ _ _ _ HC _ Hc) as [_ Hz].
      pose proof (refs_lookup wcb _ _ _ _ Hw Hb) as Hpos.
      unfold weak_refs in Hz. lia.
  - exists 0. done.
Qed.

Lemma weak_use_count_and_expired_witness :
  N.of_nat (2 * length sharing_program) < SIZE_MAX ∧
  run false true sharing_program init = Some sharing_state ∧
  weak sharing_state !! "W" = Some (mkWeak None (Some 1)) ∧
  ∃ n,
    weak_use_count_of sharing_state "W" = Some n ∧
    expired_of sharing_state "W" = Some (n =? 0) ∧
    ∃ c, heap (mem sharing_state) !! 1 = Some c ∧ n = shared_cnt c
         ∧ n = N.of_nat (strong_refs sharing_state 1).
Proof.
  assert (H1 : N.of_nat (2 * length sharing_program) < SIZE_MAX)
    by (vm_compute; reflexivity).
  assert (H2 : run false true sharing_program init = Some sharing_state)
    by (vm_compute; reflexivity).
  assert (H3 : weak sharing_state !! "W" = Some (mkWeak None (Some 1)))
    by (vm_compute; reflexivity).
  split; [exact H1|]. split; [exact H2|]. split; [exact H3|].
  exact (weak_use_count_and_expired false true sharing_program sharing_state
           "W" (mkWeak None (Some 1)) H1 H2 H3).
Defined.

Example weak_use_count_examples :
  weak_use_count_of sharing_state "W" = Some 2 ∧
  expired_of sharing_state "W" = Some false ∧
  (run false true [WeakDefault "V"] init ≫= λ s, weak_use_count_of s "V")
  = Some 0 ∧
  (run false true [WeakDefault "V"] init ≫= λ s, expired_of s "V")
  = Some true.
Proof. vm_compute. repeat split; reflexivity. Qed.

(** * The in-place factory *)

Lemma update_plain this m :
  update_enable_shared_from_this false this m = Some (tt, m).
Proof. unfold update_enable_shared_from_this. by destruct (cb this). Qed.

Lemma makeShared_eq (e : bool) (m : Mem) :
  Fresh m →
  makeShared e m
  = Some (mkShared None (Some (next_cb m)),
          mkMem
            (<[next_cb m:=mkCb 1 (if e then 1 else 0) MakeSharedControlBlock]>
               (heap m))
            (if e
             then <[Embedded (next_cb m):=mkWeak None (Some (next_cb m))]>
                    (wptrs m)
             else wptrs m)
            (trace m ++ [Allocate (next_cb m)])
            (next_cb m + 1)).
Proof.
  intros (Hh & Hw & _). unfold makeShared.
  erewrite bind_ok by reflexivity.
  unfold SharedPtr_ctor_make_shared_cb. destruct e.
  - erewrite bind_ok; [reflexivity|].
    unfold update_enable_shared_from_this. simpl.
    erewrite bind_ok; cycle 1.
    { erewrite bind_ok by (apply read_cb_eq; apply lookup_insert_eq).
      reflexivity. }
    erewrite bind_ok; cycle 1.
    { unfold WeakPtr_ctor_shared. simpl.
      erewrite bind_ok by (apply incr_weak_cnt_eq; apply lookup_insert_eq).
      reflexivity. }
    erewrite bind_ok by reflexivity.
    simpl. rewrite Hw. simpl.
    unfold WeakPtr_assign_move, WeakPtr_dtor, WeakPtr_clear. simpl.
    erewrite bind_ok by reflexivity. simpl.
    erewrite bind_ok by reflexivity. simpl.
    unfold ret, set_cb. simpl. rewrite insert_insert_eq. done.
  - erewrite bind_ok by apply update_plain. done.
Qed.

(** C6.  From a memory whose next address is unused, the factory allocates
    one [MakeSharedControlBlock], constructed with counters (1,0), and makes
    the handle from it: the trace gains that one allocation, the heap gains
    that one block, the handle has no direct pointer and designates the
    object inside the block.  The block leaves the factory with counters
    (1,0), or (1,1) when the object type derives from
    [EnableSharedFromThis] and its [wptr] has been registered. *)
Theorem makeShared_allocates_one_fused_block (e : bool) (m : Mem) :
  Fresh m →
  ∃ b m1 m',
    allocate (mkCb 1 0 MakeSharedControlBlock) m = Some (b, m1) ∧
    counts m1 b = Some (1, 0) ∧
    SharedPtr_ctor_make_shared_cb e b m1 = Some (mkShared None (Some b), m') ∧
    makeShared e m = Some (mkShared None (Some b), m') ∧
    trace m' = trace m ++ [Allocate b] ∧
    heap m !! b = None ∧
    heap m'
    = <[b:=mkCb 1 (if e then 1 else 0) MakeSharedControlBlock]> (heap m) ∧
    SharedPtr_deref (mkShared None (Some b)) m' = Some (Embedded b, m').
Proof.
  intros HF. pose proof (makeShared_eq e m HF) as Heq.
  destruct HF as (Hh & Hw & _).
  unfold makeShared in Heq. erewrite bind_ok in Heq by reflexivity.
  eexists _, _, _. split; [reflexivity|].
  split; [unfold counts; simpl; by rewrite lookup_insert_eq|].
  split; [exact Heq|].
  split; [unfold makeShared; erewrite bind_ok by reflexivity; exact Heq|].
  split; [done|]. split; [done|]. split; [done|].
  unfold SharedPtr_deref. simpl.
  erewrite bind_ok by (apply read_cb_eq; apply lookup_insert_eq). done.
Qed.

Lemma Fresh_empty_mem : Fresh empty_mem.
Proof. split; [done|]. split; [done|]. intros []. Qed.

Lemma makeShared_allocates_one_fused_block_witness :
  Fresh empty_mem ∧
  ∃ b m1 m',
    allocate (mkCb 1 0 MakeSharedControlBlock) empty_mem = Some (b, m1) ∧
    counts m1 b = Some (1, 0) ∧
    SharedPtr_ctor_make_shared_cb false b m1
    = Some (mkShared None (Some b), m') ∧
    makeShared false empty_mem = Some (mkShared None (Some b), m') ∧
    trace m' = trace empty_mem ++ [Allocate b] ∧
    heap empty_mem !! b = None ∧
    heap m'
    = <[b:=mkCb 1 (if false then 1 else 0) MakeSharedControlBlock]>
        (heap empty_mem) ∧
    SharedPtr_deref (mkShared None (Some b)) m' = Some (Embedded b, m').
Proof.
  split; [exact Fresh_empty_mem|].
  exact (makeShared_allocates_one_fused_block false empty_mem
           Fresh_empty_mem).
Defined.

(** C10.  The handle the factory returns is not empty and owns a live
    object ([use_count] is 1, the object was not destroyed), yet [get]
    returns the null pointer; [operator*] and [operator->] reach the object
    inside the block, in the memory the factory leaves and in any memory in
    which the block is there. *)
Theorem fused_handle_get_is_null (e : bool) (m : Mem) :
  Fresh m →
  ∃ b m',
    makeShared e m = Some (mkShared None (Some b), m') ∧
    SharedPtr_use_count (mkShared None (Some b)) m' = Some (1, m') ∧
    ¬ In (DestroyObject b) (trace m') ∧
    SharedPtr_get (mkShared None (Some b)) = None ∧
    SharedPtr_deref (mkShared None (Some b)) m' = Some (Embedded b, m') ∧
    ∀ m'' c, heap m'' !! b = Some c → derived c = MakeSharedControlBlock →
      SharedPtr_deref (mkShared None (Some b)) m'' = Some (Embedded b, m'').
Proof.
  intros HF. pose proof (makeShared_eq e m HF) as Heq.
  destruct HF as (Hh & Hw & Ht).
  eexists _, _. split; [exact Heq|].
  split.
  { unfold SharedPtr_use_count. simpl.
    erewrite bind_ok by (apply read_cb_eq; apply lookup_insert_eq). done. }
  split.
  { simpl. intros [Hin | [[=] | []]]%in_app_iff. by apply Ht. }
  split; [done|].
  split.
  { unfold SharedPtr_deref. simpl.
    erewrite bind_ok by (apply read_cb_eq; apply lookup_insert_eq). done. }
  intros m'' c Hc Hd. unfold SharedPtr_deref. simpl.
  erewrite bind_ok by (apply read_cb_eq; exact Hc). by rewrite Hd.
Qed.

Lemma fused_handle_get_is_null_witness :
  Fresh empty_mem ∧
  ∃ b m',
    makeShared false empty_mem = Some (mkShared None (Some b), m') ∧
    SharedPtr_use_count (mkShared None (Some b)) m' = Some (1, m') ∧
    ¬ In (DestroyObject b) (trace m') ∧
    SharedPtr_get (mkShared None (Some b)) = None ∧
    SharedPtr_deref (mkShared None (Some b)) m' = Some (Embedded b, m') ∧
    ∀ m'' c, heap m'' !! b = Some c → derived c = MakeSharedControlBlock →
      SharedPtr_deref (mkShared None (Some b)) m'' = Some (Embedded b, m'').
Proof.
  split; [exact Fresh_empty_mem|].
  exact (fused_handle_get_is_null false empty_mem Fresh_empty_mem).
Defined.

(** A handle made from a raw pointer returns that pointer from [get]; the
    factory's handle and its copies return null. *)
Example get_examples :
  (run false true [MakeShared "A"; SharedCopy "B" "A";
              SharedFromPtr "P" (Some 7) default_delete] init
     ≫= λ s, Some (SharedPtr_get <$> shared s !! "A",
                    SharedPtr_get <$> shared s !! "B",
                    SharedPtr_get <$> shared s !! "P"))
  = Some (Some None, Some None, Some (Some 7)).
Proof. vm_compute. reflexivity. Qed.

(** * Moves *)

Lemma destroy_object_plain_eq b c m :
  heap m !! b = Some c →
  destroy_object false b m
  = Some (tt, mkMem (heap m) (wptrs m) (trace m ++ [DestroyObject b])
                (next_cb m)).
Proof.
  intros Hc. unfold destroy_object.
  erewrite bind_ok by (apply read_cb_eq; exact Hc).
  erewrite bind_ok by reflexivity.
  by destruct (derived c) as [[p|] [|]|].
Qed.

Lemma SharedPtr_clear_plain_eq h b c m :
  cb h = Some b → heap m !! b = Some c →
  SharedPtr_clear false h m
  = Some (tt,
          mkMem
            (<[b:=mkCb (pre_decr (shared_cnt c)) (weak_cnt c) (derived c)]>
               (heap m))
            (wptrs m)
            (trace m ++
               clear_events b
                 (mkCb (pre_decr (shared_cnt c)) (weak_cnt c) (derived c)))
            (next_cb m)).
Proof.
  intros Hb Hc. unfold SharedPtr_clear. rewrite Hb.
  unfold decr_shared_cnt.
  erewrite bind_ok; cycle 1.
  { erewrite bind_ok by (apply read_cb_eq; exact Hc). reflexivity. }
  erewrite bind_ok by (apply read_cb_eq; apply lookup_insert_eq).
  unfold clear_events. cbn [shared_cnt weak_cnt].
  destruct (pre_decr (shared_cnt c) =? 0); [|by rewrite app_nil_r].
  erewrite bind_ok
    by (eapply destroy_object_plain_eq; apply lookup_insert_eq).
  erewrite bind_ok by (apply read_cb_eq; apply lookup_insert_eq).
  cbn [weak_cnt]. destruct (weak_cnt c =? 0); [|done].
  unfold deallocate_cb.
  erewrite bind_ok by (apply read_cb_eq; apply lookup_insert_eq).
  unfold emit. simpl. by rewrite <- app_assoc.
Qed.

(** C9 as stated fails: when the destination of a move assignment already
    shares the block, the block's [shared_cnt] goes down by one; a handle
    move-assigned to itself is not left empty; and for an object type that
    is not convertible to itself, where overload resolution takes the copy
    constructor, the source of a move construction keeps its pointer pair
    and the block's [shared_cnt] goes up by one. *)
Lemma move_assignment_changes_shared_count :
  (run false true [MakeShared "A"; SharedCopy "B" "A"] init
     ≫= λ s, counts (mem s) 1) = Some (2, 0) ∧
  (run false true
     [MakeShared "A"; SharedCopy "B" "A"; SharedMoveAssign "A" "B"] init
     ≫= λ s, counts (mem s) 1) = Some (1, 0) ∧
  (run false true [MakeShared "A"; SharedMoveAssign "A" "A"] init
     ≫= λ s, shared s !! "A") = Some (mkShared None (Some 1)) ∧
  (run false false [MakeShared "A"] init
     ≫= λ s, counts (mem s) 1) = Some (1, 0) ∧
  (run false false [MakeShared "A"; SharedMove "B" "A"] init
     ≫= λ s, counts (mem s) 1) = Some (2, 0) ∧
  (run false false [MakeShared "A"; SharedMove "B" "A"] init
     ≫= λ s, shared s !! "A") = Some (mkShared None (Some 1)).
Proof. vm_compute. repeat split; reflexivity. Qed.



(** With [EnableSharedFromThis], the first move of a handle made from a raw
    pointer registers the object's [wptr], which the constructor had missed:
    [weak_cnt] goes from 0 to 1. *)
Example move_registers_wptr :
  (run true true [SharedFromPtr "a" (Some 7) default_delete] init
     ≫= λ s, counts (mem s) 1) = Some (1, 0) ∧
  (run true true
     [SharedFromPtr "a" (Some 7) default_delete; SharedMove "b" "a"] init
     ≫= λ s, counts (mem s) 1) = Some (1, 1).
Proof. vm_compute. split; reflexivity. Qed.

Lemma SharedPtr_ctor_rvalue_plain_eq h m :
  SharedPtr_ctor_rvalue false true h m = Some ((h, mkShared None None), m).
Proof.
  unfold SharedPtr_ctor_rvalue, SharedPtr_ctor_move.
  erewrite bind_ok by apply update_plain. by rewrite eta_shared.
Qed.

(** C9, amended.  For an object type that is convertible to itself, so that
    an rvalue selects the move constructor, and that does not derive from
    [EnableSharedFromThis], in every state a program can reach.  Move
    construction of a new handle [z] from any live handle [y] gives [z] the
    pointer pair of [y], empties [y] and leaves the memory, hence every
    counter, as it was.  Move assignment of a live handle [y] to another
    live handle [x] gives [x] the pair of [y], empties [y] and does to the
    memory what the destructor does on the previous value of [x]: the block
    that [x] referenced has its [shared_cnt] one lower, every other counter
    is as before, so the counters of the block that moved change only when
    [x] already shared it.  Move assignment of a handle to itself changes
    nothing. *)
Theorem move_transfers_the_pair (cmds : list Cmd) (s : State) :
  N.of_nat (2 * length cmds) < SIZE_MAX →
  run false true cmds init = Some s →
  (∀ y z hy, shared s !! y = Some hy → shared s !! z = None →
     exec false true (SharedMove z y) s
     = Some (mkState (mem s)
               (<[z:=hy]> (<[y:=mkShared None None]> (shared s)))
               (weak s))) ∧
  (∀ x y hx hy,
     shared s !! x = Some hx → shared s !! y = Some hy → x ≠ y →
     ∃ m', SharedPtr_dtor false hx (mem s) = Some (tt, m') ∧
       exec false true (SharedMoveAssign x y) s
       = Some (mkState m'
                 (<[x:=hy]> (<[y:=mkShared None None]> (shared s)))
                 (weak s)) ∧
       ∀ b c, heap (mem s) !! b = Some c →
         counts m' b
         = Some (if decide (cb hx = Some b) then shared_cnt c - 1
                 else shared_cnt c, weak_cnt c)) ∧
  (∀ x hx, shared s !! x = Some hx →
     exec false true (SharedMoveAssign x x) s = Some s).
Proof.
  intros Hn Hrun.
  pose proof (run_inv false true cmds 0 init s (Inv_init false) Hn Hrun)
    as [HC _].
  simpl in HC. pose proof (ci_bound _ _ _ _ HC) as Hbound.
  split; [|split].
  - intros y z hy Hy Hz. simpl.
    rewrite Hz, Hy, SharedPtr_ctor_rvalue_plain_eq. done.
  - intros x y hx hy Hx Hy Hne.
    assert (Hd : ∃ m', SharedPtr_dtor false hx (mem s) = Some (tt, m') ∧
        ∀ b c, heap (mem s) !! b = Some c →
          counts m' b
          = Some (if decide (cb hx = Some b) then shared_cnt c - 1
                  else shared_cnt c, weak_cnt c)).
    { unfold SharedPtr_dtor. destruct (cb hx) as [b0|] eqn:Hb0.
      - destruct (heap (mem s) !! b0) as [c0|] eqn:Hc0.
        + eexists. split; [by apply SharedPtr_clear_plain_eq|].
          intros b c Hc. unfold counts. simpl.
          destruct (ci_counts _ _ _ _ HC _ _ Hc0) as [Hs0 _].
          pose proof (refs_lookup cb _ _ _ _ Hx Hb0) as Hpos.
          pose proof (ci_le _ _ _ _ HC b0) as [Hle _].
          unfold strong_refs in *.
          case_decide as Hdec.
          * injection Hdec as ->. rewrite lookup_insert_eq. simpl.
            assert (c0 = c) as -> by congruence.
            rewrite pre_decr_pos by lia. done.
          * rewrite lookup_insert_ne by congruence. by rewrite Hc.
        + destruct (ci_valid _ _ _ _ HC _ Hc0) as [Hz0 _].
          pose proof (refs_lookup cb _ _ _ _ Hx Hb0) as Hpos.
          unfold strong_refs in Hz0. lia.
      - exists (mem s). unfold SharedPtr_clear. rewrite Hb0.
        split; [done|]. intros b c Hc. unfold counts. rewrite Hc. done. }
    destruct Hd as (m' & Hd & Hcounts). exists m'.
    split; [done|]. split; [|done].
    simpl. rewrite Hx, Hy. rewrite bool_decide_eq_false_2 by done.
    unfold SharedPtr_assign_move, bind.
    rewrite SharedPtr_ctor_rvalue_plain_eq. simpl.
    rewrite eta_shared, Hd. unfold ret. by rewrite eta_shared.
  - intros x hx Hx. simpl. rewrite Hx. rewrite bool_decide_eq_true_2 by done.
    unfold SharedPtr_assign_move, bind.
    rewrite SharedPtr_ctor_rvalue_plain_eq. simpl.
    rewrite eta_shared, insert_insert_eq, insert_id by done.
    by destruct s.
Qed.

Lemma move_transfers_the_pair_witness :
  N.of_nat (2 * length sharing_program) < SIZE_MAX ∧
  run false true sharing_program init = Some sharing_state ∧
  shared sharing_state !! "B" = Some (mkShared None (Some 1)) ∧
  shared sharing_state !! "C" = None ∧
  exec false true (SharedMove "C" "B") sharing_state
  = Some (mkState (mem sharing_state)
            (<["C":=mkShared None (Some 1)]>
               (<["B":=mkShared None None]> (shared sharing_state)))
            (weak sharing_state)).
Proof.
  assert (H1 : N.of_nat (2 * length sharing_program) < SIZE_MAX)
    by (vm_compute; reflexivity).
  assert (H2 : run false true sharing_program init = Some sharing_state)
    by (vm_compute; reflexivity).
  assert (H3 : shared sharing_state !! "B" = Some (mkShared None (Some 1)))
    by (vm_compute; reflexivity).
  assert (H4 : shared sharing_state !! "C" = None)
    by (vm_compute; reflexivity).
  split; [exact H1|]. split; [exact H2|]. split; [exact H3|].
  split; [exact H4|].
  exact (proj1 (move_transfers_the_pair sharing_program sharing_state H1 H2)
           "B" "C" _ H3 H4).
Defined.

(** * Well-formed memories

    Every memory a program can reach is well formed, hence [Fresh]: the
    factory theorems apply in every reachable state. *)

Lemma WF_Fresh m : WF m → Fresh m.
Proof.
  intros (Hh & Hw & Ht). split; [|split].
  - destruct (heap m !! next_cb m) eqn:E; [|done].
    assert (next_cb m < next_cb m) by (apply Hh; eauto). lia.
  - destruct (wptrs m !! Embedded (next_cb m)) eqn:E; [|done].
    assert (next_cb m < next_cb m) by (apply Hw; eauto). lia.
  - intros Hin. apply Ht in Hin. simpl in Hin. lia.
Qed.

Lemma wf_bind {A B} (c : M A) (k : A → M B) :
  keeps_wf c → (∀ a, keeps_wf (k a)) → keeps_wf (bind c k).
Proof.
  intros Hc Hk m r m'' HW (a & m' & H1 & H2)%bind_Some.
  destruct (Hc _ _ _ HW H1) as [HW' Hle].
  destruct (Hk a _ _ _ HW' H2) as [HW'' Hle']. split; [done | lia].
Qed.

Lemma wf_ret {A} (a : A) : keeps_wf (ret a).
Proof. intros m r m' HW [_ ->]%ret_Some. split; [done | lia]. Qed.

Lemma wf_fault {A} : keeps_wf (@fault A).
Proof. intros m r m' _ [=]. Qed.

Lemma wf_read_cb b : keeps_wf (read_cb b).
Proof. intros m r m' HW [_ ->]%read_cb_Some. split; [done | lia]. Qed.

Lemma wf_read_wptr l : keeps_wf (read_wptr l).
Proof. intros m r m' HW [_ ->]%read_wptr_Some. split; [done | lia]. Qed.

Lemma wf_remove_wptr l : keeps_wf (remove_wptr l).
Proof.
  unfold remove_wptr. intros m r m' (Hh & Hw & Ht) [= _ <-].
  split; [|simpl; lia]. split; [done|]. split; [|done].
  simpl. intros b [w Hb]. apply Hw.
  destruct (decide (l = Embedded b)) as [->|Hne].
  - by rewrite lookup_delete_eq in Hb.
  - rewrite lookup_delete_ne in Hb by done. eauto.
Qed.

Lemma wf_allocate c : keeps_wf (allocate c).
Proof.
  unfold allocate. intros m r m' (Hh & Hw & Ht) [= _ <-].
  split; [|simpl; lia]. split; [|split]; simpl.
  - intros b [x Hb]. destruct (decide (b = next_cb m)) as [->|Hne]; [lia|].
    rewrite lookup_insert_ne in Hb by done.
    assert (b < next_cb m) by (apply Hh; eauto). lia.
  - intros b Hb. specialize (Hw b Hb). lia.
  - intros ev [Hin | [<- | []]]%in_app_iff; [|simpl; lia].
    specialize (Ht ev Hin). lia.
Qed.

(** Rewriting a block that is there, and recording a call on it. *)
Lemma wf_rewrite b (f : BaseControlBlock → BaseControlBlock) :
  keeps_wf (let* c := read_cb b in write_cb b (f c)).
Proof.
  intros m r m' (Hh & Hw & Ht) (c & m0 & [Hc ->]%read_cb_Some & H)%bind_Some.
  apply write_cb_Some in H as ->.
  split; [|simpl; lia]. split; [|done]. simpl.
  intros x [y Hx]. destruct (decide (x = b)) as [->|Hne].
  - apply Hh. eauto.
  - rewrite lookup_insert_ne in Hx by done. apply Hh. eauto.
Qed.

Lemma wf_record b (ev : Event) :
  event_block ev = b →
  keeps_wf (let* _ := read_cb b in emit ev).
Proof.
  intros Hev m r m' (Hh & Hw & Ht)
    (c & m0 & [Hc ->]%read_cb_Some & H)%bind_Some.
  apply emit_Some in H as ->.
  split; [|simpl; lia]. split; [done|]. split; [done|]. simpl.
  intros x [Hin | [<- | []]]%in_app_iff; [by apply Ht|].
  rewrite Hev. apply Hh. eauto.
Qed.

Ltac wf :=
  repeat first
    [ apply wf_ret | apply wf_fault | apply wf_read_cb | apply wf_read_wptr
    | apply wf_remove_wptr | apply wf_allocate | apply wf_rewrite
    | apply wf_record; reflexivity | solve [eauto 2] | apply wf_bind
    | match goal with
      | |- ∀ _, _ => intros ?
      | |- keeps_wf (match ?x with _ => _ end) => destruct x
      | |- keeps_wf (if ?x then _ else _) => destruct x
      end ].

Lemma wf_WeakPtr_clear w : keeps_wf (WeakPtr_clear w).
Proof.
  unfold WeakPtr_clear, decr_weak_cnt, deallocate_cb. wf.
Qed.

Lemma wf_WeakPtr_ctor_shared sp : keeps_wf (WeakPtr_ctor_shared sp).
Proof. unfold WeakPtr_ctor_shared, incr_weak_cnt. simpl. wf. Qed.

Lemma wf_WeakPtr_ctor_copy w : keeps_wf (WeakPtr_ctor_copy w).
Proof. unfold WeakPtr_ctor_copy, incr_weak_cnt. simpl. wf. Qed.

Lemma wf_WeakPtr_assign_copy same this w :
  keeps_wf (WeakPtr_assign_copy same this w).
Proof.
  pose proof wf_WeakPtr_ctor_copy. pose proof wf_WeakPtr_clear.
  unfold WeakPtr_assign_copy, WeakPtr_dtor. destruct same; wf.
Qed.

Lemma wf_WeakPtr_assign_move same this w :
  keeps_wf (WeakPtr_assign_move same this w).
Proof.
  pose proof wf_WeakPtr_clear.
  unfold WeakPtr_assign_move, WeakPtr_dtor. simpl. wf.
Qed.

Lemma wf_WeakPtr_lock w : keeps_wf (WeakPtr_lock w).
Proof.
  pose proof wf_WeakPtr_ctor_copy. pose proof wf_WeakPtr_clear.
  unfold WeakPtr_lock, WeakPtr_expired, WeakPtr_use_count, WeakPtr_dtor,
    SharedPtr_ctor_weak, incr_shared_cnt.
  simpl. wf.
Qed.

Lemma wf_shared_from_this l : keeps_wf (shared_from_this l).
Proof. pose proof wf_WeakPtr_lock. unfold shared_from_this. wf. Qed.

Section WellFormed.
Variable e : bool.
Variable cv : bool.

Lemma wf_destroy_T l : keeps_wf (destroy_T e l).
Proof.
  pose proof wf_WeakPtr_clear. unfold destroy_T, WeakPtr_dtor. wf.
Qed.

Lemma wf_destroy_object b : keeps_wf (destroy_object e b).
Proof.
  intros m r m' HW H. unfold destroy_object in H.
  apply bind_Some in H as (c & m0 & Hc & H).
  pose proof Hc as [Hlk ->]%read_cb_Some.
  apply bind_Some in H as ([] & m1 & He & H).
  assert (HW1 : WF m1 ∧ next_cb m ≤ next_cb m1).
  { apply (wf_record b (DestroyObject b) eq_refl m tt m1 HW).
    unfold bind. by rewrite Hc. }
  destruct HW1 as [HW1 Hle].
  assert (HW2 : WF m' ∧ next_cb m1 ≤ next_cb m').
  { destruct (derived c) as [[p|] [|]|];
      first [ by eapply wf_destroy_T | by eapply wf_ret ]. }
  destruct HW2 as [HW2 Hle2]. split; [done | lia].
Qed.

Lemma wf_SharedPtr_clear h : keeps_wf (SharedPtr_clear e h).
Proof.
  pose proof wf_destroy_object.
  unfold SharedPtr_clear, decr_shared_cnt, deallocate_cb. wf.
Qed.

Lemma wf_update this : keeps_wf (update_enable_shared_from_this e this).
Proof.
  intros m r m' HW H. unfold update_enable_shared_from_this in H.
  destruct (cb this) as [b|] eqn:Hb; [destruct e|];
    [| by eapply wf_ret | by eapply wf_ret].
  apply bind_Some in H as (l & m0 & Hl & H).
  assert (m0 = m ∧ ∀ x, l = Embedded x → x < next_cb m) as [-> Hlt].
  { destruct (object this).
    - apply ret_Some in Hl as [-> ->]. split; [done|]. discriminate.
    - apply bind_Some in Hl as (c & m1 & [Hc ->]%read_cb_Some & Hl).
      destruct (derived c); [discriminate|].
      apply ret_Some in Hl as [-> ->]. split; [done|].
      intros x [= <-]. destruct HW as (Hh & _). apply Hh. eauto. }
  apply bind_Some in H as (tmp & m1 & H1 & H).
  destruct (wf_WeakPtr_ctor_shared _ _ _ _ HW H1) as [HW1 Hle1].
  apply bind_Some in H as (old & m2 & [_ ->]%read_wptr_Some & H).
  apply bind_Some in H as ([new tmp'] & m3 & H3 & H).
  destruct (wf_WeakPtr_assign_move _ _ _ _ _ _ HW1 H3) as [HW3 Hle3].
  apply bind_Some in H as ([] & m4 & H4 & H).
  apply write_wptr_Some in H4 as ->.
  assert (HW4 : WF (mkMem (heap m3) (<[l:=new]> (wptrs m3)) (trace m3)
                      (next_cb m3))).
  { destruct HW3 as (Hh & Hw & Ht). split; [done|]. split; [|done]. simpl.
    intros x [y Hx]. destruct (decide (l = Embedded x)) as [->|Hne].
    - specialize (Hlt x eq_refl). lia.
    - rewrite lookup_insert_ne in Hx by done. apply Hw. eauto. }
  destruct (wf_WeakPtr_clear _ _ _ _ HW4 H) as [HW5 Hle5].
  split; [done|]. simpl in Hle5. lia.
Qed.

Lemma wf_SharedPtr_ctor_ptr ptr del : keeps_wf (SharedPtr_ctor_ptr e ptr del).
Proof. pose proof wf_update. unfold SharedPtr_ctor_ptr. wf. Qed.

Lemma wf_SharedPtr_ctor_copy h : keeps_wf (SharedPtr_ctor_copy e h).
Proof.
  pose proof wf_update. unfold SharedPtr_ctor_copy, incr_shared_cnt.
  simpl. wf.
Qed.

Lemma wf_SharedPtr_ctor_move h : keeps_wf (SharedPtr_ctor_move e h).
Proof. pose proof wf_update. unfold SharedPtr_ctor_move. wf. Qed.

Lemma wf_SharedPtr_ctor_rvalue h : keeps_wf (SharedPtr_ctor_rvalue e cv h).
Proof.
  pose proof wf_SharedPtr_ctor_move. pose proof wf_SharedPtr_ctor_copy.
  unfold SharedPtr_ctor_rvalue. wf.
Qed.

Lemma wf_makeShared : keeps_wf (makeShared e).
Proof.
  pose proof wf_update. unfold makeShared, SharedPtr_ctor_make_shared_cb. wf.
Qed.

Lemma wf_SharedPtr_assign_copy same this h :
  keeps_wf (SharedPtr_assign_copy e same this h).
Proof.
  pose proof wf_SharedPtr_ctor_copy. pose proof wf_SharedPtr_clear.
  unfold SharedPtr_assign_copy, SharedPtr_dtor. destruct same; wf.
Qed.

Lemma wf_SharedPtr_assign_move same this h :
  keeps_wf (SharedPtr_assign_move e cv same this h).
Proof.
  pose proof wf_SharedPtr_ctor_rvalue. pose proof wf_SharedPtr_clear.
  unfold SharedPtr_assign_move, SharedPtr_dtor.
  apply wf_bind; [done|]. intros [copy shptr']. simpl. wf.
Qed.

Lemma wf_SharedPtr_reset this : keeps_wf (SharedPtr_reset e this).
Proof.
  pose proof wf_SharedPtr_clear.
  unfold SharedPtr_reset, SharedPtr_dtor. simpl. wf.
Qed.

Lemma wf_SharedPtr_reset_ptr this ptr del :
  keeps_wf (SharedPtr_reset_ptr e this ptr del).
Proof.
  pose proof wf_SharedPtr_ctor_ptr. pose proof wf_SharedPtr_clear.
  unfold SharedPtr_reset_ptr, SharedPtr_dtor.
  apply wf_bind; [done|]. intros tmp. simpl. wf.
Qed.

Lemma exec_wf c s s' : WF (mem s) → exec e cv c s = Some s' → WF (mem s').
Proof.
  intros HW H. destruct c; simpl in H;
    unfold declare_weak, declare_shared in H;
    repeat match type of H with
    | match ?x with _ => _ end = Some _ =>
        let E := fresh "E" in destruct x eqn:E; try discriminate
    | (let '(_, _) := ?x in _) = Some _ =>
        let E := fresh "E" in destruct x eqn:E
    end;
    try (injection H as <-; simpl);
    try done;
    match goal with
    | E : ?c (mem s) = Some (_, ?m) |- WF ?m =>
        refine (proj1 ((_ : keeps_wf c) _ _ _ HW E))
    end;
    first [ apply wf_ret | apply wf_SharedPtr_ctor_ptr | apply wf_makeShared
          | apply wf_SharedPtr_ctor_copy | apply wf_SharedPtr_ctor_rvalue
          | apply wf_SharedPtr_assign_copy | apply wf_SharedPtr_assign_move
          | apply wf_SharedPtr_reset | apply wf_SharedPtr_reset_ptr
          | apply wf_SharedPtr_clear | apply wf_WeakPtr_ctor_shared
          | apply wf_WeakPtr_ctor_copy | apply wf_WeakPtr_assign_copy
          | apply wf_WeakPtr_assign_move | apply wf_WeakPtr_clear
          | apply wf_WeakPtr_lock | apply wf_shared_from_this ].
Qed.

Lemma run_wf cmds : ∀ s s',
  WF (mem s) → run e cv cmds s = Some s' → WF (mem s').
Proof.
  induction cmds as [|c cmds IH]; intros s s' HW H; simpl in H.
  - by injection H as <-.
  - destruct (exec e cv c s) as [s1|] eqn:Hc; [|discriminate].
    eapply IH; [|exact H]. by eapply exec_wf.
Qed.

(** In every state a program can reach, the address the allocator returns
    next is unused. *)
Lemma reachable_fresh cmds s : run e cv cmds init = Some s → Fresh (mem s).
Proof.
  intros H. apply WF_Fresh. eapply run_wf; [|exact H].
  split; [|split]; simpl.
  - intros b [c Hc]. by rewrite lookup_empty in Hc.
  - intros b [c Hc]. by rewrite lookup_empty in Hc.
  - intros ev [].
Qed.
End WellFormed.

(** * Lifetimes

    What the invariants say to the user of the handles. *)


Lemma not_In_occ ev t : occ ev t = 0%nat → ¬ In ev t.
Proof.
  intros H Hin. apply (count_occ_In Event_eq_dec) in Hin.
  unfold occ in H. lia.
Qed.

(** A live strong handle with a block, for every object type: [use_count]
    answers the number of live strong handles on that block, which is at
    least 1; [destroy_object] has never been called on that block; and, for
    an object type without [EnableSharedFromThis], [deallocate_cb] has never
    been called on it.  The statement is about the control block: two
    handles constructed from one raw pointer hold two blocks, and each
    block destroys the object when its own [shared_cnt] reaches 0. *)
Theorem strong_handle_block_not_destroyed (e cv : bool) (cmds : list Cmd)
    (s : State) (x : string) (h : SharedPtr) (b : blk) :
  N.of_nat (2 * length cmds) < SIZE_MAX →
  run e cv cmds init = Some s →
  shared s !! x = Some h → cb h = Some b →
  (1 ≤ strong_refs s b)%nat ∧
  use_count_of s x = Some (N.of_nat (strong_refs s b)) ∧
  ¬ In (DestroyObject b) (trace (mem s)) ∧
  (e = false → ¬ In (DeallocateCb b) (trace (mem s))).
Proof.
  intros Hn Hrun Hx Hb.
  pose proof (run_inv e cv cmds 0 init s (Inv_init e) Hn Hrun)
    as (HC & HT & HD).
  simpl in HC.
  pose proof (refs_lookup cb _ _ _ _ Hx Hb) as Hpos.
  fold (strong_refs s b) in Hpos.
  destruct (heap (mem s) !! b) as [c|] eqn:Hc; cycle 1.
  { destruct (ci_valid _ _ _ _ HC _ Hc) as [Hz _]. lia. }
  destruct (ci_counts _ _ _ _ HC _ _ Hc) as [Hs Hw].
  assert (Hnz : (shared_cnt c =? 0) = false) by (apply N.eqb_neq; lia).
  split; [lia|]. split; [|split].
  - unfold use_count_of, SharedPtr_use_count. rewrite Hx, Hb.
    erewrite bind_ok by (apply read_cb_eq; exact Hc). simpl. by rewrite Hs.
  - apply not_In_occ. rewrite (di_destroy _ HD _ _ Hc).
    unfold destroy_due. by rewrite Hnz.
  - intros He. apply not_In_occ. rewrite (ti_dealloc _ (HT He) _ _ Hc).
    unfold dealloc_due. by rewrite Hnz.
Qed.

Lemma strong_handle_block_not_destroyed_witness :
  N.of_nat (2 * length sharing_program) < SIZE_MAX ∧
  run false true sharing_program init = Some sharing_state ∧
  shared sharing_state !! "A" = Some (mkShared None (Some 1)) ∧
  use_count_of sharing_state "A"
  = Some (N.of_nat (strong_refs sharing_state 1)).
Proof.
  assert (H1 : N.of_nat (2 * length sharing_program) < SIZE_MAX)
    by (vm_compute; reflexivity).
  assert (H2 : run false true sharing_program init = Some sharing_state)
    by (vm_compute; reflexivity).
  assert (H3 : shared sharing_state !! "A" = Some (mkShared None (Some 1)))
    by (vm_compute; reflexivity).
  split; [exact H1|]. split; [exact H2|]. split; [exact H3|].
  exact (proj1 (proj2 (strong_handle_block_not_destroyed false true
                         sharing_program sharing_state "A" _ 1
                         H1 H2 H3 eq_refl))).
Defined.

(** A live weak handle with a block observes the strong side of that
    block, for every object type: [use_count] answers the number of live
    strong handles on the block, [expired] answers whether there is none,
    which is the case exactly if [destroy_object] has been called on that
    block; and, for an object type without [EnableSharedFromThis],
    [deallocate_cb] has not been called on it, however long ago
    [destroy_object] was.  The statement is about the control block, not
    about an object that a second block was made for. *)
Theorem weak_handle_observes_strong_handles (e cv : bool) (cmds : list Cmd)
    (s : State) (w : string) (hw : WeakPtr) (b : blk) :
  N.of_nat (2 * length cmds) < SIZE_MAX →
  run e cv cmds init = Some s →
  weak s !! w = Some hw → wcb hw = Some b →
  weak_use_count_of s w = Some (N.of_nat (strong_refs s b)) ∧
  expired_of s w = Some (bool_decide (strong_refs s b = 0%nat)) ∧
  (In (DestroyObject b) (trace (mem s)) ↔ strong_refs s b = 0%nat) ∧
  (e = false → ¬ In (DeallocateCb b) (trace (mem s))).
Proof.
  intros Hn Hrun Hw Hb.
  pose proof (run_inv e cv cmds 0 init s (Inv_init e) Hn Hrun)
    as (HC & HT & HD).
  simpl in HC.
  pose proof (refs_lookup wcb _ _ _ _ Hw Hb) as Hpos.
  assert (Hwr : (1 ≤ weak_refs s b)%nat) by (unfold weak_refs; lia).
  destruct (heap (mem s) !! b) as [c|] eqn:Hc; cycle 1.
  { destruct (ci_valid _ _ _ _ HC _ Hc) as [_ Hz]. lia. }
  destruct (ci_counts _ _ _ _ HC _ _ Hc) as [Hs Hwc].
  assert (Huse : WeakPtr_use_count hw (mem s)
                 = Some (N.of_nat (strong_refs s b), mem s)).
  { unfold WeakPtr_use_count. rewrite Hb.
    erewrite bind_ok by (apply read_cb_eq; exact Hc). by rewrite Hs. }
  split; [|split; [|split]].
  - unfold weak_use_count_of. by rewrite Hw, Huse.
  - unfold expired_of, WeakPtr_expired. rewrite Hw.
    erewrite bind_ok by exact Huse. simpl. f_equal.
    destruct (N.eqb_spec (N.of_nat (strong_refs s b)) 0);
      case_bool_decide; try done; lia.
  - pose proof (di_destroy _ HD _ _ Hc) as Hocc. unfold destroy_due in Hocc.
    rewrite Hs in Hocc. split.
    + intros Hin%(count_occ_In Event_eq_dec). unfold occ in Hocc.
      destruct (N.eqb_spec (N.of_nat (strong_refs s b)) 0); lia.
    + intros Hz. apply occ_pos. rewrite Hocc, Hz. simpl. lia.
  - intros He. apply not_In_occ. rewrite (ti_dealloc _ (HT He) _ _ Hc).
    unfold dealloc_due.
    assert ((weak_cnt c =? 0) = false) as -> by (apply N.eqb_neq; lia).
    by rewrite andb_false_r.
Qed.

Lemma weak_handle_observes_strong_handles_witness :
  N.of_nat (2 * length (take 5 scenario)) < SIZE_MAX ∧
  run false true (take 5 scenario) init
  = Some (default init (run false true (take 5 scenario) init)) ∧
  expired_of (default init (run false true (take 5 scenario) init)) "W"
  = Some true.
Proof.
  assert (H1 : N.of_nat (2 * length (take 5 scenario)) < SIZE_MAX)
    by (vm_compute; reflexivity).
  assert (H2 : run false true (take 5 scenario) init
               = Some (default init (run false true (take 5 scenario) init)))
    by (vm_compute; reflexivity).
  split; [exact H1|]. split; [exact H2|].
  exact (proj1 (proj2 (weak_handle_observes_strong_handles false true
                         (take 5 scenario) _ "W" (mkWeak None (Some 1)) 1
                         H1 H2 eq_refl eq_refl))).
Defined.

(** ** The record of calls only grows *)

Lemma gt_bind {A B} (c : M A) (k : A → M B) :
  grows_trace c → (∀ a, grows_trace (k a)) → grows_trace (bind c k).
Proof.
  intros Hc Hk m r m'' (a & m' & H1 & H2)%bind_Some.
  destruct (Hc _ _ _ H1) as [evs1 E1]. destruct (Hk a _ _ _ H2) as [evs2 E2].
  exists (evs1 ++ evs2). by rewrite E2, E1, app_assoc.
Qed.

Lemma gt_same {A} (c : M A) :
  (∀ m r m', c m = Some (r, m') → trace m' = trace m) → grows_trace c.
Proof.
  intros Hc m r m' H. exists []. rewrite app_nil_r. by eapply Hc.
Qed.

Lemma gt_ret {A} (a : A) : grows_trace (ret a).
Proof. apply gt_same. by intros m r m' [_ ->]%ret_Some. Qed.

Lemma gt_fault {A} : grows_trace (@fault A).
Proof. intros m r m' [=]. Qed.

Lemma gt_read_cb b : grows_trace (read_cb b).
Proof. apply gt_same. by intros m r m' [_ ->]%read_cb_Some. Qed.

Lemma gt_write_cb b c : grows_trace (write_cb b c).
Proof. apply gt_same. by intros m r m' ->%write_cb_Some. Qed.

Lemma gt_read_wptr l : grows_trace (read_wptr l).
Proof. apply gt_same. by intros m r m' [_ ->]%read_wptr_Some. Qed.

Lemma gt_write_wptr l w : grows_trace (write_wptr l w).
Proof. apply gt_same. by intros m r m' ->%write_wptr_Some. Qed.

Lemma gt_remove_wptr l : grows_trace (remove_wptr l).
Proof. apply gt_same. unfold remove_wptr. by intros m r m' [= _ <-]. Qed.

Lemma gt_emit ev : grows_trace (emit ev).
Proof. intros m r m' ->%emit_Some. by exists [ev]. Qed.

Lemma gt_allocate c : grows_trace (allocate c).
Proof. unfold allocate. intros m r m' [= _ <-]. simpl. by eexists. Qed.

Ltac gt :=
  repeat first
    [ apply gt_ret | apply gt_fault | apply gt_read_cb | apply gt_write_cb
    | apply gt_read_wptr | apply gt_write_wptr | apply gt_remove_wptr
    | apply gt_emit | apply gt_allocate | solve [eauto 2] | apply gt_bind
    | match goal with
      | |- ∀ _, _ => intros ?
      | |- grows_trace (match ?x with _ => _ end) => destruct x
      | |- grows_trace (if ?x then _ else _) => destruct x
      end ].

Lemma gt_WeakPtr_clear w : grows_trace (WeakPtr_clear w).
Proof. unfold WeakPtr_clear, decr_weak_cnt, deallocate_cb. gt. Qed.

Lemma gt_WeakPtr_ctor_shared sp : grows_trace (WeakPtr_ctor_shared sp).
Proof. unfold WeakPtr_ctor_shared, incr_weak_cnt. simpl. gt. Qed.

Lemma gt_WeakPtr_ctor_copy w : grows_trace (WeakPtr_ctor_copy w).
Proof. unfold WeakPtr_ctor_copy, incr_weak_cnt. simpl. gt. Qed.

Lemma gt_WeakPtr_assign_copy same this w :
  grows_trace (WeakPtr_assign_copy same this w).
Proof.
  pose proof gt_WeakPtr_ctor_copy. pose proof gt_WeakPtr_clear.
  unfold WeakPtr_assign_copy, WeakPtr_dtor. destruct same; gt.
Qed.

Lemma gt_WeakPtr_assign_move same this w :
  grows_trace (WeakPtr_assign_move same this w).
Proof.
  pose proof gt_WeakPtr_clear.
  unfold WeakPtr_assign_move, WeakPtr_dtor. simpl. gt.
Qed.

Lemma gt_WeakPtr_lock w : grows_trace (WeakPtr_lock w).
Proof.
  pose proof gt_WeakPtr_ctor_copy. pose proof gt_WeakPtr_clear.
  unfold WeakPtr_lock, WeakPtr_expired, WeakPtr_use_count, WeakPtr_dtor,
    SharedPtr_ctor_weak, incr_shared_cnt.
  simpl. gt.
Qed.

Lemma gt_shared_from_this l : grows_trace (shared_from_this l).
Proof. pose proof gt_WeakPtr_lock. unfold shared_from_this. gt. Qed.

Section Growth.
Variable e : bool.
Variable cv : bool.

Lemma gt_destroy_T l : grows_trace (destroy_T e l).
Proof.
  pose proof gt_WeakPtr_clear. unfold destroy_T, WeakPtr_dtor. gt.
Qed.

Lemma gt_destroy_object b : grows_trace (destroy_object e b).
Proof. pose proof gt_destroy_T. unfold destroy_object. gt. Qed.

Lemma gt_SharedPtr_clear h : grows_trace (SharedPtr_clear e h).
Proof.
  pose proof gt_destroy_object.
  unfold SharedPtr_clear, decr_shared_cnt, deallocate_cb. gt.
Qed.

Lemma gt_update this : grows_trace (update_enable_shared_from_this e this).
Proof.
  pose proof gt_WeakPtr_ctor_shared. pose proof gt_WeakPtr_assign_move.
  pose proof gt_WeakPtr_clear.
  unfold update_enable_shared_from_this, WeakPtr_dtor. gt.
Qed.

Lemma gt_SharedPtr_ctor_ptr ptr del :
  grows_trace (SharedPtr_ctor_ptr e ptr del).
Proof. pose proof gt_update. unfold SharedPtr_ctor_ptr. gt. Qed.

Lemma gt_SharedPtr_ctor_copy h : grows_trace (SharedPtr_ctor_copy e h).
Proof.
  pose proof gt_update. unfold SharedPtr_ctor_copy, incr_shared_cnt.
  simpl. gt.
Qed.

Lemma gt_SharedPtr_ctor_move h : grows_trace (SharedPtr_ctor_move e h).
Proof. pose proof gt_update. unfold SharedPtr_ctor_move. gt. Qed.

Lemma gt_SharedPtr_ctor_rvalue h :
  grows_trace (SharedPtr_ctor_rvalue e cv h).
Proof.
  pose proof gt_SharedPtr_ctor_move. pose proof gt_SharedPtr_ctor_copy.
  unfold SharedPtr_ctor_rvalue. gt.
Qed.

Lemma gt_makeShared : grows_trace (makeShared e).
Proof.
  pose proof gt_update. unfold makeShared, SharedPtr_ctor_make_shared_cb. gt.
Qed.

Lemma gt_SharedPtr_assign_copy same this h :
  grows_trace (SharedPtr_assign_copy e same this h).
Proof.
  pose proof gt_SharedPtr_ctor_copy. pose proof gt_SharedPtr_clear.
  unfold SharedPtr_assign_copy, SharedPtr_dtor. destruct same; gt.
Qed.

Lemma gt_SharedPtr_assign_move same this h :
  grows_trace (SharedPtr_assign_move e cv same this h).
Proof.
  pose proof gt_SharedPtr_ctor_rvalue. pose proof gt_SharedPtr_clear.
  unfold SharedPtr_assign_move, SharedPtr_dtor.
  apply gt_bind; [done|]. intros [copy shptr']. simpl. gt.
Qed.

Lemma gt_SharedPtr_reset this : grows_trace (SharedPtr_reset e this).
Proof.
  pose proof gt_SharedPtr_clear.
  unfold SharedPtr_reset, SharedPtr_dtor. simpl. gt.
Qed.

Lemma gt_SharedPtr_reset_ptr this ptr del :
  grows_trace (SharedPtr_reset_ptr e this ptr del).
Proof.
  pose proof gt_SharedPtr_ctor_ptr. pose proof gt_SharedPtr_clear.
  unfold SharedPtr_reset_ptr, SharedPtr_dtor.
  apply gt_bind; [done|]. intros tmp. simpl. gt.
Qed.

Lemma exec_grows c s s' :
  exec e cv c s = Some s' → ∃ evs, trace (mem s') = trace (mem s) ++ evs.
Proof.
  intros H. destruct c; simpl in H;
    unfold declare_weak, declare_shared in H;
    repeat match type of H with
    | match ?x with _ => _ end = Some _ =>
        let E := fresh "E" in destruct x eqn:E; try discriminate
    | (let '(_, _) := ?x in _) = Some _ =>
        let E := fresh "E" in destruct x eqn:E
    end;
    try (injection H as <-; simpl);
    try (by exists []; rewrite app_nil_r);
    match goal with
    | E : ?c (mem s) = Some (_, ?m) |- ∃ evs, trace ?m = _ =>
        refine ((_ : grows_trace c) _ _ _ E)
    end;
    first [ apply gt_ret | apply gt_SharedPtr_ctor_ptr | apply gt_makeShared
          | apply gt_SharedPtr_ctor_copy | apply gt_SharedPtr_ctor_rvalue
          | apply gt_SharedPtr_assign_copy | apply gt_SharedPtr_assign_move
          | apply gt_SharedPtr_reset | apply gt_SharedPtr_reset_ptr
          | apply gt_SharedPtr_clear | apply gt_WeakPtr_ctor_shared
          | apply gt_WeakPtr_ctor_copy | apply gt_WeakPtr_assign_copy
          | apply gt_WeakPtr_assign_move | apply gt_WeakPtr_clear
          | apply gt_WeakPtr_lock | apply gt_shared_from_this ].
Qed.

Lemma run_grows cmds : ∀ s s',
  run e cv cmds s = Some s' → ∃ evs, trace (mem s') = trace (mem s) ++ evs.
Proof.
  induction cmds as [|c cmds IH]; intros s s' H; simpl in H.
  - injection H as <-. exists []. by rewrite app_nil_r.
  - destruct (exec e cv c s) as [s1|] eqn:Hc; [|discriminate].
    destruct (exec_grows _ _ _ Hc) as [evs1 E1].
    destruct (IH _ _ H) as [evs2 E2].
    exists (evs1 ++ evs2). by rewrite E2, E1, app_assoc.
Qed.

Lemma run_app cmds1 cmds2 s :
  run e cv (cmds1 ++ cmds2) s = run e cv cmds1 s ≫= run e cv cmds2.
Proof.
  revert s. induction cmds1 as [|c cmds1 IH]; intros s; simpl; [done|].
  destruct (exec e cv c s); [apply IH | done].
Qed.

End Growth.

(** Destruction is final, for every object type.  Once [destroy_object] has
    been called on a block, whatever the program goes on to do: it is not
    called on that block again, the block's [shared_cnt] stays 0, no strong
    handle references the block, and [lock] on any weak handle of the block
    returns an empty handle and leaves the memory as it is. *)
Theorem destroyed_object_stays_destroyed (e cv : bool)
    (cmds1 cmds2 : list Cmd)
    (s s' : State) (b : blk) :
  N.of_nat (2 * length (cmds1 ++ cmds2)) < SIZE_MAX →
  run e cv cmds1 init = Some s →
  run e cv cmds2 s = Some s' →
  In (DestroyObject b) (trace (mem s)) →
  occ (DestroyObject b) (trace (mem s')) = 1%nat ∧
  (∃ c, heap (mem s') !! b = Some c ∧ shared_cnt c = 0) ∧
  strong_refs s' b = 0%nat ∧
  (∀ w hw, weak s' !! w = Some hw → wcb hw = Some b →
     expired_of s' w = Some true ∧
     WeakPtr_lock hw (mem s') = Some (mkShared None None, mem s')).
Proof.
  intros Hn Hrun1 Hrun2 Hin.
  assert (Hrun : run e cv (cmds1 ++ cmds2) init = Some s')
    by (rewrite run_app, Hrun1; exact Hrun2).
  pose proof (run_inv e cv _ 0 init s' (Inv_init e) Hn Hrun) as (HC & _ & HD).
  simpl in HC.
  destruct (run_grows e cv _ _ _ Hrun2) as [evs Hevs].
  assert (Hin' : In (DestroyObject b) (trace (mem s')))
    by (rewrite Hevs; apply in_app_iff; by left).
  destruct (di_known _ HD _ Hin') as [c Hc].
  pose proof (di_destroy _ HD _ _ Hc) as Hocc.
  apply (count_occ_In Event_eq_dec) in Hin'.
  fold (occ (DestroyObject b) (trace (mem s'))) in Hin'.
  unfold destroy_due in Hocc.
  destruct (N.eqb_spec (shared_cnt c) 0) as [Hz|Hnz]; [|lia].
  destruct (ci_counts _ _ _ _ HC _ _ Hc) as [Hs _].
  split; [done|]. split; [eauto|]. split; [lia|].
  intros w hw Hw Hb.
  assert (Hex : WeakPtr_expired hw (mem s') = Some (true, mem s')).
  { unfold WeakPtr_expired, WeakPtr_use_count. rewrite Hb.
    erewrite bind_ok; cycle 1.
    { erewrite bind_ok by (apply read_cb_eq; exact Hc). reflexivity. }
    unfold ret. by rewrite Hz. }
  split; [unfold expired_of; by rewrite Hw, Hex|].
  by apply WeakPtr_lock_expired.
Qed.

Lemma destroyed_object_stays_destroyed_witness :
  N.of_nat (2 * length (take 5 scenario ++ [Lock "L" "W"])) < SIZE_MAX ∧
  run false true (take 5 scenario) init
  = Some (default init (run false true (take 5 scenario) init)) ∧
  In (DestroyObject 1)
    (trace (mem (default init (run false true (take 5 scenario) init)))) ∧
  occ (DestroyObject 1)
    (trace (mem (default init
                   (run false true (take 5 scenario ++ [Lock "L" "W"]) init))))
  = 1%nat.
Proof.
  assert (H1 : N.of_nat (2 * length (take 5 scenario ++ [Lock "L" "W"]))
               < SIZE_MAX) by (vm_compute; reflexivity).
  assert (H2 : run false true (take 5 scenario) init
               = Some (default init (run false true (take 5 scenario) init)))
    by (vm_compute; reflexivity).
  assert (H3 : run false true [Lock "L" "W"]
                 (default init (run false true (take 5 scenario) init))
               = Some (default init
                   (run false true (take 5 scenario ++ [Lock "L" "W"]) init)))
    by (vm_compute; reflexivity).
  assert (H4 : In (DestroyObject 1)
    (trace (mem (default init (run false true (take 5 scenario) init)))))
    by (vm_compute; right; left; reflexivity).
  split; [exact H1|]. split; [exact H2|]. split; [exact H4|].
  exact (proj1 (destroyed_object_stays_destroyed false true _ _ _ _ 1
                  H1 H2 H3 H4)).
Defined.

(** ** Object types without [EnableSharedFromThis] have no [wptr] members *)

Lemma keeps_read_wptr l : keeps_wptrs (read_wptr l).
Proof. by intros m r m' [_ ->]%read_wptr_Some. Qed.

Ltac keeps_plain :=
  repeat first
    [ apply keeps_ret | apply keeps_fault | apply keeps_read_cb
    | apply keeps_write_cb | apply keeps_emit | apply keeps_allocate
    | apply keeps_read_wptr | solve [eauto 2] | apply keeps_bind
    | match goal with
      | |- ∀ _, _ => intros ?
      | |- keeps_wptrs (match ?x with _ => _ end) => destruct x
      | |- keeps_wptrs (if ?x then _ else _) => destruct x
      end ].

Lemma keeps_update_plain this :
  keeps_wptrs (update_enable_shared_from_this false this).
Proof. unfold update_enable_shared_from_this. keeps_plain. Qed.

Lemma keeps_destroy_object_plain b : keeps_wptrs (destroy_object false b).
Proof. unfold destroy_object, destroy_T. keeps_plain. Qed.

Lemma keeps_SharedPtr_clear_plain h : keeps_wptrs (SharedPtr_clear false h).
Proof.
  pose proof keeps_destroy_object_plain.
  unfold SharedPtr_clear, decr_shared_cnt, deallocate_cb. keeps_plain.
Qed.

Lemma keeps_SharedPtr_ctor_ptr_plain ptr del :
  keeps_wptrs (SharedPtr_ctor_ptr false ptr del).
Proof. pose proof keeps_update_plain. unfold SharedPtr_ctor_ptr. keeps_plain. Qed.

Lemma keeps_SharedPtr_ctor_copy_plain h :
  keeps_wptrs (SharedPtr_ctor_copy false h).
Proof.
  pose proof keeps_update_plain. unfold SharedPtr_ctor_copy, incr_shared_cnt.
  simpl. keeps_plain.
Qed.

Lemma keeps_SharedPtr_ctor_move_plain h :
  keeps_wptrs (SharedPtr_ctor_move false h).
Proof.
  pose proof keeps_update_plain. unfold SharedPtr_ctor_move. keeps_plain.
Qed.

Lemma keeps_SharedPtr_ctor_rvalue_plain cv h :
  keeps_wptrs (SharedPtr_ctor_rvalue false cv h).
Proof.
  pose proof keeps_SharedPtr_ctor_move_plain.
  pose proof keeps_SharedPtr_ctor_copy_plain.
  unfold SharedPtr_ctor_rvalue. keeps_plain.
Qed.

Lemma keeps_makeShared_plain : keeps_wptrs (makeShared false).
Proof.
  pose proof keeps_update_plain.
  unfold makeShared, SharedPtr_ctor_make_shared_cb. keeps_plain.
Qed.

Lemma keeps_SharedPtr_assign_copy_plain same this h :
  keeps_wptrs (SharedPtr_assign_copy false same this h).
Proof.
  pose proof keeps_SharedPtr_ctor_copy_plain.
  pose proof keeps_SharedPtr_clear_plain.
  unfold SharedPtr_assign_copy, SharedPtr_dtor. destruct same; keeps_plain.
Qed.

Lemma keeps_SharedPtr_assign_move_plain cv same this h :
  keeps_wptrs (SharedPtr_assign_move false cv same this h).
Proof.
  pose proof (keeps_SharedPtr_ctor_rvalue_plain cv).
  pose proof keeps_SharedPtr_clear_plain.
  unfold SharedPtr_assign_move, SharedPtr_dtor.
  apply keeps_bind; [done|]. intros [copy shptr']. simpl. keeps_plain.
Qed.

Lemma keeps_SharedPtr_reset_plain this :
  keeps_wptrs (SharedPtr_reset false this).
Proof.
  pose proof keeps_SharedPtr_clear_plain.
  unfold SharedPtr_reset, SharedPtr_dtor. simpl. keeps_plain.
Qed.

Lemma keeps_SharedPtr_reset_ptr_plain this ptr del :
  keeps_wptrs (SharedPtr_reset_ptr false this ptr del).
Proof.
  pose proof keeps_SharedPtr_ctor_ptr_plain.
  pose proof keeps_SharedPtr_clear_plain.
  unfold SharedPtr_reset_ptr, SharedPtr_dtor.
  apply keeps_bind; [done|]. intros tmp. simpl. keeps_plain.
Qed.

Lemma keeps_shared_from_this l : keeps_wptrs (shared_from_this l).
Proof. pose proof keeps_WeakPtr_lock. unfold shared_from_this. keeps_plain. Qed.

Lemma exec_plain_wptrs cv c s s' :
  exec false cv c s = Some s' → wptrs (mem s') = wptrs (mem s).
Proof.
  intros H. destruct c; simpl in H;
    unfold declare_weak, declare_shared in H;
    repeat match type of H with
    | match ?x with _ => _ end = Some _ =>
        let E := fresh "E" in destruct x eqn:E; try discriminate
    | (let '(_, _) := ?x in _) = Some _ =>
        let E := fresh "E" in destruct x eqn:E
    end;
    try (injection H as <-; simpl);
    try done;
    match goal with
    | E : ?c (mem s) = Some (_, ?m) |- wptrs ?m = _ =>
        refine ((_ : keeps_wptrs c) _ _ _ E)
    end;
    first [ apply keeps_ret | apply keeps_SharedPtr_ctor_ptr_plain
          | apply keeps_makeShared_plain
          | apply keeps_SharedPtr_ctor_copy_plain
          | apply keeps_SharedPtr_ctor_rvalue_plain
          | apply keeps_SharedPtr_assign_copy_plain
          | apply keeps_SharedPtr_assign_move_plain
          | apply keeps_SharedPtr_reset_plain
          | apply keeps_SharedPtr_reset_ptr_plain
          | apply keeps_SharedPtr_clear_plain
          | apply keeps_WeakPtr_ctor_shared | apply keeps_WeakPtr_ctor_copy
          | apply keeps_WeakPtr_assign_copy | apply keeps_WeakPtr_assign_move
          | apply keeps_WeakPtr_clear | apply keeps_WeakPtr_lock
          | apply keeps_shared_from_this ].
Qed.

Lemma run_plain_wptrs cv cmds : ∀ s s',
  run false cv cmds s = Some s' → wptrs (mem s') = wptrs (mem s).
Proof.
  induction cmds as [|c cmds IH]; intros s s' H; simpl in H.
  - by injection H as <-.
  - destruct (exec false cv c s) as [s1|] eqn:Hc; [|discriminate].
    rewrite (IH _ _ H). exact (exec_plain_wptrs _ _ _ _ Hc).
Qed.



(** * Temporaries

    A handle that is made from a live one and ended again leaves the state
    as it was. *)

Lemma set_cb_id m b c : heap m !! b = Some c → set_cb m b c = m.
Proof. intros H. unfold set_cb. rewrite insert_id by done. by destruct m. Qed.

Lemma strong_block e cv cmds s x h b :
  N.of_nat (2 * length cmds) < SIZE_MAX →
  run e cv cmds init = Some s →
  shared s !! x = Some h → cb h = Some b →
  ∃ c, heap (mem s) !! b = Some c ∧
    0 < shared_cnt c ∧ shared_cnt c < SIZE_MAX ∧ weak_cnt c < SIZE_MAX.
Proof.
  intros Hn Hrun Hx Hb.
  pose proof (run_inv e cv cmds 0 init s (Inv_init e) Hn Hrun) as (HC & _).
  simpl in HC.
  pose proof (refs_lookup cb _ _ _ _ Hx Hb) as Hpos.
  fold (strong_refs s b) in Hpos.
  destruct (heap (mem s) !! b) as [c|] eqn:Hc; cycle 1.
  { destruct (ci_valid _ _ _ _ HC _ Hc) as [Hz _]. lia. }
  destruct (ci_counts _ _ _ _ HC _ _ Hc) as [Hs Hw].
  pose proof (ci_le _ _ _ _ HC b) as [Hls Hlw].
  exists c. split; [done|]. lia.
Qed.

Lemma weak_block e cv cmds s w h b :
  N.of_nat (2 * length cmds) < SIZE_MAX →
  run e cv cmds init = Some s →
  weak s !! w = Some h → wcb h = Some b →
  ∃ c, heap (mem s) !! b = Some c ∧
    0 < weak_cnt c ∧ shared_cnt c < SIZE_MAX ∧ weak_cnt c < SIZE_MAX.
Proof.
  intros Hn Hrun Hw Hb.
  pose proof (run_inv e cv cmds 0 init s (Inv_init e) Hn Hrun) as (HC & _).
  simpl in HC.
  pose proof (refs_lookup wcb _ _ _ _ Hw Hb) as Hpos.
  assert (Hwr : (1 ≤ weak_refs s b)%nat) by (unfold weak_refs; lia).
  destruct (heap (mem s) !! b) as [c|] eqn:Hc; cycle 1.
  { destruct (ci_valid _ _ _ _ HC _ Hc) as [_ Hz]. lia. }
  destruct (ci_counts _ _ _ _ HC _ _ Hc) as [Hs Hwc].
  pose proof (ci_le _ _ _ _ HC b) as [Hls Hlw].
  exists c. split; [done|]. lia.
Qed.

(** [SharedPtr::clear] on a handle that is not the last one on its block
    only writes the decremented counter. *)
Lemma SharedPtr_clear_shared_eq e h b c m :
  cb h = Some b → heap m !! b = Some c →
  pre_decr (shared_cnt c) ≠ 0 →
  SharedPtr_clear e h m
  = Some (tt, set_cb m b
                (mkCb (pre_decr (shared_cnt c)) (weak_cnt c) (derived c))).
Proof.
  intros Hb Hc Hnz. unfold SharedPtr_clear. rewrite Hb.
  unfold decr_shared_cnt.
  erewrite bind_ok; cycle 1.
  { erewrite bind_ok by (apply read_cb_eq; exact Hc). reflexivity. }
  erewrite bind_ok by (apply read_cb_eq; apply lookup_insert_eq).
  cbn [shared_cnt].
  by destruct (N.eqb_spec (pre_decr (shared_cnt c)) 0).
Qed.

(** [WeakPtr::clear] on a handle whose block is still referenced only
    writes the decremented counter. *)
Lemma WeakPtr_clear_shared_eq h b c m :
  wcb h = Some b → heap m !! b = Some c →
  shared_cnt c ≠ 0 ∨ pre_decr (weak_cnt c) ≠ 0 →
  WeakPtr_clear h m
  = Some (tt, set_cb m b
                (mkCb (shared_cnt c) (pre_decr (weak_cnt c)) (derived c))).
Proof.
  intros Hb Hc Hnz. unfold WeakPtr_clear. rewrite Hb.
  erewrite bind_ok by (apply decr_weak_cnt_eq; exact Hc).
  erewrite bind_ok by (apply read_cb_eq; apply set_cb_lookup).
  cbn [shared_cnt weak_cnt].
  destruct (N.eqb_spec (shared_cnt c) 0), (N.eqb_spec (pre_decr (weak_cnt c)) 0);
    simpl; try done.
  by destruct Hnz.
Qed.

Lemma SharedPtr_ctor_copy_plain_eq h m :
  SharedPtr_ctor_copy false h m
  = match cb h with
    | Some b =>
        match heap m !! b with
        | Some c =>
            Some (h, set_cb m b (mkCb (pre_incr (shared_cnt c)) (weak_cnt c)
                                   (derived c)))
        | None => None
        end
    | None => Some (h, m)
    end.
Proof.
  unfold SharedPtr_ctor_copy. erewrite bind_ok by apply update_plain.
  simpl. destruct (cb h) as [b|] eqn:Hb.
  - destruct (heap m !! b) as [c|] eqn:Hc.
    + erewrite bind_ok by (apply incr_shared_cnt_eq; exact Hc).
      unfold ret. rewrite <- Hb. by rewrite eta_shared.
    + unfold bind, incr_shared_cnt, bind, read_cb. by rewrite Hc.
  - unfold bind, ret. rewrite <- Hb. by rewrite eta_shared.
Qed.

(** A copy of a live strong handle that is ended again leaves the state as
    it was, for an object type without [EnableSharedFromThis]: counters,
    record of calls and handles. *)
Theorem temporary_copy_restores_state (cv : bool) (cmds : list Cmd)
    (s : State)
    (x z : string) (h : SharedPtr) :
  N.of_nat (2 * length cmds) < SIZE_MAX →
  run false cv cmds init = Some s →
  shared s !! x = Some h → shared s !! z = None →
  run false cv [SharedCopy z x; SharedDestroy z] s = Some s.
Proof.
  intros Hn Hrun Hx Hz. simpl. rewrite Hx. unfold declare_shared.
  rewrite Hz, SharedPtr_ctor_copy_plain_eq.
  destruct (cb h) as [b|] eqn:Hb.
  - destruct (strong_block false cv cmds s x h b Hn Hrun Hx Hb)
      as (c & Hc & Hpos & Hlt & _).
    rewrite Hc. simpl. rewrite lookup_insert_eq.
    unfold SharedPtr_dtor.
    erewrite (SharedPtr_clear_shared_eq false h b); cycle 1.
    { exact Hb. } { apply lookup_insert_eq. }
    { cbn [shared_cnt]. rewrite pre_decr_incr by lia. lia. }
    cbn [shared_cnt weak_cnt derived].
    rewrite pre_decr_incr by lia.
    fold (set_cb (mem s) b
            (mkCb (pre_incr (shared_cnt c)) (weak_cnt c) (derived c))).
    rewrite set_cb_set_cb.
    assert (mkCb (shared_cnt c) (weak_cnt c) (derived c) = c) as ->
      by (by destruct c).
    rewrite set_cb_id by done.
    rewrite delete_insert_id by done. by destruct s.
  - simpl. rewrite lookup_insert_eq. unfold SharedPtr_dtor, SharedPtr_clear.
    rewrite Hb. simpl. rewrite delete_insert_id by done. by destruct s.
Qed.

Lemma temporary_copy_restores_state_witness :
  N.of_nat (2 * length sharing_program) < SIZE_MAX ∧
  run false true sharing_program init = Some sharing_state ∧
  shared sharing_state !! "A" = Some (mkShared None (Some 1)) ∧
  shared sharing_state !! "T" = None ∧
  run false true [SharedCopy "T" "A"; SharedDestroy "T"] sharing_state
  = Some sharing_state.
Proof.
  assert (H1 : N.of_nat (2 * length sharing_program) < SIZE_MAX)
    by (vm_compute; reflexivity).
  assert (H2 : run false true sharing_program init = Some sharing_state)
    by (vm_compute; reflexivity).
  assert (H3 : shared sharing_state !! "A" = Some (mkShared None (Some 1)))
    by (vm_compute; reflexivity).
  assert (H4 : shared sharing_state !! "T" = None)
    by (vm_compute; reflexivity).
  split; [exact H1|]. split; [exact H2|]. split; [exact H3|].
  split; [exact H4|].
  exact (temporary_copy_restores_state true sharing_program sharing_state
           "A" "T" _ H1 H2 H3 H4).
Defined.

Lemma eta_cb c : mkCb (shared_cnt c) (weak_cnt c) (derived c) = c.
Proof. by destruct c. Qed.

(** [lock] followed by the end of the handle it returned leaves the state as
    it was, for every object type and whether or not the weak handle is
    expired: locking for the time of one access costs nothing. *)
Theorem temporary_lock_restores_state (e cv : bool) (cmds : list Cmd)
    (s : State) (w z : string) (hw : WeakPtr) :
  N.of_nat (2 * length cmds) < SIZE_MAX →
  run e cv cmds init = Some s →
  weak s !! w = Some hw → shared s !! z = None →
  run e cv [Lock z w; SharedDestroy z] s = Some s.
Proof.
  intros Hn Hrun Hw Hz. simpl. rewrite Hw. unfold declare_shared. rewrite Hz.
  destruct (wcb hw) as [b|] eqn:Hb.
  - destruct (weak_block e cv cmds s w hw b Hn Hrun Hw Hb)
      as (c & Hc & Hpos & Hlt & Hwlt).
    destruct (N.eqb_spec (shared_cnt c) 0) as [Hz0|Hnz].
    + rewrite WeakPtr_lock_expired; cycle 1.
      { unfold WeakPtr_expired, WeakPtr_use_count. rewrite Hb.
        erewrite bind_ok; cycle 1.
        { erewrite bind_ok by (apply read_cb_eq; exact Hc). reflexivity. }
        unfold ret. by rewrite Hz0. }
      simpl. rewrite lookup_insert_eq. simpl.
      rewrite delete_insert_id by done. by destruct s.
    + rewrite (WeakPtr_lock_alive hw b c) by (done || lia).
      simpl. rewrite lookup_insert_eq. unfold SharedPtr_dtor.
      erewrite (SharedPtr_clear_shared_eq e _ b); cycle 1.
      { reflexivity. } { apply set_cb_lookup. }
      { cbn [shared_cnt]. rewrite pre_decr_pos by lia. lia. }
      cbn [shared_cnt weak_cnt derived].
      rewrite pre_decr_pos by lia.
      assert (shared_cnt c + 1 - 1 = shared_cnt c) as -> by lia.
      rewrite set_cb_set_cb, eta_cb, set_cb_id by done.
      rewrite delete_insert_id by done. by destruct s.
  - rewrite WeakPtr_lock_expired; cycle 1.
    { unfold WeakPtr_expired, WeakPtr_use_count. by rewrite Hb. }
    simpl. rewrite lookup_insert_eq. simpl.
    rewrite delete_insert_id by done. by destruct s.
Qed.

Lemma temporary_lock_restores_state_witness :
  N.of_nat (2 * length sharing_program) < SIZE_MAX ∧
  run false true sharing_program init = Some sharing_state ∧
  weak sharing_state !! "W" = Some (mkWeak None (Some 1)) ∧
  shared sharing_state !! "T" = None ∧
  run false true [Lock "T" "W"; SharedDestroy "T"] sharing_state
  = Some sharing_state.
Proof.
  assert (H1 : N.of_nat (2 * length sharing_program) < SIZE_MAX)
    by (vm_compute; reflexivity).
  assert (H2 : run false true sharing_program init = Some sharing_state)
    by (vm_compute; reflexivity).
  assert (H3 : weak sharing_state !! "W" = Some (mkWeak None (Some 1)))
    by (vm_compute; reflexivity).
  assert (H4 : shared sharing_state !! "T" = None)
    by (vm_compute; reflexivity).
  split; [exact H1|]. split; [exact H2|]. split; [exact H3|].
  split; [exact H4|].
  exact (temporary_lock_restores_state false true sharing_program sharing_state
           "W" "T" _ H1 H2 H3 H4).
Defined.

(** A weak handle made from a live strong handle and ended again leaves the
    state as it was, for every object type: observing a block for a while
    releases nothing. *)
Theorem temporary_weak_restores_state (e cv : bool) (cmds : list Cmd)
    (s : State) (x w : string) (h : SharedPtr) :
  N.of_nat (2 * length cmds) < SIZE_MAX →
  run e cv cmds init = Some s →
  shared s !! x = Some h → weak s !! w = None →
  run e cv [WeakFromShared w x; WeakDestroy w] s = Some s.
Proof.
  intros Hn Hrun Hx Hw. simpl. rewrite Hx. unfold declare_weak. rewrite Hw.
  unfold WeakPtr_ctor_shared. simpl.
  destruct (cb h) as [b|] eqn:Hb.
  - destruct (strong_block e cv cmds s x h b Hn Hrun Hx Hb)
      as (c & Hc & Hpos & Hlt & Hwlt).
    erewrite bind_ok by (apply incr_weak_cnt_eq; exact Hc).
    simpl. rewrite lookup_insert_eq. unfold WeakPtr_dtor.
    erewrite (WeakPtr_clear_shared_eq _ b); cycle 1.
    { reflexivity. } { apply set_cb_lookup. }
    { left. cbn [shared_cnt]. lia. }
    cbn [shared_cnt weak_cnt derived].
    rewrite pre_decr_incr by lia.
    rewrite set_cb_set_cb, eta_cb, set_cb_id by done.
    rewrite delete_insert_id by done. by destruct s.
  - simpl. rewrite lookup_insert_eq. unfold WeakPtr_dtor, WeakPtr_clear.
    simpl. rewrite delete_insert_id by done. by destruct s.
Qed.

Lemma temporary_weak_restores_state_witness :
  N.of_nat (2 * length sharing_program) < SIZE_MAX ∧
  run false true sharing_program init = Some sharing_state ∧
  shared sharing_state !! "A" = Some (mkShared None (Some 1)) ∧
  weak sharing_state !! "T" = None ∧
  run false true [WeakFromShared "T" "A"; WeakDestroy "T"] sharing_state
  = Some sharing_state.
Proof.
  assert (H1 : N.of_nat (2 * length sharing_program) < SIZE_MAX)
    by (vm_compute; reflexivity).
  assert (H2 : run false true sharing_program init = Some sharing_state)
    by (vm_compute; reflexivity).
  assert (H3 : shared sharing_state !! "A" = Some (mkShared None (Some 1)))
    by (vm_compute; reflexivity).
  assert (H4 : weak sharing_state !! "T" = None)
    by (vm_compute; reflexivity).
  split; [exact H1|]. split; [exact H2|]. split; [exact H3|].
  split; [exact H4|].
  exact (temporary_weak_restores_state false true sharing_program sharing_state
           "A" "T" _ H1 H2 H3 H4).
Defined.

(** * Assignment, [reset] and [swap] *)

Lemma SharedPtr_dtor_plain_counts h m :
  (∀ b, cb h = Some b →
     ∃ c, heap m !! b = Some c ∧ 0 < shared_cnt c ∧ shared_cnt c ≤ SIZE_MAX) →
  ∃ m', SharedPtr_dtor false h m = Some (tt, m') ∧
    ∀ b c, heap m !! b = Some c →
      counts m' b
      = Some (shared_cnt c - N.of_nat (one (cb h) b), weak_cnt c).
Proof.
  intros Hh. unfold SharedPtr_dtor. destruct (cb h) as [b0|] eqn:Hb0.
  - destruct (Hh b0 eq_refl) as (c0 & Hc0 & Hpos & Hle).
    eexists. split; [by apply SharedPtr_clear_plain_eq|].
    intros b c Hc. unfold counts, one. simpl. case_decide as Hdec.
    + injection Hdec as ->. rewrite lookup_insert_eq. simpl.
      assert (c0 = c) as -> by congruence.
      rewrite pre_decr_pos by lia. done.
    + rewrite lookup_insert_ne by congruence. rewrite Hc. simpl.
      by rewrite N.sub_0_r.
  - exists m. unfold SharedPtr_clear. rewrite Hb0. split; [done|].
    intros b c Hc. unfold counts. rewrite Hc, one_None. simpl.
    by rewrite N.sub_0_r.
Qed.

(** Copy assignment [x = y] between two distinct live strong handles, for an
    object type without [EnableSharedFromThis]: the block of [y] gains one
    strong reference, then the previous value of [x] is given up as by its
    destructor; [x] ends with the pointer pair of [y], and [y] keeps it.
    Every block's [shared_cnt] changes by what it gained from [y] less what
    it lost from [x], its [weak_cnt] does not change, and when the two
    handles already share one block the memory is left exactly as it was.
    Assigning a handle to itself changes nothing. *)
Theorem copy_assignment_shares_the_source (cv : bool) (cmds : list Cmd)
    (s : State)
    (x y : string) (hx hy : SharedPtr) :
  N.of_nat (2 * length cmds) < SIZE_MAX →
  run false cv cmds init = Some s →
  shared s !! x = Some hx → shared s !! y = Some hy → x ≠ y →
  (∃ m1 m',
     SharedPtr_ctor_copy false hy (mem s) = Some (hy, m1) ∧
     SharedPtr_dtor false hx m1 = Some (tt, m') ∧
     exec false cv (SharedAssign x y) s
     = Some (mkState m' (<[x:=hy]> (shared s)) (weak s)) ∧
     (cb hx = cb hy → m' = mem s) ∧
     ∀ b c, heap (mem s) !! b = Some c →
       counts m' b
       = Some (shared_cnt c + N.of_nat (one (cb hy) b)
               - N.of_nat (one (cb hx) b), weak_cnt c)) ∧
  exec false cv (SharedAssign x x) s = Some s.
Proof.
  intros Hn Hrun Hx Hy Hne. split; cycle 1.
  { simpl. rewrite Hx, bool_decide_eq_true_2 by done. simpl.
    rewrite insert_id by done. by destruct s. }
  (* the copy *)
  assert (Hcopy : ∃ m1,
    SharedPtr_ctor_copy false hy (mem s) = Some (hy, m1) ∧
    (∀ b c, heap (mem s) !! b = Some c →
       ∃ c1, heap m1 !! b = Some c1 ∧ weak_cnt c1 = weak_cnt c ∧
         shared_cnt c1 = shared_cnt c + N.of_nat (one (cb hy) b)) ∧
    (∀ b c, cb hy = Some b → heap (mem s) !! b = Some c →
       m1 = set_cb (mem s) b
              (mkCb (shared_cnt c + 1) (weak_cnt c) (derived c))) ∧
    (cb hy = None → m1 = mem s)).
  { rewrite SharedPtr_ctor_copy_plain_eq.
    destruct (cb hy) as [b0|] eqn:Hb0.
    - destruct (strong_block false cv cmds s y hy b0 Hn Hrun Hy Hb0)
        as (c0 & Hc0 & Hpos & Hlt & _).
      rewrite Hc0. eexists. split; [reflexivity|].
      rewrite pre_incr_small by done. split; [|split; [|done]].
      + intros b c Hc. unfold one. simpl. case_decide as Hdec.
        * injection Hdec as ->. rewrite lookup_insert_eq.
          assert (c0 = c) as -> by congruence. eexists. split; [done|].
          simpl. split; [done | lia].
        * rewrite lookup_insert_ne by congruence. exists c.
          split; [done|]. split; [done | simpl; lia].
      + intros b c [= <-] Hc. by assert (c0 = c) as -> by congruence.
    - exists (mem s). split; [done|]. split; [|split; [done|done]].
      intros b c Hc. exists c. rewrite one_None. split; [done|].
      split; [done | simpl; lia]. }
  destruct Hcopy as (m1 & Hcopy & Hm1 & Hsame & Hnone).
  (* the end of the previous value *)
  destruct (SharedPtr_dtor_plain_counts hx m1) as (m' & Hd & Hcounts).
  { intros b Hb.
    destruct (strong_block false cv cmds s x hx b Hn Hrun Hx Hb)
      as (c & Hc & Hpos & Hlt & _).
    destruct (Hm1 b c Hc) as (c1 & Hc1 & _ & Hs1). exists c1.
    split; [done|]. pose proof (one_le (cb hy) b). lia. }
  exists m1, m'. split; [done|]. split; [done|]. split; [|split].
  - simpl. rewrite Hx, Hy, bool_decide_eq_false_2 by done.
    unfold SharedPtr_assign_copy, bind. rewrite Hcopy. simpl.
    rewrite eta_shared. unfold SharedPtr_dtor in Hd. unfold SharedPtr_dtor.
    rewrite Hd. unfold ret. by rewrite eta_shared.
  - intros Heq. destruct (cb hy) as [b0|] eqn:Hb0.
    + destruct (strong_block false cv cmds s y hy b0 Hn Hrun Hy Hb0)
        as (c0 & Hc0 & Hpos & Hlt & _).
      rewrite (Hsame b0 c0 eq_refl Hc0) in Hd.
      unfold SharedPtr_dtor in Hd.
      erewrite (SharedPtr_clear_shared_eq false hx b0) in Hd; cycle 1.
      { exact Heq. } { apply set_cb_lookup. }
      { cbn [shared_cnt]. rewrite pre_decr_pos by lia. lia. }
      cbn [shared_cnt weak_cnt derived] in Hd.
      rewrite pre_decr_pos in Hd by lia.
      assert (shared_cnt c0 + 1 - 1 = shared_cnt c0) as Ha by lia.
      rewrite Ha, set_cb_set_cb, eta_cb, set_cb_id in Hd by done.
      congruence.
    + rewrite (Hnone eq_refl) in Hd. unfold SharedPtr_dtor, SharedPtr_clear in Hd.
      rewrite Heq in Hd. unfold ret in Hd. congruence.
  - intros b c Hc. destruct (Hm1 b c Hc) as (c1 & Hc1 & Hw1 & Hs1).
    rewrite (Hcounts b c1 Hc1), Hw1, Hs1. done.
Qed.

Lemma copy_assignment_shares_the_source_witness :
  N.of_nat (2 * length sharing_program) < SIZE_MAX ∧
  run false true sharing_program init = Some sharing_state ∧
  shared sharing_state !! "A" = Some (mkShared None (Some 1)) ∧
  shared sharing_state !! "B" = Some (mkShared None (Some 1)) ∧
  "A" ≠ "B" ∧
  exec false true (SharedAssign "A" "A") sharing_state = Some sharing_state.
Proof.
  assert (H1 : N.of_nat (2 * length sharing_program) < SIZE_MAX)
    by (vm_compute; reflexivity).
  assert (H2 : run false true sharing_program init = Some sharing_state)
    by (vm_compute; reflexivity).
  assert (H3 : shared sharing_state !! "A" = Some (mkShared None (Some 1)))
    by (vm_compute; reflexivity).
  assert (H4 : shared sharing_state !! "B" = Some (mkShared None (Some 1)))
    by (vm_compute; reflexivity).
  assert (H5 : "A" ≠ "B") by discriminate.
  split; [exact H1|]. split; [exact H2|]. split; [exact H3|].
  split; [exact H4|]. split; [exact H5|].
  exact (proj2 (copy_assignment_shares_the_source true sharing_program
                  sharing_state "A" "B" _ _ H1 H2 H3 H4 H5)).
Defined.

(** [reset()] is the end of the handle's value followed by default
    construction in its place, for every object type and in every state;
    on a name that is not alive neither has a meaning. *)
Theorem reset_is_destroy_then_default (e cv : bool) (x : string)
    (s : State) :
  exec e cv (SharedReset x) s
  = exec e cv (SharedDestroy x) s ≫= exec e cv (SharedDefault x).
Proof.
  simpl. destruct (shared s !! x) as [hx|] eqn:Hx; [|done].
  unfold SharedPtr_reset, SharedPtr_swap, SharedPtr_ctor_default. simpl.
  rewrite eta_shared. unfold bind.
  destruct (SharedPtr_dtor e hx (mem s)) as [[[] m']|]; [|done].
  simpl. unfold declare_shared. simpl.
  rewrite lookup_delete_eq. unfold ret. by rewrite insert_delete_eq.
Qed.

(** [swap] exchanges the pointer pairs of two live handles and touches no
    counter; swapping twice, or swapping a handle with itself, leaves the
    state as it was. *)
Theorem swap_twice_restores_state (e cv : bool) (s : State) (x y : string)
    (hx hy : SharedPtr) :
  shared s !! x = Some hx → shared s !! y = Some hy →
  exec e cv (SharedSwap x y) s
  = Some (mkState (mem s) (<[x:=hy]> (<[y:=hx]> (shared s))) (weak s)) ∧
  run e cv [SharedSwap x y; SharedSwap x y] s = Some s.
Proof.
  intros Hx Hy.
  assert (H1 : exec e cv (SharedSwap x y) s
    = Some (mkState (mem s) (<[x:=hy]> (<[y:=hx]> (shared s))) (weak s))).
  { simpl. rewrite Hx, Hy. unfold SharedPtr_swap. by rewrite !eta_shared. }
  split; [exact H1|].
  cbn [run]. rewrite H1. simpl. rewrite lookup_insert_eq.
  destruct (decide (x = y)) as [->|Hne].
  - rewrite lookup_insert_eq. unfold SharedPtr_swap. rewrite !eta_shared.
    assert (hx = hy) as -> by congruence.
    rewrite !insert_insert_eq, insert_id by done. by destruct s.
  - rewrite lookup_insert_ne, lookup_insert_eq by done.
    unfold SharedPtr_swap. rewrite !eta_shared.
    assert (<[x:=hx]> (<[y:=hy]> (<[x:=hy]> (<[y:=hx]> (shared s))))
            = shared s) as ->; [|by destruct s].
    apply map_eq. intros k.
    destruct (decide (k = x)) as [->|Hkx].
    + by rewrite lookup_insert_eq.
    + rewrite lookup_insert_ne by done.
      destruct (decide (k = y)) as [->|Hky].
      * by rewrite lookup_insert_eq.
      * by rewrite !lookup_insert_ne by done.
Qed.

Lemma swap_twice_restores_state_witness :
  shared sharing_state !! "A" = Some (mkShared None (Some 1)) ∧
  shared sharing_state !! "B" = Some (mkShared None (Some 1)) ∧
  run false true [SharedSwap "A" "B"; SharedSwap "A" "B"] sharing_state
  = Some sharing_state.
Proof.
  assert (H1 : shared sharing_state !! "A" = Some (mkShared None (Some 1)))
    by (vm_compute; reflexivity).
  assert (H2 : shared sharing_state !! "B" = Some (mkShared None (Some 1)))
    by (vm_compute; reflexivity).
  split; [exact H1|]. split; [exact H2|].
  exact (proj2 (swap_twice_restores_state false true sharing_state "A" "B" _ _
                  H1 H2)).
Defined.

(** * Edge cases *)

(** A handle made from a null raw pointer is not an empty handle, for every
    object type, deleter and memory: the constructor allocates a
    [RegularControlBlock] with counters (1,0) all the same, so
    [use_count] is 1 while [get] is null; [operator*] and [operator->],
    finding no direct pointer, take the block for a
    [MakeSharedControlBlock], which it is not; and the end of the handle
    calls the deleter and releases the block. *)
Theorem null_pointer_handle_owns_a_block (e : bool) (del : Deleter)
    (m : Mem) :
  ∃ b h m' m'',
    SharedPtr_ctor_ptr e None del m = Some (h, m') ∧
    h = mkShared None (Some b) ∧
    counts m' b = Some (1, 0) ∧
    trace m' = trace m ++ [Allocate b] ∧
    SharedPtr_get h = None ∧
    SharedPtr_use_count h m' = Some (1, m') ∧
    SharedPtr_deref h m' = None ∧
    SharedPtr_dtor e h m' = Some (tt, m'') ∧
    counts m'' b = Some (0, 0) ∧
    wptrs m'' = wptrs m ∧
    trace m'' = trace m ++ [Allocate b; DestroyObject b; DeallocateCb b].
Proof.
  eexists _, _, _, _. split.
  { unfold SharedPtr_ctor_ptr, update_enable_shared_from_this. simpl.
    erewrite bind_ok by reflexivity. erewrite bind_ok by reflexivity.
    reflexivity. }
  split; [reflexivity|].
  split; [unfold counts; simpl; by rewrite lookup_insert_eq|].
  split; [done|]. split; [done|].
  split.
  { unfold SharedPtr_use_count. simpl.
    erewrite bind_ok by (apply read_cb_eq; apply lookup_insert_eq). done. }
  split.
  { unfold SharedPtr_deref. simpl. unfold bind, read_cb. simpl.
    by rewrite lookup_insert_eq. }
  split.
  { unfold SharedPtr_dtor, SharedPtr_clear. simpl.
    erewrite bind_ok by
      (unfold decr_shared_cnt; erewrite bind_ok
         by (apply read_cb_eq; apply lookup_insert_eq); reflexivity).
    erewrite bind_ok by (apply read_cb_eq; apply lookup_insert_eq).
    cbn [shared_cnt].
    assert (pre_decr 1 = 0) as -> by (vm_compute; reflexivity).
    simpl.
    erewrite bind_ok; cycle 1.
    { unfold destroy_object.
      erewrite bind_ok by (apply read_cb_eq; apply lookup_insert_eq).
      erewrite bind_ok by reflexivity. simpl. reflexivity. }
    erewrite bind_ok by (apply read_cb_eq; apply lookup_insert_eq).
    simpl. unfold deallocate_cb.
    erewrite bind_ok by (apply read_cb_eq; apply lookup_insert_eq).
    reflexivity. }
  split; [unfold counts; simpl; by rewrite lookup_insert_eq|].
  split; [done|].
  simpl. by rewrite <- !app_assoc.
Qed.

(** Empty handles are inert, for every object type and in every memory:
    copying, moving, resetting and ending an empty strong handle, making a
    weak handle from it, and copying, locking, querying and ending an empty
    weak handle all leave the memory as it is and yield empty handles.  The
    exceptions are [use_count], [operator*] and [operator->] of the strong
    handle, which read through the null block pointer. *)
Theorem empty_handles_are_inert (e cv : bool) (m : Mem) :
  let h := SharedPtr_ctor_default in
  let w := WeakPtr_ctor_default in
  SharedPtr_ctor_copy e h m = Some (h, m) ∧
  SharedPtr_ctor_move e h m = Some ((h, h), m) ∧
  SharedPtr_ctor_rvalue e cv h m = Some ((h, h), m) ∧
  SharedPtr_assign_copy e false h h m = Some (h, m) ∧
  SharedPtr_assign_move e cv false h h m = Some ((h, h), m) ∧
  SharedPtr_reset e h m = Some (h, m) ∧
  SharedPtr_dtor e h m = Some (tt, m) ∧
  SharedPtr_get h = None ∧
  WeakPtr_ctor_shared h m = Some (w, m) ∧
  WeakPtr_ctor_copy w m = Some (w, m) ∧
  WeakPtr_assign_copy false w w m = Some (w, m) ∧
  WeakPtr_assign_move false w w m = Some ((w, w), m) ∧
  WeakPtr_use_count w m = Some (0, m) ∧
  WeakPtr_expired w m = Some (true, m) ∧
  WeakPtr_lock w m = Some (h, m) ∧
  WeakPtr_dtor w m = Some (tt, m) ∧
  SharedPtr_use_count h m = None ∧
  SharedPtr_deref h m = None.
Proof. destruct e, cv; repeat split; reflexivity. Qed.

(** * Assignment of weak handles *)

Lemma WeakPtr_clear_ok h m :
  (∀ b, wcb h = Some b → is_Some (heap m !! b)) →
  ∃ m', WeakPtr_clear h m = Some (tt, m').
Proof.
  intros Hh. unfold WeakPtr_clear. destruct (wcb h) as [b|]; [|by eexists].
  destruct (Hh b eq_refl) as [c Hc].
  erewrite bind_ok by (apply decr_weak_cnt_eq; exact Hc).
  erewrite bind_ok by (apply read_cb_eq; apply set_cb_lookup).
  destruct (_ && _); [|by eexists].
  unfold deallocate_cb.
  erewrite bind_ok by (apply read_cb_eq; apply set_cb_lookup).
  by eexists.
Qed.

(** Assignment between live weak handles, for every object type.  Move
    assignment [w = std::move(v)] of a distinct handle gives [w] the pointer
    pair of [v], empties [v], and does to the memory what the destructor
    does on the previous value of [w].  Copy assignment between two handles
    on the same block (or both empty) leaves the memory as it was.
    Assigning a weak handle to itself, by copy or by move, changes
    nothing. *)
Theorem weak_assignment_transfers_the_pair (e cv : bool) (cmds : list Cmd)
    (s : State) (w v : string) (hw hv : WeakPtr) :
  N.of_nat (2 * length cmds) < SIZE_MAX →
  run e cv cmds init = Some s →
  weak s !! w = Some hw → weak s !! v = Some hv → w ≠ v →
  (∃ m', WeakPtr_dtor hw (mem s) = Some (tt, m') ∧
     exec e cv (WeakMoveAssign w v) s
     = Some (mkState m' (shared s)
               (<[w:=hv]> (<[v:=mkWeak None None]> (weak s))))) ∧
  (wcb hw = wcb hv →
   exec e cv (WeakAssign w v) s
   = Some (mkState (mem s) (shared s) (<[w:=hv]> (weak s)))) ∧
  exec e cv (WeakAssign w w) s = Some s ∧
  exec e cv (WeakMoveAssign w w) s = Some s.
Proof.
  intros Hn Hrun Hw Hv Hne. split; [|split; [|split]].
  - destruct (WeakPtr_clear_ok hw (mem s)) as [m' Hd].
    { intros b Hb.
      destruct (weak_block e cv cmds s w hw b Hn Hrun Hw Hb) as (c & Hc & _).
      eauto. }
    exists m'. split; [exact Hd|].
    simpl. rewrite Hw, Hv, bool_decide_eq_false_2 by done.
    unfold WeakPtr_assign_move, WeakPtr_ctor_move, WeakPtr_swap. simpl.
    rewrite !eta_weak. unfold bind, WeakPtr_dtor. rewrite Hd. done.
  - intros Heq. simpl. rewrite Hw, Hv, bool_decide_eq_false_2 by done.
    unfold WeakPtr_assign_copy, WeakPtr_ctor_copy, WeakPtr_swap. simpl.
    destruct (wcb hv) as [b|] eqn:Hb.
    + destruct (weak_block e cv cmds s v hv b Hn Hrun Hv Hb)
        as (c & Hc & Hpos & Hlt & Hwlt).
      erewrite bind_ok; cycle 1.
      { erewrite bind_ok by (apply incr_weak_cnt_eq; exact Hc).
        reflexivity. }
      simpl. rewrite eta_weak. unfold WeakPtr_dtor.
      erewrite bind_ok; cycle 1.
      { eapply (WeakPtr_clear_shared_eq _ b); [exact Heq | apply set_cb_lookup |].
        right. cbn [weak_cnt]. rewrite pre_decr_incr by lia. lia. }
      cbn [shared_cnt weak_cnt derived].
      rewrite pre_decr_incr by lia.
      rewrite set_cb_set_cb, eta_cb, set_cb_id by done.
      unfold ret. rewrite <- Hb. by rewrite eta_weak.
    + unfold bind, ret, WeakPtr_dtor, WeakPtr_clear. simpl. rewrite Heq.
      rewrite <- Hb. by rewrite eta_weak.
  - simpl. rewrite Hw, bool_decide_eq_true_2 by done. simpl.
    rewrite insert_id by done. by destruct s.
  - simpl. rewrite Hw, bool_decide_eq_true_2 by done.
    unfold WeakPtr_assign_move, WeakPtr_ctor_move, WeakPtr_swap. simpl.
    rewrite eta_weak, insert_insert_eq, insert_id by done. by destruct s.
Qed.

Lemma weak_assignment_transfers_the_pair_witness :
  N.of_nat (2 * length observing_program) < SIZE_MAX ∧
  run false true observing_program init = Some observing_state ∧
  weak observing_state !! "W" = Some (mkWeak None (Some 1)) ∧
  weak observing_state !! "V" = Some (mkWeak None (Some 1)) ∧
  "W" ≠ "V" ∧
  exec false true (WeakAssign "W" "V") observing_state = Some observing_state.
Proof.
  assert (H1 : N.of_nat (2 * length observing_program) < SIZE_MAX)
    by (vm_compute; reflexivity).
  assert (H2 : run false true observing_program init = Some observing_state)
    by (vm_compute; reflexivity).
  assert (H3 : weak observing_state !! "W" = Some (mkWeak None (Some 1)))
    by (vm_compute; reflexivity).
  assert (H4 : weak observing_state !! "V" = Some (mkWeak None (Some 1)))
    by (vm_compute; reflexivity).
  assert (H5 : "W" ≠ "V") by discriminate.
  split; [exact H1|]. split; [exact H2|]. split; [exact H3|].
  split; [exact H4|]. split; [exact H5|].
  exact (proj1 (proj2 (weak_assignment_transfers_the_pair false true
    observing_program observing_state "W" "V" _ _ H1 H2 H3 H4 H5)) eq_refl).
Defined.

(** * [reset] to a new object *)

Lemma SharedPtr_ctor_ptr_eq e ptr del m :
  SharedPtr_ctor_ptr e ptr del m
  = Some (mkShared ptr (Some (next_cb m)),
          mkMem (<[next_cb m:=mkCb 1 0 (RegularControlBlock ptr del)]>
                   (heap m))
                (wptrs m) (trace m ++ [Allocate (next_cb m)])
                (next_cb m + 1)).
Proof.
  unfold SharedPtr_ctor_ptr, update_enable_shared_from_this. simpl.
  erewrite bind_ok by reflexivity. erewrite bind_ok by reflexivity.
  reflexivity.
Qed.

(** [x.reset(ptr, del)] on a live strong handle, for an object type without
    [EnableSharedFromThis]: [x] ends with [ptr] and a block that did not
    exist before, whose counters are (1,0); the previous value of [x] is
    given up as by its destructor, so the block it referenced has its
    [shared_cnt] one lower and every other counter is as before. *)
Theorem reset_to_pointer_takes_a_new_block (cv : bool) (cmds : list Cmd)
    (s : State)
    (x : string) (hx : SharedPtr) (ptr : option addr) (del : Deleter) :
  N.of_nat (2 * length cmds) < SIZE_MAX →
  run false cv cmds init = Some s →
  shared s !! x = Some hx →
  ∃ m',
    heap (mem s) !! next_cb (mem s) = None ∧
    exec false cv (SharedResetPtr x ptr del) s
    = Some (mkState m'
              (<[x:=mkShared ptr (Some (next_cb (mem s)))]> (shared s))
              (weak s)) ∧
    counts m' (next_cb (mem s)) = Some (1, 0) ∧
    ∀ b c, heap (mem s) !! b = Some c →
      counts m' b
      = Some (shared_cnt c - N.of_nat (one (cb hx) b), weak_cnt c).
Proof.
  intros Hn Hrun Hx.
  destruct (reachable_fresh false cv cmds s Hrun) as (Hnew & _).
  pose proof (SharedPtr_ctor_ptr_eq false ptr del (mem s)) as Hctor.
  set (m1 := mkMem _ _ _ _) in Hctor.
  assert (Hold : ∀ b c, heap (mem s) !! b = Some c → heap m1 !! b = Some c).
  { intros b c Hc. subst m1. simpl. rewrite lookup_insert_ne; [done|].
    intros <-. congruence. }
  destruct (SharedPtr_dtor_plain_counts hx m1) as (m' & Hd & Hcounts).
  { intros b Hb.
    destruct (strong_block false cv cmds s x hx b Hn Hrun Hx Hb)
      as (c & Hc & Hpos & Hlt & _).
    exists c. split; [by apply Hold|]. lia. }
  exists m'. split; [done|]. split; [|split].
  - simpl. rewrite Hx. unfold SharedPtr_reset_ptr, bind. rewrite Hctor.
    simpl. rewrite eta_shared. unfold SharedPtr_dtor in Hd.
    unfold SharedPtr_dtor. rewrite Hd. done.
  - erewrite Hcounts by (subst m1; simpl; apply lookup_insert_eq).
    simpl. unfold one. case_decide as Hdec; [|done].
    destruct (strong_block false cv cmds s x hx _ Hn Hrun Hx Hdec)
      as (c & Hc & _). congruence.
  - intros b c Hc. by apply Hcounts, Hold.
Qed.

Lemma reset_to_pointer_takes_a_new_block_witness :
  N.of_nat (2 * length sharing_program) < SIZE_MAX ∧
  run false true sharing_program init = Some sharing_state ∧
  shared sharing_state !! "A" = Some (mkShared None (Some 1)) ∧
  ∃ m',
    heap (mem sharing_state) !! next_cb (mem sharing_state) = None ∧
    exec false true (SharedResetPtr "A" (Some 7) default_delete) sharing_state
    = Some (mkState m'
              (<[ "A" :=mkShared (Some 7)
                          (Some (next_cb (mem sharing_state)))]>
                 (shared sharing_state))
              (weak sharing_state)) ∧
    counts m' (next_cb (mem sharing_state)) = Some (1, 0) ∧
    ∀ b c, heap (mem sharing_state) !! b = Some c →
      counts m' b
      = Some (shared_cnt c
              - N.of_nat (one (cb (mkShared None (Some 1))) b), weak_cnt c).
Proof.
  assert (H1 : N.of_nat (2 * length sharing_program) < SIZE_MAX)
    by (vm_compute; reflexivity).
  assert (H2 : run false true sharing_program init = Some sharing_state)
    by (vm_compute; reflexivity).
  assert (H3 : shared sharing_state !! "A" = Some (mkShared None (Some 1)))
    by (vm_compute; reflexivity).
  split; [exact H1|]. split; [exact H2|]. split; [exact H3|].
  exact (reset_to_pointer_takes_a_new_block true sharing_program sharing_state
           "A" _ (Some 7) default_delete H1 H2 H3).
Defined.

(** * No access through a null or wild block pointer *)

Lemma is_Some_set_cb m b c b' :
  is_Some (heap m !! b') → is_Some (heap (set_cb m b c) !! b').
Proof.
  intros H. unfold set_cb. simpl. destruct (decide (b' = b)) as [->|Hne].
  - rewrite lookup_insert_eq. eauto.
  - by rewrite lookup_insert_ne.
Qed.

Lemma SharedPtr_dtor_plain_ok h m :
  (∀ b, cb h = Some b → is_Some (heap m !! b)) →
  ∃ m', SharedPtr_dtor false h m = Some (tt, m').
Proof.
  intros Hh. unfold SharedPtr_dtor. destruct (cb h) as [b|] eqn:Hb.
  - destruct (Hh b eq_refl) as [c Hc]. eexists.
    by apply SharedPtr_clear_plain_eq.
  - exists m. unfold SharedPtr_clear. by rewrite Hb.
Qed.

Lemma SharedPtr_ctor_copy_plain_ok h m :
  (∀ b, cb h = Some b → is_Some (heap m !! b)) →
  ∃ m', SharedPtr_ctor_copy false h m = Some (h, m') ∧
    ∀ b, is_Some (heap m !! b) → is_Some (heap m' !! b).
Proof.
  intros Hh. rewrite SharedPtr_ctor_copy_plain_eq.
  destruct (cb h) as [b|] eqn:Hb.
  - destruct (Hh b eq_refl) as [c Hc]. rewrite Hc. eexists.
    split; [done|]. intros b'. apply is_Some_set_cb.
  - by exists m.
Qed.

Lemma WeakPtr_ctor_ok (o : option addr) (ob : option blk) m :
  (∀ b, ob = Some b → is_Some (heap m !! b)) →
  ∃ m', (match ob with Some b => incr_weak_cnt b | None => ret tt end;;;
         ret (mkWeak o ob)) m = Some (mkWeak o ob, m') ∧
    ∀ b, is_Some (heap m !! b) → is_Some (heap m' !! b).
Proof.
  intros Hh. destruct ob as [b|].
  - destruct (Hh b eq_refl) as [c Hc].
    erewrite bind_ok by (apply incr_weak_cnt_eq; exact Hc).
    eexists. split; [done|]. intros b'. apply is_Some_set_cb.
  - by exists m.
Qed.

Ltac named H :=
  unfold alive in H;
  repeat match type of H with
  | _ && _ = true => let H' := fresh "Hn" in apply andb_prop in H as [H' H]
  end;
  repeat match goal with
  | H : negb (match ?x with _ => _ end) = true |- _ =>
      destruct x eqn:?; [discriminate H | clear H]
  | H : match ?x with _ => _ end = true |- _ =>
      destruct x eqn:?; [clear H | discriminate H]
  end.

(** For an object type without [EnableSharedFromThis], no statement on
    handles goes through a null or wild block pointer: in every state a
    program can reach, every statement that uses its names properly has an
    outcome. *)
Theorem plain_statements_never_fault (cv : bool) (cmds : list Cmd)
    (s : State)
    (c : Cmd) :
  N.of_nat (2 * length cmds) < SIZE_MAX →
  run false cv cmds init = Some s →
  well_named c s = true →
  is_Some (exec false cv c s).
Proof.
  intros Hn Hrun Hwn.
  pose proof (reachable_fresh false cv cmds s Hrun) as HF.
  pose proof (run_plain_wptrs _ _ _ _ Hrun) as Hwp. simpl in Hwp.
  assert (HS : ∀ x h, shared s !! x = Some h →
            ∀ b, cb h = Some b → is_Some (heap (mem s) !! b)).
  { intros x h Hx b Hb.
    destruct (strong_block false cv cmds s x h b Hn Hrun Hx Hb)
      as (c0 & Hc0 & _).
    eauto. }
  assert (HW : ∀ w h, weak s !! w = Some h →
            ∀ b, wcb h = Some b → is_Some (heap (mem s) !! b)).
  { intros w h Hw b Hb.
    destruct (weak_block false cv cmds s w h b Hn Hrun Hw Hb) as (c0 & Hc0 & _).
    eauto. }
  destruct c; simpl in Hwn; named Hwn; simpl;
    unfold declare_shared, declare_weak;
    repeat match goal with
    | H : ?x = _ |- context [?x] => rewrite H
    end; simpl; try done.
  - (* SharedCopy *)
    match goal with |- context [SharedPtr_ctor_copy false ?h _] =>
      destruct (SharedPtr_ctor_copy_plain_ok h (mem s)) as (m' & -> & _);
        [by eapply HS | done]
    end.
  - (* SharedMove *)
    destruct cv.
    + rewrite SharedPtr_ctor_rvalue_plain_eq. done.
    + rewrite SharedPtr_ctor_rvalue_copy.
      match goal with |- context [SharedPtr_ctor_copy false ?h _] =>
        destruct (SharedPtr_ctor_copy_plain_ok h (mem s)) as (m' & -> & _);
          [by eapply HS | done]
      end.
  - (* SharedAssign *)
    match goal with |- context [SharedPtr_assign_copy false _ ?hx ?hy _] =>
      unfold SharedPtr_assign_copy; destruct (bool_decide _); [done|];
      destruct (SharedPtr_ctor_copy_plain_ok hy (mem s)) as (m1 & Hc & Hdom);
        [by eapply (HS _ hy)|];
      unfold bind; rewrite Hc; simpl;
      destruct (SharedPtr_dtor_plain_ok (mkShared (object hx) (cb hx)) m1)
        as (m' & ->); [|done];
      simpl; intros b Hb; apply Hdom; by eapply (HS _ hx)
    end.
  - (* SharedMoveAssign *)
    match goal with |- context [SharedPtr_assign_move false _ _ ?hx ?hy _] =>
      destruct cv;
      [ unfold SharedPtr_assign_move, bind;
        rewrite SharedPtr_ctor_rvalue_plain_eq; simpl;
        destruct (bool_decide _); simpl; [done|];
        destruct (SharedPtr_dtor_plain_ok (mkShared (object hx) (cb hx))
                    (mem s)) as (m' & ->); [|done];
        simpl; by eapply (HS _ hx)
      | rewrite SharedPtr_assign_move_copy;
        unfold SharedPtr_assign_copy;
        destruct (SharedPtr_ctor_copy_plain_ok hy (mem s))
          as (m1 & Hc & Hdom); [by eapply (HS _ hy)|];
        unfold bind; rewrite Hc; simpl;
        match goal with |- context [SharedPtr_dtor false ?h m1] =>
          destruct (SharedPtr_dtor_plain_ok h m1) as (m' & ->); [|done]
        end;
        simpl; intros b Hb; apply Hdom;
        destruct (bool_decide _);
          [by eapply (HS _ hy) | by eapply (HS _ hx)] ]
    end.
  - (* SharedReset *)
    match goal with |- context [SharedPtr_reset false ?hx _] =>
      unfold SharedPtr_reset, bind; simpl;
      destruct (SharedPtr_dtor_plain_ok (mkShared (object hx) (cb hx))
                  (mem s)) as (m' & ->); [|done];
      simpl; by eapply (HS _ hx)
    end.
  - (* SharedResetPtr *)
    unfold SharedPtr_reset_ptr, bind. rewrite SharedPtr_ctor_ptr_eq. simpl.
    match goal with
    | |- context [SharedPtr_dtor false ?h ?m] =>
        destruct (SharedPtr_dtor_plain_ok h m) as (m' & ->); [|done]
    end.
    simpl. intros b Hb.
    destruct (decide (b = next_cb (mem s))) as [->|Hne].
    + rewrite lookup_insert_eq. eauto.
    + rewrite lookup_insert_ne by done. by eapply HS.
  - (* SharedDestroy *)
    match goal with |- context [SharedPtr_dtor false ?h _] =>
      destruct (SharedPtr_dtor_plain_ok h (mem s)) as (m' & ->); [|done];
      by eapply HS
    end.
  - (* WeakFromShared *)
    match goal with |- context [WeakPtr_ctor_shared ?h _] =>
      destruct (WeakPtr_ctor_ok (object h) (cb h) (mem s)) as (m' & H & _);
        [by eapply HS|];
      unfold WeakPtr_ctor_shared; simpl; rewrite H; done
    end.
  - (* WeakCopy *)
    match goal with |- context [WeakPtr_ctor_copy ?h _] =>
      destruct (WeakPtr_ctor_ok (wobject h) (wcb h) (mem s)) as (m' & H & _);
        [by eapply HW|];
      unfold WeakPtr_ctor_copy; simpl; rewrite H; done
    end.
  - (* WeakAssign *)
    match goal with |- context [WeakPtr_assign_copy _ ?hw ?hv _] =>
      unfold WeakPtr_assign_copy; destruct (bool_decide _); [done|];
      destruct (WeakPtr_ctor_ok (wobject hv) (wcb hv) (mem s))
        as (m1 & H & Hdom); [by eapply (HW _ hv)|];
      destruct (WeakPtr_clear_ok (mkWeak (wobject hw) (wcb hw)) m1)
        as (m' & Hd);
        [simpl; intros b Hb; apply Hdom; by eapply (HW _ hw)|];
      unfold WeakPtr_ctor_copy, bind in *; simpl in *; rewrite H; simpl;
      unfold WeakPtr_dtor; rewrite Hd; done
    end.
  - (* WeakMoveAssign *)
    match goal with |- context [WeakPtr_assign_move _ ?hw ?hv _] =>
      unfold WeakPtr_assign_move, bind, WeakPtr_dtor; simpl;
      destruct (bool_decide _); simpl; [done|];
      destruct (WeakPtr_clear_ok (mkWeak (wobject hw) (wcb hw)) (mem s))
        as (m' & ->); [|done];
      simpl; by eapply (HW _ hw)
    end.
  - (* WeakDestroy *)
    match goal with |- context [WeakPtr_dtor ?hw _] =>
      unfold WeakPtr_dtor;
      destruct (WeakPtr_clear_ok hw (mem s)) as (m' & ->); [|done];
      by eapply HW
    end.
  - (* Lock *)
    match goal with |- context [WeakPtr_lock ?h _] => rename h into hw end.
    destruct (wcb hw) as [b|] eqn:Hb.
    + destruct (weak_block false cv cmds s _ hw b Hn Hrun ltac:(eassumption) Hb)
        as (c0 & Hc0 & Hpos & Hlt & Hwlt).
      destruct (N.eqb_spec (shared_cnt c0) 0) as [Hz|Hnz].
      * rewrite WeakPtr_lock_expired; [done|].
        unfold WeakPtr_expired, WeakPtr_use_count. rewrite Hb.
        erewrite bind_ok; cycle 1.
        { erewrite bind_ok by (apply read_cb_eq; exact Hc0). reflexivity. }
        unfold ret. by rewrite Hz.
      * rewrite (WeakPtr_lock_alive hw b c0) by (done || lia). done.
    + rewrite WeakPtr_lock_expired; [done|].
      unfold WeakPtr_expired, WeakPtr_use_count. by rewrite Hb.
  - (* SharedFromThis *)
    unfold shared_from_this.
    erewrite bind_ok
      by (unfold read_wptr; rewrite Hwp, lookup_empty; reflexivity).
    done.
Qed.

Lemma plain_statements_never_fault_witness :
  N.of_nat (2 * length sharing_program) < SIZE_MAX ∧
  run false true sharing_program init = Some sharing_state ∧
  well_named (SharedMoveAssign "A" "B") sharing_state = true ∧
  is_Some (exec false true (SharedMoveAssign "A" "B") sharing_state).
Proof.
  assert (H1 : N.of_nat (2 * length sharing_program) < SIZE_MAX)
    by (vm_compute; reflexivity).
  assert (H2 : run false true sharing_program init = Some sharing_state)
    by (vm_compute; reflexivity).
  assert (H3 : well_named (SharedMoveAssign "A" "B") sharing_state = true)
    by (vm_compute; reflexivity).
  split; [exact H1|]. split; [exact H2|]. split; [exact H3|].
  exact (plain_statements_never_fault true sharing_program sharing_state _
           H1 H2 H3).
Defined.
